(** * alt-config: a shallow embedding of [alt-config.h] and its properties

    The header defines four components: the escaping utilities of
    [namespace detail], the dynamically typed tree [Node], the [Parser]
    (tokenizer and recursive descent) and the [Emitter].  Each is embedded
    below from the C++ source, with mutable locals made explicit
    accumulators, exceptions made an explicit outcome, and the parser's
    cursor made an explicit record. *)

From Stdlib Require Import String Ascii List ZArith Lia Bool Arith.
Import ListNotations.

Local Open Scope string_scope.
Local Open Scope list_scope.
Local Open Scope nat_scope.

(** ** Characters the source names *)

Definition LF : ascii := "010"%char.         (* '\n' *)
Definition CR : ascii := "013"%char.         (* '\r' *)
Definition TAB : ascii := "009"%char.        (* '\t' *)
Definition SPACE : ascii := " "%char.
Definition QUOTE : ascii := "'"%char.        (* '\'' *)
Definition DQUOTE : ascii := "034"%char.     (* the double quote *)
Definition BACKSLASH : ascii := "\"%char.    (* '\\' *)
Definition HASH : ascii := "#"%char.
Definition COMMA : ascii := ","%char.
Definition COLON : ascii := ":"%char.
Definition NUL : ascii := "000"%char.

(** [res += c] on a [std::string]. *)
Definition push_back (res : string) (c : ascii) : string :=
  (res ++ String c EmptyString)%string.

(** ** Exceptions and outcomes *)

(** [class Error : std::exception]: a message and a source position. *)
Record Error : Type := mkError {
  err : string;
  pos : nat;
  lin : nat;
  col : nat
}.

(** [Error{ msg }] with the defaulted position arguments. *)
Definition Error_msg (msg : string) : Error := mkError msg 0 0 0.

(** What a call can throw: the library's own [Error], or one of the
    standard exceptions that pass through it uncaught. *)
Inductive exn : Type :=
| AltError (e : Error)
| std_out_of_range
| std_length_error.

Inductive outcome (A : Type) : Type :=
| Ret (a : A)
| Throw (e : exn).
Arguments Ret {A} a.
Arguments Throw {A} e.

Definition bind {A B : Type} (m : outcome A) (k : A -> outcome B) : outcome B :=
  match m with
  | Ret a => k a
  | Throw e => Throw e
  end.

Notation "x <- m ;; k" := (bind m (fun x => k))
  (at level 61, m at next level, right associativity).

(** ** namespace detail *)

Module detail.

(** The [while (it != str.end())] loop of [Unescape]; [res] is the
    string under construction. *)
Fixpoint Unescape_loop (str : string) (res : string) : string :=
  match str with
  | EmptyString => res
  | String c it =>
    if (c =? BACKSLASH)%char then
      match it with
      | EmptyString => push_back res c
      | String c' it' =>
        if (c' =? "n")%char || (c' =? LF)%char then
          Unescape_loop it' (push_back res LF)
        else if (c' =? "r")%char then
          Unescape_loop it' (push_back res CR)
        else if (c' =? QUOTE)%char || (c' =? DQUOTE)%char
                || (c' =? BACKSLASH)%char then
          Unescape_loop it' (push_back res c')
        else
          Unescape_loop it' (push_back (push_back res BACKSLASH) c')
      end
    else Unescape_loop it (push_back res c)
  end.

(** A [char] widened to [int] (two's complement, 8 bits, signed). *)
Definition char_to_int (c : ascii) : Z :=
  let n := Z.of_N (N_of_ascii c) in
  if (n <? 128)%Z then n else (n - 256)%Z.

(** [std::isspace] in the C locale. *)
Definition isspace (ch : Z) : bool :=
  ((ch =? 32) || ((9 <=? ch) && (ch <=? 13)))%Z.

(** The lambda handed to [std::find_if]. *)
Definition trim_stop (c : ascii) : bool :=
  let ch := char_to_int c in
  (ch <? 0)%Z || negb (isspace ch).

(** [std::find_if]: how many elements precede the first hit. *)
Fixpoint find_if {A : Type} (pred : A -> bool) (l : list A) : nat :=
  match l with
  | [] => 0
  | x :: l' => if pred x then 0 else S (find_if pred l')
  end.

(** [res.erase(std::find_if(res.rbegin(), res.rend(), ...).base(),
    res.end())]: the reverse scan stops [k] places from the end, its
    [base()] is the forward position [size - k], and everything from
    there on is erased. *)
Definition trim_trailing (res : string) : string :=
  let l := list_ascii_of_string res in
  let k := find_if trim_stop (rev l) in
  string_of_list_ascii (firstn (length l - k) l).

Definition Unescape (str : string) : string :=
  trim_trailing (Unescape_loop str EmptyString).

(** The loop of [Escape]. *)
Fixpoint Escape_loop (str : string) (res : string) : string :=
  match str with
  | EmptyString => res
  | String c it =>
    if (c =? LF)%char then
      Escape_loop it (res ++ "\n")%string
    else if (c =? CR)%char then
      Escape_loop it (res ++ "\r")%string
    else if (c =? QUOTE)%char || (c =? DQUOTE)%char
            || (c =? BACKSLASH)%char then
      Escape_loop it (push_back (push_back res BACKSLASH) c)
    else
      Escape_loop it (push_back res c)
  end.

Definition Escape (str : string) : string :=
  Escape_loop str EmptyString.

(** What [Escape] writes for one character. *)
Definition escaped (c : ascii) : string :=
  if (c =? LF)%char then "\n"
  else if (c =? CR)%char then "\r"
  else if (c =? QUOTE)%char || (c =? DQUOTE)%char || (c =? BACKSLASH)%char
       then String BACKSLASH (String c EmptyString)
       else String c EmptyString.

(** Whether the last character of a string is one [Unescape] trims. *)
Definition ends_in_space (s : string) : bool :=
  match rev (list_ascii_of_string s) with
  | [] => false
  | c :: _ => negb (trim_stop c)
  end.

End detail.

(** ** std::map<std::string, V>

    A [std::map] is observed through [find], [insert], [operator[]],
    [size] and in-order iteration only, so it is kept as the list of its
    entries in iteration order.  [std::less<std::string>] compares the
    bytes as unsigned values and then the lengths, which is
    [String.compare]. *)

Module std_map.

Section Ops.
Context {V : Type}.

Definition t : Type := list (string * V).

(** [m.find(key)]: the mapped value, or [None] for [m.end()]. *)
Fixpoint find (key : string) (m : t) : option V :=
  match m with
  | [] => None
  | (k, v) :: m' =>
    match String.compare key k with
    | Eq => Some v
    | Lt => None
    | Gt => find key m'
    end
  end.

(** [m.insert({key, v})]: an existing entry is left as it is. *)
Fixpoint insert (key : string) (v : V) (m : t) : t :=
  match m with
  | [] => [(key, v)]
  | (k, v') :: m' =>
    match String.compare key k with
    | Eq => (k, v') :: m'
    | Lt => (key, v) :: (k, v') :: m'
    | Gt => (k, v') :: insert key v m'
    end
  end.

(** [m[key] = v]: inserts or overwrites. *)
Fixpoint set (key : string) (v : V) (m : t) : t :=
  match m with
  | [] => [(key, v)]
  | (k, v') :: m' =>
    match String.compare key k with
    | Eq => (k, v) :: m'
    | Lt => (key, v) :: (k, v') :: m'
    | Gt => (k, v') :: set key v m'
    end
  end.

Definition size (m : t) : nat := length m.

Definition keys (m : t) : list string := map fst m.

(** The representation invariant: keys strictly ascending. *)
Fixpoint ascending (m : t) : bool :=
  match m with
  | [] => true
  | (k, _) :: m' =>
    match m' with
    | [] => true
    | (k', _) :: _ => String.ltb k k' && ascending m'
    end
  end.
End Ops.

Arguments t V : clear implicits.

End std_map.

(** ** class Node *)

(** [enum class Type]. *)
Inductive Type_ : Type := NONE | SCALAR | LIST | DICT.

(** A [Node] holds a [type] tag and a [Value*] whose dynamic class every
    constructor and [operator=] set together with the tag: [Value] for
    [NONE], [ValueScalar], [ValueList], [ValueDict].  The pair is one
    constructor here.  A [Node*] is an [option Node], [None] being
    [nullptr]; a container owns the nodes it points to. *)
Unset Elimination Schemes.
Inductive Node : Type :=
| NodeNone
| NodeScalar (val : string)
| NodeList (val : list (option Node))
| NodeDict (val : std_map.t (option Node)).
Set Elimination Schemes.

Definition List : Type := list (option Node).
Definition Dict : Type := std_map.t (option Node).

(** What an induction hypothesis says of a pointer: nothing of
    [nullptr], the property of the node otherwise. *)
Definition on_pointee (P : Node -> Prop) (p : option Node) : Prop :=
  match p with
  | Some n => P n
  | None => True
  end.

Section Node_induction.
Variable P : Node -> Prop.
Hypothesis HNone : P NodeNone.
Hypothesis HScalar : forall val, P (NodeScalar val).
Hypothesis HList : forall val : List,
  Forall (on_pointee P) val -> P (NodeList val).
Hypothesis HDict : forall val : Dict,
  Forall (fun e => on_pointee P (snd e)) val -> P (NodeDict val).

Fixpoint Node_ind (n : Node) : P n :=
  match n with
  | NodeNone => HNone
  | NodeScalar val => HScalar val
  | NodeList val =>
    HList val
      ((fix children (l : List) : Forall (on_pointee P) l :=
          match l with
          | [] => Forall_nil _
          | p :: l' =>
            Forall_cons p
              (match p return on_pointee P p with
               | Some c => Node_ind c
               | None => I
               end)
              (children l')
          end) val)
  | NodeDict val =>
    HDict val
      ((fix entries (l : Dict) : Forall (fun e => on_pointee P (snd e)) l :=
          match l with
          | [] => Forall_nil _
          | (k, p) :: l' =>
            Forall_cons (k, p)
              (match p return on_pointee P p with
               | Some c => Node_ind c
               | None => I
               end)
              (entries l')
          end) val)
  end.
End Node_induction.

(** ** std::stod

    [ValueScalar::ToNumber] calls [std::stod], which is not part of the
    header.  Which prefix of the text it consumes is fixed by the C
    standard's grammar for [strtod] in the C locale and is computed here;
    the IEEE value of a consumed prefix stays a parameter of the
    development (see [Section Conversions]). *)

Module std_stod.

Definition code (c : ascii) : nat := nat_of_ascii c.

Definition is_digit (c : ascii) : bool :=
  (48 <=? code c) && (code c <=? 57).

Definition is_alpha (c : ascii) : bool :=
  ((65 <=? code c) && (code c <=? 90)) || ((97 <=? code c) && (code c <=? 122)).

Definition is_xdigit (c : ascii) : bool :=
  is_digit c || ((65 <=? code c) && (code c <=? 70))
             || ((97 <=? code c) && (code c <=? 102)).

Definition is_nchar (c : ascii) : bool :=
  is_digit c || is_alpha c || (c =? "_")%char.

Definition is_space (c : ascii) : bool :=
  detail.isspace (detail.char_to_int c).

Definition is_sign (c : ascii) : bool := (c =? "+")%char || (c =? "-")%char.

Definition tolower (c : ascii) : ascii :=
  if (65 <=? code c) && (code c <=? 90) then ascii_of_nat (code c + 32) else c.

(** Length of the longest prefix whose characters all satisfy [p]. *)
Fixpoint span (p : ascii -> bool) (l : list ascii) : nat :=
  match l with
  | c :: l' => if p c then S (span p l') else 0
  | [] => 0
  end.

(** Whether [l] starts with the lower-case word [w], ignoring case. *)
Fixpoint starts_with (w : list ascii) (l : list ascii) : bool :=
  match w, l with
  | [], _ => true
  | a :: w', c :: l' => (tolower c =? a)%char && starts_with w' l'
  | _ :: _, [] => false
  end.

(** Digits optionally containing a point, at least one digit. *)
Definition scan_mantissa (digit : ascii -> bool) (l : list ascii) : option nat :=
  let i := span digit l in
  match skipn i l with
  | c :: l' =>
    if (c =? ".")%char then
      let f := span digit l' in
      if i + f =? 0 then None else Some (i + 1 + f)
    else if i =? 0 then None else Some i
  | [] => if i =? 0 then None else Some i
  end.

(** An exponent part, consumed only when it is complete. *)
Definition scan_exponent (mark : ascii) (l : list ascii) : nat :=
  match l with
  | c :: l' =>
    if (tolower c =? mark)%char then
      let s := match l' with
               | d :: _ => if is_sign d then 1 else 0
               | [] => 0
               end in
      let k := span is_digit (skipn s l') in
      if k =? 0 then 0 else 1 + s + k
    else 0
  | [] => 0
  end.

Definition scan_decimal (l : list ascii) : option nat :=
  match scan_mantissa is_digit l with
  | Some m => Some (m + scan_exponent "e"%char (skipn m l))
  | None => None
  end.

Definition scan_hex (l : list ascii) : option nat :=
  match l with
  | z :: x :: l' =>
    if (z =? "0")%char && (tolower x =? "x")%char then
      match scan_mantissa is_xdigit l' with
      | Some m => Some (2 + m + scan_exponent "p"%char (skipn m l'))
      | None => None
      end
    else None
  | _ => None
  end.

Definition scan_nan (l : list ascii) : option nat :=
  if starts_with (list_ascii_of_string "nan") l then
    match skipn 3 l with
    | c :: l' =>
      if (c =? "(")%char then
        let k := span is_nchar l' in
        match skipn k l' with
        | d :: _ => if (d =? ")")%char then Some (3 + 1 + k + 1) else Some 3
        | [] => Some 3
        end
      else Some 3
    | [] => Some 3
    end
  else None.

Definition scan_inf (l : list ascii) : option nat :=
  if starts_with (list_ascii_of_string "infinity") l then Some 8
  else if starts_with (list_ascii_of_string "inf") l then Some 3
  else None.

(** The subject sequence after white space and sign. *)
Definition scan_number (l : list ascii) : option nat :=
  match scan_hex l with
  | Some n => Some n
  | None =>
    match scan_decimal l with
    | Some n => Some n
    | None =>
      match scan_inf l with
      | Some n => Some n
      | None => scan_nan l
      end
    end
  end.

(** How many characters [strtod] consumes: leading white space, an
    optional sign and the subject sequence; [None] when no conversion
    can be performed. *)
Definition scan (s : string) : option nat :=
  let l := list_ascii_of_string s in
  let w := span is_space l in
  let sg := match skipn w l with
            | c :: _ => if is_sign c then 1 else 0
            | [] => 0
            end in
  match scan_number (skipn (w + sg) l) with
  | Some n => Some (w + sg + n)
  | None => None
  end.

End std_stod.

(** ** Node: type tests and conversions *)

(** [Node()]. *)
Definition Node_default : Node := NodeNone.

(** [Node(bool)]. *)
Definition Node_of_bool (val : bool) : Node :=
  NodeScalar (if val then "true" else "false").

Definition type (n : Node) : Type_ :=
  match n with
  | NodeNone => NONE
  | NodeScalar _ => SCALAR
  | NodeList _ => LIST
  | NodeDict _ => DICT
  end.

Definition Type_eqb (a b : Type_) : bool :=
  match a, b with
  | NONE, NONE | SCALAR, SCALAR | LIST, LIST | DICT, DICT => true
  | _, _ => false
  end.

(** The type tests take [this] as a pointer: each starts with
    [if (!this) return ...]. *)
Definition GetType (this : option Node) : Type_ :=
  match this with
  | None => NONE
  | Some n => type n
  end.

Definition IsNone (this : option Node) : bool :=
  match this with
  | None => true
  | Some n => Type_eqb (type n) NONE
  end.

Definition IsScalar (this : option Node) : bool :=
  match this with
  | None => false
  | Some n => Type_eqb (type n) SCALAR
  end.

Definition IsList (this : option Node) : bool :=
  match this with
  | None => false
  | Some n => Type_eqb (type n) LIST
  end.

Definition IsDict (this : option Node) : bool :=
  match this with
  | None => false
  | Some n => Type_eqb (type n) DICT
  end.

Definition invalid_cast {A : Type} : outcome A :=
  Throw (AltError (Error_msg "Invalid cast")).

(** [ValueScalar::ToBool()]. *)
Definition ValueScalar_ToBool (val : string) : outcome bool :=
  if (val =? "true")%string || (val =? "yes")%string then Ret true
  else if (val =? "false")%string || (val =? "no")%string then Ret false
  else Throw (AltError (Error_msg "Not a bool")).

(** [ValueScalar::ToString()]. *)
Definition ValueScalar_ToString (val : string) : outcome string := Ret val.

(** [Node::ToBool()]: [val] is never null, so the call is the virtual
    [val->ToBool()], which only [ValueScalar] overrides. *)
Definition ToBool (this : Node) : outcome bool :=
  match this with
  | NodeScalar val => ValueScalar_ToBool val
  | _ => invalid_cast
  end.

(** [Node::ToBool(bool def)]: [ValueScalar::ToBool(bool)] forwards to the
    strict conversion, [Value::ToBool(bool)] returns [def]. *)
Definition ToBool_def (this : option Node) (def : bool) : outcome bool :=
  match this with
  | None => Ret def
  | Some (NodeScalar val) => ValueScalar_ToBool val
  | Some _ => Ret def
  end.

Definition ToString (this : Node) : outcome string :=
  match this with
  | NodeScalar val => ValueScalar_ToString val
  | _ => invalid_cast
  end.

Definition ToString_def (this : option Node) (def : string) : outcome string :=
  match this with
  | None => Ret def
  | Some (NodeScalar val) => ValueScalar_ToString val
  | Some _ => Ret def
  end.

(** [Node::ToList()] and [Node::ToDict()] hand out the container. *)
Definition ToList (this : Node) : outcome List :=
  match this with
  | NodeList val => Ret val
  | _ => invalid_cast
  end.

Definition ToDict (this : Node) : outcome Dict :=
  match this with
  | NodeDict val => Ret val
  | _ => invalid_cast
  end.

Section Conversions.

(** The platform's [double] and the value [strtod] gives a consumed
    prefix; [None] stands for a result out of range ([ERANGE]), which
    [std::stod] reports as [std::out_of_range]. *)
Variable double : Type.
Variable strtod_value : string -> option double.

Inductive stod_result : Type :=
| stod_ok (result : double) (idx : nat)
| stod_invalid_argument
| stod_out_of_range.

Definition stod (val : string) : stod_result :=
  match std_stod.scan val with
  | None => stod_invalid_argument
  | Some idx =>
    match strtod_value (substring 0 idx val) with
    | Some result => stod_ok result idx
    | None => stod_out_of_range
    end
  end.

(** [ValueScalar::ToNumber()]: text left over after the number counts as
    [std::invalid_argument] too, and only that exception is caught and
    rethrown as [Error]. *)
Definition ValueScalar_ToNumber (val : string) : outcome double :=
  match stod val with
  | stod_ok result idx =>
    if idx <? String.length val
    then Throw (AltError (Error_msg "Not a number"))
    else Ret result
  | stod_invalid_argument => Throw (AltError (Error_msg "Not a number"))
  | stod_out_of_range => Throw std_out_of_range
  end.

Definition ToNumber (this : Node) : outcome double :=
  match this with
  | NodeScalar val => ValueScalar_ToNumber val
  | _ => invalid_cast
  end.

(** [Node::ToNumber(double def)]: [if (!this) return def;] and then the
    virtual [val->ToNumber(def)], which is
    [ValueScalar::ToNumber(double def) { return ToNumber(); }] on a scalar
    and [Value::ToNumber(double def) { return def; }] otherwise. *)
Definition ToNumber_def (this : option Node) (def : double) : outcome double :=
  match this with
  | None => Ret def
  | Some (NodeScalar val) => ValueScalar_ToNumber val
  | Some _ => Ret def
  end.

(** A scalar is numeric when [ValueScalar::ToNumber] accepts it: [stod]
    converts it and consumes all of it. *)
Definition numeric (val : string) : bool :=
  match stod val with
  | stod_ok _ idx => negb (idx <? String.length val)
  | _ => false
  end.

End Conversions.

Arguments stod_ok {double} result idx.
Arguments stod_invalid_argument {double}.
Arguments stod_out_of_range {double}.

(** ** Node: indexing

    [operator[]] returns a [Node&].  What the reference denotes is kept as
    a [NodeRef]: the function-local [static Node none] of
    [ValueList::Get], shared by every list, or the node a slot of the
    indexed container points to.  The container's state after the call is
    returned next to the reference. *)

Inductive NodeRef : Type :=
| ref_static_none
| ref_element (idx : nat)
| ref_entry (key : string).

(** [static Node none;], default-constructed: the value the sentinel
    starts with.  The header itself never assigns through it, but it hands
    it out as a [Node&]; [deref_in] and [assign_at] below carry the value
    it holds at the moment. *)
Definition static_none : Node := Node_default.

(** The node a reference obtained from [this] denotes, [None] when the
    slot holds [nullptr], in a program that has assigned nothing through
    the sentinel; [deref_in] below takes the value of the sentinel as it
    is. *)
Definition deref (this : Node) (r : NodeRef) : option Node :=
  match r with
  | ref_static_none => Some static_none
  | ref_element idx =>
    match this with
    | NodeList val => nth idx val None
    | _ => None
    end
  | ref_entry key =>
    match this with
    | NodeDict val =>
      match std_map.find key val with
      | Some p => p
      | None => None
      end
    | _ => None
    end
  end.

(** [ValueList::Get(std::size_t idx)]. *)
Definition ValueList_Get (val : List) (idx : nat) : List * NodeRef :=
  if length val <=? idx then (val, ref_static_none)
  else
    match nth idx val None with
    | None => (val, ref_static_none)
    | Some _ => (val, ref_element idx)
    end.

(** [ValueDict::Get(const std::string& key)]. *)
Definition ValueDict_Get (val : Dict) (key : string) : Dict * NodeRef :=
  match std_map.find key val with
  | None =>
    let newNode := Node_default in
    (std_map.set key (Some newNode) val, ref_entry key)
  | Some _ => (val, ref_entry key)
  end.

(** [Node::operator[](std::size_t)]: [Value::Get] throws unless the value
    is a [ValueList]. *)
Definition Node_at (this : Node) (idx : nat) : outcome (Node * NodeRef) :=
  match this with
  | NodeList val =>
    let '(val', r) := ValueList_Get val idx in Ret (NodeList val', r)
  | _ => Throw (AltError (Error_msg "Not a list"))
  end.

(** [Node::operator[](const std::string&)]. *)
Definition Node_at_key (this : Node) (key : string) : outcome (Node * NodeRef) :=
  match this with
  | NodeDict val =>
    let '(val', r) := ValueDict_Get val key in Ret (NodeDict val', r)
  | _ => Throw (AltError (Error_msg "Not a dict"))
  end.

(** [ToList().size()] and [ToDict().size()]. *)
Definition Node_size (this : Node) : outcome nat :=
  match this with
  | NodeList val => Ret (length val)
  | NodeDict val => Ret (std_map.size val)
  | _ => invalid_cast
  end.

(** ** Node: copying *)

Section Copy_loops.
(** The copy constructor behind [new Node] of the pointee. *)
Variable copy : Node -> Node.

(** [for (auto& curr : val)] in [ValueList::Copy]. *)
Fixpoint ValueList_Copy_loop (l : List) (newVal : List) : List :=
  match l with
  | [] => newVal
  | curr :: l' =>
    if IsNone curr then ValueList_Copy_loop l' newVal
    else
      match curr with
      | Some c => ValueList_Copy_loop l' (newVal ++ [Some (copy c)])
      | None => ValueList_Copy_loop l' newVal
      end
  end.

(** [for (auto& curr : val)] in [ValueDict::Copy]. *)
Fixpoint ValueDict_Copy_loop (l : Dict) (newVal : Dict) : Dict :=
  match l with
  | [] => newVal
  | (first, second) :: l' =>
    if IsNone second then ValueDict_Copy_loop l' newVal
    else
      match second with
      | Some c =>
        ValueDict_Copy_loop l' (std_map.set first (Some (copy c)) newVal)
      | None => ValueDict_Copy_loop l' newVal
      end
  end.
End Copy_loops.

(** [val->Copy()] for each class of value; a child is copied by
    [new Node] of the pointee, the copy constructor, which copies the tag
    and calls [Copy] again. *)
Fixpoint Copy (this : Node) : Node :=
  match this with
  | NodeNone => NodeNone
  | NodeScalar val => NodeScalar val
  | NodeList val => NodeList (ValueList_Copy_loop Copy val [])
  | NodeDict val => NodeDict (ValueDict_Copy_loop Copy val [])
  end.

(** [Node(const Node& that)] and [Node(Node& _node)]. *)
Definition Node_copy (that : Node) : Node := Copy that.

(** [Node& operator=(const Node& that)]: the old value is deleted and
    replaced by a copy of [that]. *)
Definition Node_assign (this that : Node) : Node := Copy that.

(** ** Node: the sentinel of [ValueList::Get]

    [static Node none;] is one object for the whole program, and
    [operator[]] returns it as a [Node&], so that an [operator=] through
    that reference writes to it.  The value the sentinel holds is therefore
    part of the state of the program, next to the containers; it starts as
    [static_none]. *)

(** The node a reference obtained from [this] denotes while the sentinel
    holds [none]. *)
Definition deref_in (none : Node) (this : Node) (r : NodeRef) : option Node :=
  match r with
  | ref_static_none => Some none
  | _ => deref this r
  end.


(** The children [Copy] keeps. *)
Definition kept (p : option Node) : bool := negb (IsNone p).

Definition copy_child (p : option Node) : option Node :=
  match p with
  | Some c => Some (Copy c)
  | None => None
  end.

Definition kept_entry (e : string * option Node) : bool := kept (snd e).

Definition copy_entry (e : string * option Node) : string * option Node :=
  (fst e, copy_child (snd e)).

(** ** class Emitter *)

(** A [std::ostream] is the text written to it so far. *)
Definition ostream : Type := string.

Definition write (os : ostream) (s : string) : ostream := (os ++ s)%string.

Definition nl : string := String LF EmptyString.

(** [std::string(count, c)] with [count] computed as an [int]: a negative
    count converts to a [size_t] beyond [max_size()] and the constructor
    throws [std::length_error]. *)
Definition std_string_fill (count : Z) (c : ascii) : outcome string :=
  if (count <? 0)%Z then Throw std_length_error
  else Ret (string_of_list_ascii (repeat c (Z.to_nat count))).

Definition is_end {A : Type} (it : list A) : bool :=
  match it with
  | [] => true
  | _ :: _ => false
  end.

Module Emitter.

(** The result of a call: the stream, and the exception if one left the
    call. *)
Definition emitted : Type := ostream * option exn.

(** [Emit] on a reference bound to [*nullptr]: every type test answers
    false, so only [_indent] is constructed. *)
Definition Emit_absent (os : ostream) (indent : Z) : emitted :=
  match std_string_fill (indent * 2) SPACE with
  | Throw e => (os, Some e)
  | Ret _ => (os, None)
  end.

Section Loops.
(** The recursive call, and the locals of the enclosing call. *)
Variable Emit : Node -> ostream -> Z -> bool -> emitted.
Variable _indent : string.
Variable indent : Z.

(** [for (auto it = list.begin(); it != list.end(); ++it)]. *)
Fixpoint list_loop (it : List) (os : ostream) : emitted :=
  match it with
  | [] => (os, None)
  | p :: it' =>
    let os := write os _indent in
    let r := match p with
             | Some c => Emit c os (indent + 1)%Z (is_end it')
             | None => Emit_absent os (indent + 1)%Z
             end in
    match r with
    | (os, None) => list_loop it' os
    | (os, Some e) => (os, Some e)
    end
  end.

(** [for (auto it = dict.begin(); it != dict.end(); ++it)]. *)
Fixpoint dict_loop (it : Dict) (os : ostream) : emitted :=
  match it with
  | [] => (os, None)
  | (first, second) :: it' =>
    match second with
    | None => dict_loop it' os
    | Some c =>
      if IsNone (Some c) then dict_loop it' os
      else
        let os := write (write (write os _indent) first) ": " in
        match Emit c os (indent + 1)%Z (is_end it') with
        | (os, None) => dict_loop it' os
        | (os, Some e) => (os, Some e)
        end
    end
  end.
End Loops.

(** [Emitter::Emit] on a node that exists. *)
Fixpoint Emit_node (node : Node) (os : ostream) (indent : Z) (isLast : bool)
  : emitted :=
  match std_string_fill (indent * 2) SPACE with
  | Throw e => (os, Some e)
  | Ret _indent =>
    match node with
    | NodeScalar val =>
      (write (write (write os (String QUOTE EmptyString)) (detail.Escape val))
             (String QUOTE nl), None)
    | NodeList list =>
      let os := write os (String "[" nl) in
      match list_loop Emit_node _indent indent list os with
      | (os, Some e) => (os, Some e)
      | (os, None) =>
        match std_string_fill ((indent - 1) * 2) SPACE with
        | Throw e => (os, Some e)
        | Ret pad =>
          (write (write os pad)
                 (if isLast then String "]" nl else ("]," ++ nl)%string), None)
        end
      end
    | NodeDict dict =>
      let os := if (indent >? 0)%Z then write os (String "{" nl) else os in
      match dict_loop Emit_node _indent indent dict os with
      | (os, Some e) => (os, Some e)
      | (os, None) =>
        if (indent >? 0)%Z then
          match std_string_fill ((indent - 1) * 2) SPACE with
          | Throw e => (os, Some e)
          | Ret pad =>
            (write (write os pad)
                   (if isLast then String "}" nl else ("}," ++ nl)%string), None)
          end
        else (os, None)
      end
    | NodeNone => (os, None)
    end
  end.

(** [Emitter::Emit(node, os, indent, isLast)]. *)
Definition Emit (node : option Node) (os : ostream) (indent : Z) (isLast : bool)
  : emitted :=
  match node with
  | Some n => Emit_node n os indent isLast
  | None => Emit_absent os indent
  end.

(** On a node below the root [Emit] returns normally and only appends. *)
Definition appends (n : Node) : Prop :=
  forall indent isLast, (1 <= indent)%Z ->
    exists txt, forall os, Emit_node n os indent isLast = ((os ++ txt)%string, None).

(** What [Emit] adds to an empty stream. *)
Definition text_of (node : Node) (indent : Z) (isLast : bool) : string :=
  fst (Emit_node node EmptyString indent isLast).

(** The text each dict entry contributes, in iteration order. *)
Fixpoint blocks (_indent : string) (indent : Z) (it : Dict) : list string :=
  match it with
  | [] => []
  | (first, second) :: it' =>
    match second with
    | Some c =>
      if IsNone (Some c) then EmptyString
      else (_indent ++ first ++ ": " ++ text_of c (indent + 1) (is_end it'))%string
    | None => EmptyString
    end :: blocks _indent indent it'
  end.

(** The text each list element contributes, in order. *)
Fixpoint list_blocks (_indent : string) (indent : Z) (it : List) : list string :=
  match it with
  | [] => []
  | p :: it' =>
    (_indent ++ match p with
                | Some c => text_of c (indent + 1) (is_end it')
                | None => EmptyString
                end)%string :: list_blocks _indent indent it'
  end.

(** The concatenation of a list of texts. *)
Definition join (l : list string) : string :=
  fold_right String.append EmptyString l.

Definition indentation (indent : Z) : string :=
  string_of_list_ascii (repeat SPACE (Z.to_nat (indent * 2))).

(** How a list is closed. *)
Definition list_close (indent : Z) (isLast : bool) : string :=
  (indentation (indent - 1)
   ++ (if isLast then String "]" nl else "]," ++ nl))%string.

Definition dict_open (indent : Z) : string :=
  if (indent >? 0)%Z then String "{" nl else EmptyString.

Definition dict_close (indent : Z) (isLast : bool) : string :=
  if (indent >? 0)%Z then
    (indentation (indent - 1)
     ++ (if isLast then String "}" nl else "}," ++ nl))%string
  else EmptyString.

End Emitter.

(** ** class Parser: the tokenizer *)

Module Token.

Inductive Type_ : Type :=
| ARRAY_START | ARRAY_END | DICT_START | DICT_END | KEY | SCALAR.

Record t : Type := mk {
  type : Type_;
  value : string;
  pos : nat;
  line : nat;
  col : nat
}.

Definition Type_eqb (a b : Type_) : bool :=
  match a, b with
  | ARRAY_START, ARRAY_START | ARRAY_END, ARRAY_END
  | DICT_START, DICT_START | DICT_END, DICT_END
  | KEY, KEY | SCALAR, SCALAR => true
  | _, _ => false
  end.

End Token.

Module Parser.

(** The data members of [Parser]. *)
Record t : Type := mk {
  buffer : list ascii;
  readPos : nat;
  line : nat;
  column : nat;
  tokens : list Token.t
}.

(** [Parser(const std::vector<char>&)] and the other constructors. *)
Definition make (_buffer : list ascii) : t := mk _buffer 0 1 0 [].

Definition of_string (s : string) : t := make (list_ascii_of_string s).

(** [buffer.size() - readPos].  As long as no character past the buffer
    is skipped [readPos] does not pass the size and the unsigned
    difference does not wrap; [Checked] stops before that happens. *)
Definition Unread (p : t) : nat := length (buffer p) - readPos p.

(** [*(buffer.data() + readPos + offset)].  Most calls stand behind an
    [Unread() > 0] test.  In two places the header calls [Peek()] without
    one and may read the element past the buffer, which C++ leaves
    undefined; here such a read yields [NUL], and module [Checked] below
    gives the same functions with that read marked as undefined. *)
Definition Peek (p : t) (offset : nat) : ascii :=
  nth (readPos p + offset) (buffer p) NUL.

(** The part of the buffer not read yet. *)
Definition unread_text (p : t) : list ascii := skipn (readPos p) (buffer p).

(** The cursor moved [n] characters along one line. *)
Definition moved (n : nat) (p : t) : t :=
  mk (buffer p) (readPos p + n) (line p) (column p + n) (tokens p).

(** The same state read from a position further on. *)
Definition at_offset (n : nat) (p : t) : t :=
  mk (buffer p) (readPos p + n) (line p) (column p) (tokens p).

(** The bookkeeping [Get] and [Skip] do for one character. *)
Definition advance (c : ascii) (p : t) : t :=
  if (c =? LF)%char
  then mk (buffer p) (readPos p) (S (line p)) 0 (tokens p)
  else mk (buffer p) (readPos p) (line p) (S (column p)) (tokens p).

Definition Get (p : t) : ascii * t :=
  let c := Peek p 0 in
  let p := advance c p in
  (c, mk (buffer p) (S (readPos p)) (line p) (column p) (tokens p)).

(** The [for] loop of [Skip(n)], counting [i] up to [n]. *)
Fixpoint Skip_loop (n : nat) (i : nat) (p : t) : t :=
  match n with
  | 0 => p
  | S n' => Skip_loop n' (S i) (advance (Peek p i) p)
  end.

Definition Skip (n : nat) (p : t) : t :=
  let p := Skip_loop n 0 p in
  mk (buffer p) (readPos p + n) (line p) (column p) (tokens p).

Definition push_token (ty : Token.Type_) (val : string) (p : t) : t :=
  mk (buffer p) (readPos p) (line p) (column p)
     (tokens p ++ [Token.mk ty val (readPos p) (line p) (column p)]).

(** [while (Unread() > 0 && cond(Peek())) Skip();].  Each turn consumes
    one character, so [Unread()] turns are all the loop can take; the
    loops below are counted the same way, and
    [Parser_facts.SkipToNextToken_loop_turns] and
    [Parser_facts.Tokenize_loop_turns] show that a larger count changes
    nothing. *)
Fixpoint skip_while (cond : ascii -> bool) (turns : nat) (p : t) : t :=
  match turns with
  | 0 => p
  | S turns' =>
    if (0 <? Unread p) && cond (Peek p 0)
    then skip_while cond turns' (Skip 1 p)
    else p
  end.

Definition is_blank (c : ascii) : bool :=
  (c =? SPACE)%char || (c =? LF)%char || (c =? CR)%char
  || (c =? TAB)%char || (c =? COMMA)%char.

(** The two inner conditions of the comment branch. *)
Definition in_comment (c : ascii) : bool :=
  negb (c =? LF)%char && negb (c =? HASH)%char && negb (c =? DQUOTE)%char.

Definition in_comment_quote (c : ascii) : bool :=
  negb (c =? LF)%char && negb (c =? DQUOTE)%char.

(** The body of the [else if (Peek() == '#')] branch. *)
Definition skip_comment (p : t) : t :=
  let p := Skip 1 p in
  let p := skip_while in_comment (Unread p) p in
  let p := if (Peek p 0 =? DQUOTE)%char
           then let p := Skip 1 p in
                skip_while in_comment_quote (Unread p) p
           else p in
  if 0 <? Unread p then Skip 1 p else p.

Fixpoint SkipToNextToken_loop (turns : nat) (p : t) : t :=
  match turns with
  | 0 => p
  | S turns' =>
    if 0 <? Unread p then
      if is_blank (Peek p 0) then SkipToNextToken_loop turns' (Skip 1 p)
      else if (Peek p 0 =? HASH)%char
           then SkipToNextToken_loop turns' (skip_comment p)
           else p
    else p
  end.

Definition SkipToNextToken (p : t) : t :=
  SkipToNextToken_loop (Unread p) p.

(** The loop over the inside of a quoted scalar; [val] is the text read
    so far. *)
Fixpoint quoted_loop (start : ascii) (turns : nat) (val : string) (p : t)
  : string * t :=
  match turns with
  | 0 => (val, p)
  | S turns' =>
    if (1 <? Unread p)
       && ((Peek p 0 =? BACKSLASH)%char || negb (Peek p 1 =? start)%char)
    then
      if (Peek p 0 =? LF)%char || (Peek p 0 =? CR)%char then
        let '(c, p) := Get p in
        let p := if (c =? CR)%char && (Peek p 0 =? LF)%char
                 then Skip 1 p else p in
        quoted_loop start turns' (push_back val LF) p
      else
        let '(c, p) := Get p in
        quoted_loop start turns' (push_back val c) p
    else (val, p)
  end.

Definition ends_unquoted (c : ascii) : bool :=
  (c =? LF)%char || (c =? COLON)%char || (c =? COMMA)%char
  || (c =? "]")%char || (c =? "}")%char || (c =? HASH)%char.

(** The loop over an unquoted scalar. *)
Fixpoint unquoted_loop (turns : nat) (val : string) (p : t) : string * t :=
  match turns with
  | 0 => (val, p)
  | S turns' =>
    if (0 <? Unread p) && negb (ends_unquoted (Peek p 0))
    then let '(c, p) := Get p in unquoted_loop turns' (push_back val c) p
    else (val, p)
  end.

(** The branch for a scalar that opens with a quote of either kind. *)
Definition scan_quoted (p : t) : outcome (string * t) :=
  let '(start, p) := Get p in
  r <- (if negb (Peek p 0 =? start)%char then
          let '(val, p) := quoted_loop start (Unread p) EmptyString p in
          let '(val, p) :=
            if 0 <? Unread p
            then let '(c, p) := Get p in (push_back val c, p)
            else (val, p) in
          if Unread p =? 0
          then Throw (AltError (mkError "Unexpected end of file"
                                  (readPos p) (line p) (column p)))
          else Ret (val, p)
        else Ret (EmptyString, p)) ;;
  Ret (fst r, Skip 1 (snd r)).

(** After the scan: the text is unescaped, stored as a key or a scalar,
    and a separator that follows is consumed. *)
Definition store_scalar (val : string) (p : t) : t :=
  let val := detail.Unescape val in
  let p := if (0 <? Unread p) && (Peek p 0 =? COLON)%char
           then push_token Token.KEY val p
           else push_token Token.SCALAR val p in
  if (0 <? Unread p)
     && ((Peek p 0 =? COLON)%char || (Peek p 0 =? COMMA)%char)
  then Skip 1 p else p.

(** The last branch of the loop of [Tokenize]: a key or a scalar. *)
Definition scan_scalar (p : t) : outcome t :=
  r <- (if (Peek p 0 =? QUOTE)%char || (Peek p 0 =? DQUOTE)%char
        then scan_quoted p
        else Ret (unquoted_loop (Unread p) EmptyString p)) ;;
  Ret (store_scalar (fst r) (snd r)).

(** The [while (Unread() > 0)] loop of [Tokenize]. *)
Fixpoint Tokenize_loop (turns : nat) (p : t) : outcome t :=
  match turns with
  | 0 => Ret p
  | S turns' =>
    if 0 <? Unread p then
      let p := SkipToNextToken p in
      if Unread p =? 0 then Ret p
      else if (Peek p 0 =? "[")%char then
        Tokenize_loop turns' (push_token Token.ARRAY_START EmptyString (Skip 1 p))
      else if (Peek p 0 =? "]")%char then
        Tokenize_loop turns' (push_token Token.ARRAY_END EmptyString (Skip 1 p))
      else if (Peek p 0 =? "{")%char then
        Tokenize_loop turns' (push_token Token.DICT_START EmptyString (Skip 1 p))
      else if (Peek p 0 =? "}")%char then
        Tokenize_loop turns' (push_token Token.DICT_END EmptyString (Skip 1 p))
      else
        p <- scan_scalar p ;; Tokenize_loop turns' p
    else Ret p
  end.

Definition Tokenize (p : t) : outcome t :=
  let p := mk (buffer p) (readPos p) (line p) (column p)
              (tokens p ++ [Token.mk Token.DICT_START EmptyString 0 0 0]) in
  p <- Tokenize_loop (Unread p) p ;;
  Ret (push_token Token.DICT_END EmptyString p).

(** [FixEncoding]: a leading UTF-8 byte order mark is erased. *)
Definition FixEncoding (p : t) : t :=
  match buffer p with
  | b0 :: b1 :: b2 :: rest =>
    if (b0 =? "239")%char && (b1 =? "187")%char && (b2 =? "191")%char
    then mk rest (readPos p) (line p) (column p) (tokens p)
    else p
  | _ => p
  end.

(** ** class Parser: recursive descent

    [Parse(std::deque<Token>::iterator& tok)].  The iterator is the list
    of tokens from its position on, so [tok == tokens.end()] is the
    empty list.  A call either returns, throws, or dereferences the end
    iterator, which C++ leaves undefined.  The [++tok] after a loop that
    stopped at the end increments the end iterator, which is undefined as
    well; here it leaves the iterator at the end, and module [Checked]
    below gives the same functions with that increment marked as
    undefined.  The recursion is bounded by a counter that every call
    decrements; [Parse_facts.Parse_enough] shows that the counter [Parse]
    starts with is never exhausted. *)

Inductive parsed (A : Type) : Type :=
| Done (a : A)
| Raised (e : exn)
| Undefined
| Exhausted.
Arguments Done {A} a.
Arguments Raised {A} e.
Arguments Undefined {A}.
Arguments Exhausted {A}.

Definition iterator : Type := list Token.t.

Fixpoint Parse_at (depth : nat) (tok : iterator) : parsed (Node * iterator) :=
  match depth with
  | 0 => Exhausted
  | S depth =>
    match tok with
    | [] => Undefined
    | t :: next =>
      match Token.type t with
      | Token.SCALAR => Done (NodeScalar (Token.value t), next)
      | Token.ARRAY_START =>
        match array_loop depth next [] with
        | Done (list, tok) => Done (NodeList list, tl tok)
        | Raised e => Raised e
        | Undefined => Undefined
        | Exhausted => Exhausted
        end
      | Token.DICT_START =>
        match dict_loop depth next [] with
        | Done (dict, tok) => Done (NodeDict dict, tl tok)
        | Raised e => Raised e
        | Undefined => Undefined
        | Exhausted => Exhausted
        end
      | _ =>
        Raised (AltError (mkError "Unexpected character"
                            (Token.pos t) (Token.line t) (Token.col t)))
      end
    end
  end

(** [while (tok != tokens.end() && tok->type != Token::ARRAY_END)
    list.push_back(new Node(Parse(tok)));] *)
with array_loop (depth : nat) (tok : iterator) (list : List)
  : parsed (List * iterator) :=
  match depth with
  | 0 => Exhausted
  | S depth =>
    match tok with
    | [] => Done (list, tok)
    | t :: _ =>
      if Token.Type_eqb (Token.type t) Token.ARRAY_END then Done (list, tok)
      else
        match Parse_at depth tok with
        | Done (node, tok) => array_loop depth tok (list ++ [Some node])
        | Raised e => Raised e
        | Undefined => Undefined
        | Exhausted => Exhausted
        end
    end
  end

(** The loop of the [DICT_START] case, ending in
    [dict.insert({ key, new Node(Parse(++tok)) })]. *)
with dict_loop (depth : nat) (tok : iterator) (dict : Dict)
  : parsed (Dict * iterator) :=
  match depth with
  | 0 => Exhausted
  | S depth =>
    match tok with
    | [] => Done (dict, tok)
    | t :: next =>
      if Token.Type_eqb (Token.type t) Token.DICT_END then Done (dict, tok)
      else if negb (Token.Type_eqb (Token.type t) Token.KEY) then
        Raised (AltError (mkError "key expected"
                            (Token.pos t) (Token.line t) (Token.col t)))
      else
        let key := Token.value t in
        match Parse_at depth next with
        | Done (node, tok) =>
          dict_loop depth tok (std_map.insert key (Some node) dict)
        | Raised e => Raised e
        | Undefined => Undefined
        | Exhausted => Exhausted
        end
    end
  end.

(** What the text left unread looks like once [store_scalar] has taken a
    separator. *)
Definition after_separator (l : list ascii) : list ascii :=
  match l with
  | c :: rest => if (c =? COLON)%char || (c =? COMMA)%char then rest else l
  | [] => []
  end.

(** The kind of token a scalar becomes before the text [l]. *)
Definition kind_before (l : list ascii) : Token.Type_ :=
  match l with
  | c :: _ => if (c =? COLON)%char then Token.KEY else Token.SCALAR
  | [] => Token.SCALAR
  end.

(** Two states of one parser between which no token was stored: the same
    buffer, the same tokens. *)
Definition same_tokens (p q : t) : Prop :=
  buffer q = buffer p /\ tokens q = tokens p.

(** The message of the only error the tokenizer raises. *)
Definition is_end_of_file (e : exn) : Prop :=
  exists pos line col,
    e = AltError (mkError "Unexpected end of file" pos line col).

(** The two errors the recursive descent raises. *)
Definition is_parse_error (e : exn) : Prop :=
  exists msg pos line col,
    e = AltError (mkError msg pos line col)
    /\ (msg = "key expected" \/ msg = "Unexpected character").

(** A bound on the nesting of calls over [n] tokens. *)
Definition enough (n : nat) : nat := S (2 * n).

(** [Node Parse()]. *)
Definition Parse (p : t) : parsed Node :=
  let p := FixEncoding p in
  match Tokenize p with
  | Throw e => Raised e
  | Ret p =>
    let begin := tokens p in
    match Parse_at (enough (length begin)) begin with
    | Done (node, _) => Done node
    | Raised e => Raised e
    | Undefined => Undefined
    | Exhausted => Exhausted
    end
  end.

End Parser.

(** ** class Parser: the places the header leaves undefined

    The same functions as in [Parser], with the three places where the
    header steps outside its data made explicit.  [Peek()] is called
    without an [Unread() > 0] test after the first loop of the comment
    branch of [SkipToNextToken] and after the opening quote of a quoted
    scalar in [Tokenize]: when nothing is left to read it dereferences
    [buffer.data() + buffer.size()].  [++tok] after the loops of [Parse]
    increments [tokens.end()] when the loop stopped there.  Each of them
    is [Undefined] here; everything else is as in [Parser], whose loops
    and helpers are used where nothing changes.  The loops are counted
    as in [Parser]; [Defined_facts.checked_Tokenize_loop_turns] shows
    that the counters do not decide the results, and
    [Checked_facts.Parse_agrees] that a result other than [Undefined] is
    the result of [Parser]. *)

Module Checked.
Import Parser.

Definition bind {A B : Type} (m : parsed A) (k : A -> parsed B) : parsed B :=
  match m with
  | Done a => k a
  | Raised e => Raised e
  | Undefined => Undefined
  | Exhausted => Exhausted
  end.

(** A result of [Parser] seen as a result here. *)
Definition lift {A : Type} (m : outcome A) : parsed A :=
  match m with
  | Ret a => Done a
  | Throw e => Raised e
  end.

(** [Peek()] where no test of [Unread()] stands before it. *)
Definition Peek_unguarded (p : t) : parsed ascii :=
  match nth_error (buffer p) (readPos p) with
  | Some c => Done c
  | None => Undefined
  end.

(** The body of the [else if (Peek() == '#')] branch. *)
Definition skip_comment (p : t) : parsed t :=
  let p := Skip 1 p in
  let p := skip_while in_comment (Unread p) p in
  bind (Peek_unguarded p) (fun c =>
  let p := if (c =? DQUOTE)%char
           then let p := Skip 1 p in
                skip_while in_comment_quote (Unread p) p
           else p in
  Done (if 0 <? Unread p then Skip 1 p else p)).

Fixpoint SkipToNextToken_loop (turns : nat) (p : t) : parsed t :=
  match turns with
  | 0 => Done p
  | S turns' =>
    if 0 <? Unread p then
      if is_blank (Peek p 0) then SkipToNextToken_loop turns' (Skip 1 p)
      else if (Peek p 0 =? HASH)%char
           then bind (skip_comment p) (SkipToNextToken_loop turns')
           else Done p
    else Done p
  end.

Definition SkipToNextToken (p : t) : parsed t :=
  SkipToNextToken_loop (Unread p) p.

(** The branch for a scalar that opens with a quote of either kind. *)
Definition scan_quoted (p : t) : parsed (string * t) :=
  let '(start, p) := Get p in
  bind (Peek_unguarded p) (fun c =>
  bind (if negb (c =? start)%char then
          let '(val, p) := quoted_loop start (Unread p) EmptyString p in
          let '(val, p) :=
            if 0 <? Unread p
            then let '(c, p) := Get p in (push_back val c, p)
            else (val, p) in
          if Unread p =? 0
          then Raised (AltError (mkError "Unexpected end of file"
                                   (readPos p) (line p) (column p)))
          else Done (val, p)
        else Done (EmptyString, p)) (fun r =>
  Done (fst r, Skip 1 (snd r)))).

(** The last branch of the loop of [Tokenize]: a key or a scalar. *)
Definition scan_scalar (p : t) : parsed t :=
  bind (if (Peek p 0 =? QUOTE)%char || (Peek p 0 =? DQUOTE)%char
        then scan_quoted p
        else Done (unquoted_loop (Unread p) EmptyString p)) (fun r =>
  Done (store_scalar (fst r) (snd r))).

(** The [while (Unread() > 0)] loop of [Tokenize]. *)
Fixpoint Tokenize_loop (turns : nat) (p : t) : parsed t :=
  match turns with
  | 0 => Done p
  | S turns' =>
    if 0 <? Unread p then
      bind (SkipToNextToken p) (fun p =>
      if Unread p =? 0 then Done p
      else if (Peek p 0 =? "[")%char then
        Tokenize_loop turns' (push_token Token.ARRAY_START EmptyString (Skip 1 p))
      else if (Peek p 0 =? "]")%char then
        Tokenize_loop turns' (push_token Token.ARRAY_END EmptyString (Skip 1 p))
      else if (Peek p 0 =? "{")%char then
        Tokenize_loop turns' (push_token Token.DICT_START EmptyString (Skip 1 p))
      else if (Peek p 0 =? "}")%char then
        Tokenize_loop turns' (push_token Token.DICT_END EmptyString (Skip 1 p))
      else
        bind (scan_scalar p) (Tokenize_loop turns'))
    else Done p
  end.

Definition Tokenize (p : t) : parsed t :=
  let p := mk (buffer p) (readPos p) (line p) (column p)
              (tokens p ++ [Token.mk Token.DICT_START EmptyString 0 0 0]) in
  bind (Tokenize_loop (Unread p) p) (fun p =>
  Done (push_token Token.DICT_END EmptyString p)).

(** [++tok]: defined on every position but [tokens.end()]. *)
Definition increment (tok : iterator) : parsed iterator :=
  match tok with
  | [] => Undefined
  | _ :: next => Done next
  end.

(** [Parse(std::deque<Token>::iterator& tok)]. *)
Fixpoint Parse_at (depth : nat) (tok : iterator) : parsed (Node * iterator) :=
  match depth with
  | 0 => Exhausted
  | S depth =>
    match tok with
    | [] => Undefined
    | t :: next =>
      match Token.type t with
      | Token.SCALAR => Done (NodeScalar (Token.value t), next)
      | Token.ARRAY_START =>
        match array_loop depth next [] with
        | Done (list, tok) =>
          match increment tok with
          | Done tok => Done (NodeList list, tok)
          | Raised e => Raised e
          | Undefined => Undefined
          | Exhausted => Exhausted
          end
        | Raised e => Raised e
        | Undefined => Undefined
        | Exhausted => Exhausted
        end
      | Token.DICT_START =>
        match dict_loop depth next [] with
        | Done (dict, tok) =>
          match increment tok with
          | Done tok => Done (NodeDict dict, tok)
          | Raised e => Raised e
          | Undefined => Undefined
          | Exhausted => Exhausted
          end
        | Raised e => Raised e
        | Undefined => Undefined
        | Exhausted => Exhausted
        end
      | _ =>
        Raised (AltError (mkError "Unexpected character"
                            (Token.pos t) (Token.line t) (Token.col t)))
      end
    end
  end

with array_loop (depth : nat) (tok : iterator) (list : List)
  : parsed (List * iterator) :=
  match depth with
  | 0 => Exhausted
  | S depth =>
    match tok with
    | [] => Done (list, tok)
    | t :: _ =>
      if Token.Type_eqb (Token.type t) Token.ARRAY_END then Done (list, tok)
      else
        match Parse_at depth tok with
        | Done (node, tok) => array_loop depth tok (list ++ [Some node])
        | Raised e => Raised e
        | Undefined => Undefined
        | Exhausted => Exhausted
        end
    end
  end

with dict_loop (depth : nat) (tok : iterator) (dict : Dict)
  : parsed (Dict * iterator) :=
  match depth with
  | 0 => Exhausted
  | S depth =>
    match tok with
    | [] => Done (dict, tok)
    | t :: next =>
      if Token.Type_eqb (Token.type t) Token.DICT_END then Done (dict, tok)
      else if negb (Token.Type_eqb (Token.type t) Token.KEY) then
        Raised (AltError (mkError "key expected"
                            (Token.pos t) (Token.line t) (Token.col t)))
      else
        let key := Token.value t in
        match Parse_at depth next with
        | Done (node, tok) =>
          dict_loop depth tok (std_map.insert key (Some node) dict)
        | Raised e => Raised e
        | Undefined => Undefined
        | Exhausted => Exhausted
        end
    end
  end.

(** [Node Parse()]. *)
Definition Parse (p : t) : parsed Node :=
  let p := FixEncoding p in
  bind (Tokenize p) (fun p =>
  let begin := tokens p in
  bind (Parse_at (enough (length begin)) begin) (fun r =>
  Done (fst r))).

End Checked.

(** ** Shapes of trees *)

Section Tree_predicates.
Variable P : Node -> Prop.

(** [P] of every node a list points to; a null pointer is let through. *)
Fixpoint each_child (l : List) : Prop :=
  match l with
  | [] => True
  | p :: l' => on_pointee P p /\ each_child l'
  end.

Fixpoint each_entry (l : Dict) : Prop :=
  match l with
  | [] => True
  | (_, p) :: l' => on_pointee P p /\ each_entry l'
  end.

(** [P] of every node a list points to, none of the pointers null. *)
Fixpoint each_child_present (l : List) : Prop :=
  match l with
  | [] => True
  | p :: l' =>
    match p with
    | Some c => P c
    | None => False
    end /\ each_child_present l'
  end.

Fixpoint each_entry_present (l : Dict) : Prop :=
  match l with
  | [] => True
  | (_, p) :: l' =>
    match p with
    | Some c => P c
    | None => False
    end /\ each_entry_present l'
  end.
End Tree_predicates.

(** Every mapping of the tree is a [std::map]: keys strictly ascending. *)
Fixpoint well_formed (n : Node) : Prop :=
  match n with
  | NodeNone => True
  | NodeScalar _ => True
  | NodeList val => each_child well_formed val
  | NodeDict val => std_map.ascending val = true /\ each_entry well_formed val
  end.

(** A well-formed tree without a None-typed node or a null pointer
    anywhere. *)
Fixpoint solid (n : Node) : Prop :=
  match n with
  | NodeNone => False
  | NodeScalar _ => True
  | NodeList val => each_child_present solid val
  | NodeDict val =>
    std_map.ascending val = true /\ each_entry_present solid val
  end.

(** ** Shapes of texts *)

(** No character of the text is a raw newline or carriage return. *)
Definition one_line (l : list ascii) : bool :=
  forallb (fun c => negb (c =? LF)%char && negb (c =? CR)%char) l.

(** Every occurrence of [start] in the text comes right after a
    backslash; [prev] is the character before the text. *)
Fixpoint each_preceded (start prev : ascii) (l : list ascii) : bool :=
  match l with
  | [] => true
  | c :: l' =>
    (negb (c =? start)%char || (prev =? BACKSLASH)%char)
    && each_preceded start c l'
  end.

(** The last character of a text, [prev] for the empty text. *)
Fixpoint last_char (prev : ascii) (l : list ascii) : ascii :=
  match l with
  | [] => prev
  | c :: l' => last_char c l'
  end.

Definition ends_in_backslash (s : string) : bool :=
  (last_char NUL (list_ascii_of_string s) =? BACKSLASH)%char.

(** No character of the text is a backslash. *)
Definition no_backslash (s : string) : bool :=
  forallb (fun c => negb (c =? BACKSLASH)%char) (list_ascii_of_string s).

(** ** Flat mappings

    A mapping from keys to scalars, given by its entries, and the text
    the emitter writes for one entry at the root. *)

Definition dict_of (entries : list (string * string)) : Dict :=
  map (fun e => (fst e, Some (NodeScalar (snd e)))) entries.

Definition entry_text (e : string * string) : string :=
  (fst e ++ ": " ++ String QUOTE (detail.Escape (snd e)) ++ String QUOTE nl)%string.

(** A key that is written and read back as it is: not empty; its first
    character not white space, a comma, an opening bracket or brace, a
    quote, or the first byte of a byte order mark; no character that ends
    an unquoted scalar; no backslash; no white space at its end. *)
Definition plain_key (k : string) : bool :=
  match list_ascii_of_string k with
  | [] => false
  | c :: _ =>
    negb (Parser.is_blank c) && negb (c =? "[")%char && negb (c =? "{")%char
    && negb (c =? QUOTE)%char && negb (c =? DQUOTE)%char
    && negb (c =? "239")%char
  end
  && forallb (fun c => negb (Parser.ends_unquoted c)) (list_ascii_of_string k)
  && no_backslash k
  && negb (detail.ends_in_space k).

(** The kind and the text of each token, positions left out. *)
Definition kinds (toks : list Token.t) : list (Token.Type_ * string) :=
  map (fun t => (Token.type t, Token.value t)) toks.

(** The tokens of a flat mapping, as far as kind and text go. *)
Definition flat_kinds (entries : list (string * string))
  : list (Token.Type_ * string) :=
  flat_map (fun e => [(Token.KEY, fst e); (Token.SCALAR, snd e)]) entries.

(** The entries with the trailing white space of each value removed. *)
Definition trimmed (entries : list (string * string)) : list (string * string) :=
  map (fun e => (fst e, detail.trim_trailing (snd e))) entries.

(** ** Positions in a buffer *)

(** The number of newlines in a text, and the number of characters after
    its last newline. *)
Definition count_newlines (l : list ascii) : nat :=
  length (filter (fun c => (c =? LF)%char) l).

Definition since_newline (l : list ascii) : nat :=
  detail.find_if (fun c => (c =? LF)%char) (rev l).

(** A byte offset with the line and the column that belong to it: lines
    count from 1, columns count the characters since the last newline. *)
Definition located (buffer : list ascii) (pos line col : nat) : Prop :=
  pos <= length buffer
  /\ line = 1 + count_newlines (firstn pos buffer)
  /\ col = since_newline (firstn pos buffer).

(** The cursor of a parser is where its line and column say. *)
Definition tracked (p : Parser.t) : Prop :=
  located (Parser.buffer p) (Parser.readPos p) (Parser.line p) (Parser.column p).

Definition token_located (buffer : list ascii) (t : Token.t) : Prop :=
  located buffer (Token.pos t) (Token.line t) (Token.col t).

Definition error_located (buffer : list ascii) (e : exn) : Prop :=
  match e with
  | AltError e => located buffer (pos e) (lin e) (col e)
  | _ => False
  end.

(** An error that carries the position of the end of the buffer. *)
Definition error_at_end (buffer : list ascii) (e : exn) : Prop :=
  match e with
  | AltError e =>
    pos e = length buffer
    /\ lin e = 1 + count_newlines buffer
    /\ col e = since_newline buffer
  | _ => False
  end.

(** An error raised at a token that satisfies [P]. *)
Definition raised_at (P : Token.t -> Prop) (e : exn) : Prop :=
  exists msg t,
    P t /\ e = AltError (mkError msg (Token.pos t) (Token.line t) (Token.col t)).

(** ** Values and the tokens they were read from *)



(** ** Sample values *)

(** The line [# a 'q # x' k: v] with double quotes for the single ones:
    a comment that holds a quoted part with a [#] in it. *)
Definition text_quoted_hash : list ascii :=
  list_ascii_of_string "# a " ++ DQUOTE :: list_ascii_of_string "q # x"
    ++ DQUOTE :: list_ascii_of_string " k: v".

(** The mapping [b: 1, a: 2], filled in that order. *)
Definition dict_b_a : Dict :=
  std_map.set "a" (Some (NodeScalar "2")) (std_map.set "b" (Some (NodeScalar "1")) []).

(** The same mapping filled in the other order. *)
Definition dict_a_b : Dict :=
  std_map.set "b" (Some (NodeScalar "1")) (std_map.set "a" (Some (NodeScalar "2")) []).

(** The tokens of [a: 1] followed by [a: 2], after the opening of the
    mapping. *)
Definition tokens_a_1_a_2 : Parser.iterator :=
  [Token.mk Token.KEY "a" 1 1 1; Token.mk Token.SCALAR "1" 4 1 4;
   Token.mk Token.KEY "a" 6 2 1; Token.mk Token.SCALAR "2" 9 2 4;
   Token.mk Token.DICT_END "" 9 2 4].

(** * Properties *)

(** ** Strings *)

Lemma string_app_assoc (a b c : string) :
  ((a ++ b) ++ c)%string = (a ++ (b ++ c))%string.
Proof.
  induction a as [|x a IH]; simpl; [reflexivity | now rewrite IH].
Qed.

Lemma string_app_nil_r (a : string) : (a ++ "")%string = a.
Proof.
  induction a as [|x a IH]; simpl; [reflexivity | now rewrite IH].
Qed.

Lemma string_length_app (a b : string) :
  String.length (a ++ b) = String.length a + String.length b.
Proof.
  induction a as [|x a IH]; simpl; [reflexivity | now rewrite IH].
Qed.

Lemma string_app_inv_head (a b c : string) :
  (a ++ b)%string = (a ++ c)%string -> b = c.
Proof.
  induction a as [|x a IH]; simpl; intros H; [exact H|].
  injection H as H. auto.
Qed.

Lemma list_ascii_app (a b : string) :
  list_ascii_of_string (a ++ b) = list_ascii_of_string a ++ list_ascii_of_string b.
Proof.
  induction a as [|x a IH]; simpl; [reflexivity | now rewrite IH].
Qed.

Lemma string_of_list_app (a b : list ascii) :
  string_of_list_ascii (a ++ b)
  = (string_of_list_ascii a ++ string_of_list_ascii b)%string.
Proof.
  induction a as [|x a IH]; simpl; [reflexivity | now rewrite IH].
Qed.

(** ** Escape and Unescape *)

Module detail_facts.
Import detail.

Lemma Escape_loop_cons c it res :
  Escape_loop (String c it) res = Escape_loop it (res ++ escaped c)%string.
Proof.
  unfold escaped, push_back. simpl.
  destruct (c =? LF)%char; [reflexivity|].
  destruct (c =? CR)%char; [reflexivity|].
  destruct ((c =? QUOTE)%char || (c =? DQUOTE)%char || (c =? BACKSLASH)%char);
    unfold push_back; [|reflexivity].
  now rewrite string_app_assoc.
Qed.

Lemma Escape_loop_acc str : forall res,
  Escape_loop str res = (res ++ Escape str)%string.
Proof.
  unfold Escape.
  induction str as [|c it IH]; intros res.
  - simpl. now rewrite string_app_nil_r.
  - rewrite !Escape_loop_cons, IH, (IH ("" ++ escaped c)%string).
    simpl. now rewrite string_app_assoc.
Qed.

Lemma Escape_cons c it : Escape (String c it) = (escaped c ++ Escape it)%string.
Proof.
  unfold Escape at 1. rewrite Escape_loop_cons, Escape_loop_acc. reflexivity.
Qed.

Lemma Escape_app (s t : string) :
  Escape (s ++ t) = (Escape s ++ Escape t)%string.
Proof.
  induction s as [|c s IH]; simpl; [reflexivity|].
  now rewrite !Escape_cons, IH, string_app_assoc.
Qed.

Lemma escaped_length c : 1 <= String.length (escaped c).
Proof.
  unfold escaped.
  destruct (c =? LF)%char; [simpl; lia|].
  destruct (c =? CR)%char; [simpl; lia|].
  destruct ((c =? QUOTE)%char || (c =? DQUOTE)%char || (c =? BACKSLASH)%char);
    simpl; lia.
Qed.

Lemma Escape_length (s : string) : String.length s <= String.length (Escape s).
Proof.
  induction s as [|c s IH]; [simpl; lia|].
  rewrite Escape_cons, string_length_app. simpl.
  pose proof (escaped_length c). lia.
Qed.

(** One escaped character is read back as that character. *)
Lemma Unescape_loop_escaped c rest res :
  Unescape_loop (escaped c ++ rest)%string res
  = Unescape_loop rest (push_back res c).
Proof.
  unfold escaped.
  destruct (Ascii.eqb_spec c LF) as [->|HLF]; [reflexivity|].
  destruct (Ascii.eqb_spec c CR) as [->|HCR]; [reflexivity|].
  destruct (Ascii.eqb_spec c QUOTE) as [->|HQ]; [reflexivity|].
  destruct (Ascii.eqb_spec c DQUOTE) as [->|HD]; [reflexivity|].
  destruct (Ascii.eqb_spec c BACKSLASH) as [->|HB]; [reflexivity|].
  simpl.
  destruct (Ascii.eqb_spec c BACKSLASH) as [->|_]; [contradiction|].
  reflexivity.
Qed.

Lemma Unescape_loop_Escape (s : string) : forall res,
  Unescape_loop (Escape s) res = (res ++ s)%string.
Proof.
  induction s as [|c s IH]; intros res.
  - simpl. now rewrite string_app_nil_r.
  - rewrite Escape_cons, Unescape_loop_escaped, IH.
    unfold push_back. now rewrite string_app_assoc.
Qed.

Lemma trim_trailing_fixed (s : string) :
  ends_in_space s = false -> trim_trailing s = s.
Proof.
  unfold ends_in_space, trim_trailing.
  destruct (rev (list_ascii_of_string s)) as [|c l] eqn:E; simpl.
  - intros _. rewrite Nat.sub_0_r, firstn_all.
    apply string_of_list_ascii_of_string.
  - intros H. apply negb_false_iff in H. rewrite H.
    rewrite Nat.sub_0_r, firstn_all.
    apply string_of_list_ascii_of_string.
Qed.

(** [find_if] over the reversed text counts the trailing characters the
    predicate rejects. *)
Lemma find_if_rev_split (pred : ascii -> bool) (l : list ascii) :
  let k := find_if pred (rev l) in
  l = firstn (length l - k) l ++ skipn (length l - k) l
  /\ forallb (fun c => negb (pred c)) (skipn (length l - k) l) = true
  /\ match rev (firstn (length l - k) l) with
     | [] => True
     | c :: _ => pred c = true
     end.
Proof.
  induction l as [|x l IH] using rev_ind; simpl.
  - auto.
  - rewrite rev_app_distr. simpl.
    rewrite length_app. simpl.
    destruct (pred x) eqn:Hx.
    + rewrite Nat.sub_0_r.
      replace (length l + 1) with (length (l ++ [x])) by (rewrite length_app; simpl; lia).
      rewrite firstn_all, skipn_all, app_nil_r. simpl.
      rewrite rev_app_distr. simpl. auto.
    + destruct IH as (IH1 & IH2 & IH3).
      set (k := find_if pred (rev l)) in *.
      assert (Hk : k <= length l).
      { unfold k. rewrite <- length_rev.
        generalize (rev l). intros m. induction m as [|y m IHm]; simpl; [lia|].
        destruct (pred y); simpl; lia. }
      replace (length l + 1 - S k) with (length l - k) by lia.
      rewrite firstn_app, skipn_app.
      replace (length l - k - length l) with 0 by lia. simpl.
      rewrite app_nil_r.
      repeat split.
      * rewrite app_assoc. now rewrite <- IH1.
      * rewrite forallb_app, IH2. simpl. now rewrite Hx.
      * exact IH3.
Qed.

(** [trim_trailing] removes a suffix of white space and leaves a text
    that does not end in white space. *)
Lemma trim_trailing_spec (s : string) :
  exists ws : string,
    s = (trim_trailing s ++ ws)%string
    /\ forallb (fun c => negb (trim_stop c)) (list_ascii_of_string ws) = true
    /\ ends_in_space (trim_trailing s) = false.
Proof.
  unfold trim_trailing, ends_in_space.
  destruct (find_if_rev_split trim_stop (list_ascii_of_string s)) as (H1 & H2 & H3).
  set (l := list_ascii_of_string s) in *.
  set (n := length l - find_if trim_stop (rev l)) in *.
  exists (string_of_list_ascii (skipn n l)). repeat split.
  - rewrite <- string_of_list_app, <- H1. unfold l.
    now rewrite string_of_list_ascii_of_string.
  - now rewrite list_ascii_of_string_of_list_ascii.
  - rewrite list_ascii_of_string_of_list_ascii.
    destruct (rev (firstn n l)); [reflexivity|]. now rewrite H3.
Qed.

End detail_facts.

(** C3 (as amended).  For every string [s], [Unescape (Escape s)] is [s]
    with its trailing white space erased, so it is [s] itself whenever [s]
    is empty or does not end in a white-space character.  [Escape] erases
    nothing: it maps a concatenation to the concatenation of the escaped
    parts and never returns a shorter text. *)
Theorem Unescape_Escape (s : string) :
  detail.Unescape (detail.Escape s) = detail.trim_trailing s
  /\ (detail.ends_in_space s = false -> detail.Unescape (detail.Escape s) = s)
  /\ (forall t, detail.Escape (s ++ t) = (detail.Escape s ++ detail.Escape t)%string)
  /\ String.length s <= String.length (detail.Escape s).
Proof.
  assert (H : detail.Unescape (detail.Escape s) = detail.trim_trailing s).
  { unfold detail.Unescape. now rewrite detail_facts.Unescape_loop_Escape. }
  repeat split.
  - exact H.
  - intros E. rewrite H. now apply detail_facts.trim_trailing_fixed.
  - intros t. apply detail_facts.Escape_app.
  - apply detail_facts.Escape_length.
Qed.

(** A text with a newline, a quote and a backslash that does not end in
    white space comes back unchanged. *)
Lemma Unescape_Escape_witness :
  detail.Unescape
    (detail.Escape (String "a" (String LF (String QUOTE (String BACKSLASH "b")))))
  = String "a" (String LF (String QUOTE (String BACKSLASH "b"))).
Proof.
  apply (Unescape_Escape (String "a" (String LF (String QUOTE (String BACKSLASH "b"))))).
  reflexivity.
Defined.

(** C3 as stated fails on a text that ends in a newline: the newline is
    escaped, read back, and then trimmed. *)
Lemma Unescape_Escape_trailing_newline :
  detail.Unescape (detail.Escape (String "a" (String LF EmptyString))) = "a"
  /\ detail.Unescape (detail.Escape (String "a" (String LF EmptyString)))
     <> String "a" (String LF EmptyString).
Proof.
  split; [reflexivity | discriminate].
Qed.

(** ** The key order and std::map *)

Lemma ascii_compare_lt_trans (a b c : ascii) :
  Ascii.compare a b = Lt -> Ascii.compare b c = Lt -> Ascii.compare a c = Lt.
Proof.
  unfold Ascii.compare. rewrite !N.compare_lt_iff. lia.
Qed.

Lemma ascii_compare_refl (a : ascii) : Ascii.compare a a = Eq.
Proof. unfold Ascii.compare. apply N.compare_refl. Qed.

Lemma string_compare_refl (a : string) : String.compare a a = Eq.
Proof.
  induction a as [|x a IH]; simpl; [reflexivity|].
  now rewrite ascii_compare_refl.
Qed.

Lemma string_compare_lt_trans (a : string) : forall b c,
  String.compare a b = Lt -> String.compare b c = Lt -> String.compare a c = Lt.
Proof.
  induction a as [|x a IH]; intros [|y b] [|z c]; simpl; try discriminate; auto.
  destruct (Ascii.compare x y) eqn:Hxy; try discriminate;
    destruct (Ascii.compare y z) eqn:Hyz; try discriminate; intros H1 H2.
  - apply Ascii.compare_eq_iff in Hxy, Hyz. subst.
    rewrite ascii_compare_refl. eauto.
  - apply Ascii.compare_eq_iff in Hxy. subst. now rewrite Hyz.
  - apply Ascii.compare_eq_iff in Hyz. subst. now rewrite Hxy.
  - now rewrite (ascii_compare_lt_trans _ _ _ Hxy Hyz).
Qed.

Lemma string_compare_gt_lt (a b : string) :
  String.compare a b = Gt <-> String.compare b a = Lt.
Proof.
  rewrite (String.compare_antisym b a).
  destruct (String.compare a b); simpl; split; congruence.
Qed.

Lemma string_ltb_lt (a b : string) :
  String.ltb a b = true <-> String.compare a b = Lt.
Proof.
  unfold String.ltb. destruct (String.compare a b); split; congruence.
Qed.

Module std_map_facts.
Import std_map.

Section Facts.
Context {V : Type}.
Implicit Types (m : t V) (k key : string) (v : V).

Lemma find_set_same key v m : find key (set key v m) = Some v.
Proof.
  induction m as [|[k1 v1] m IH]; simpl.
  - now rewrite string_compare_refl.
  - destruct (String.compare key k1) eqn:E; simpl.
    + apply String.compare_eq_iff in E. subst.
      now rewrite string_compare_refl.
    + now rewrite string_compare_refl.
    + now rewrite E.
Qed.

Lemma find_set_other key v m k :
  k <> key -> find k (set key v m) = find k m.
Proof.
  intros Hne. induction m as [|[k1 v1] m IH]; simpl.
  - destruct (String.compare k key) eqn:E; try reflexivity.
    apply String.compare_eq_iff in E. contradiction.
  - destruct (String.compare key k1) eqn:E; simpl.
    + apply String.compare_eq_iff in E. subst k1.
      destruct (String.compare k key) eqn:E'; try reflexivity.
      apply String.compare_eq_iff in E'. contradiction.
    + destruct (String.compare k key) eqn:E'.
      * apply String.compare_eq_iff in E'. contradiction.
      * now rewrite (string_compare_lt_trans _ _ _ E' E).
      * reflexivity.
    + destruct (String.compare k k1); auto.
Qed.

Lemma size_set_fresh key v m :
  find key m = None -> size (set key v m) = S (size m).
Proof.
  unfold size. induction m as [|[k1 v1] m IH]; simpl; [reflexivity|].
  destruct (String.compare key k1); simpl; try discriminate; auto.
Qed.

Lemma size_set_le key v m : size (set key v m) <= S (size m).
Proof.
  unfold size. induction m as [|[k1 v1] m IH]; simpl; [lia|].
  destruct (String.compare key k1); simpl; lia.
Qed.

Lemma find_insert_fresh key v m :
  find key m = None -> find key (insert key v m) = Some v.
Proof.
  induction m as [|[k1 v1] m IH]; simpl.
  - now rewrite string_compare_refl.
  - destruct (String.compare key k1) eqn:E; simpl; try discriminate.
    + now rewrite string_compare_refl.
    + rewrite E. auto.
Qed.

(** [insert] never changes what a key already maps to. *)
Lemma find_insert_kept key v m k w :
  find k m = Some w -> find k (insert key v m) = Some w.
Proof.
  induction m as [|[k1 v1] m IH]; simpl; [discriminate|].
  destruct (String.compare key k1) eqn:E; simpl; auto.
  - destruct (String.compare k key) eqn:E2; auto.
    + apply String.compare_eq_iff in E2. subst. rewrite E. discriminate.
    + rewrite (string_compare_lt_trans _ _ _ E2 E). discriminate.
  - destruct (String.compare k k1); auto.
Qed.

Lemma ascending_cons k v m :
  ascending ((k, v) :: m) = true ->
  ascending m = true.
Proof.
  simpl. destruct m as [|[k1 v1] m]; [reflexivity|].
  now intros [_ H]%andb_true_iff.
Qed.

Lemma ascending_set key v m :
  ascending m = true -> ascending (set key v m) = true.
Proof.
  induction m as [|[k1 v1] m IH]; [reflexivity|].
  intros Hm. pose proof (ascending_cons _ _ _ Hm) as Hm'.
  cbn [set]. destruct (String.compare key k1) eqn:E.
  - exact Hm.
  - change (String.ltb key k1 && ascending ((k1, v1) :: m) = true).
    rewrite Hm. now rewrite (proj2 (string_ltb_lt _ _) E).
  - specialize (IH Hm').
    apply string_compare_gt_lt, string_ltb_lt in E.
    destruct m as [|[k2 v2] m]; cbn [set] in *.
    + cbn. now rewrite E.
    + destruct (String.compare key k2) eqn:E2.
      * exact Hm.
      * change (String.ltb k1 key
                && ascending ((key, v) :: (k2, v2) :: m) = true).
        now rewrite E, IH.
      * cbn [ascending] in Hm |- *.
        apply andb_true_iff in Hm as [H12 _].
        rewrite H12. exact IH.
Qed.

Lemma ascending_insert key v m :
  ascending m = true -> ascending (insert key v m) = true.
Proof.
  induction m as [|[k1 v1] m IH]; [reflexivity|].
  intros Hm. pose proof (ascending_cons _ _ _ Hm) as Hm'.
  cbn [insert]. destruct (String.compare key k1) eqn:E.
  - exact Hm.
  - change (String.ltb key k1 && ascending ((k1, v1) :: m) = true).
    rewrite Hm. now rewrite (proj2 (string_ltb_lt _ _) E).
  - specialize (IH Hm').
    apply string_compare_gt_lt, string_ltb_lt in E.
    destruct m as [|[k2 v2] m]; cbn [insert] in *.
    + cbn. now rewrite E.
    + destruct (String.compare key k2) eqn:E2.
      * exact Hm.
      * change (String.ltb k1 key
                && ascending ((key, v) :: (k2, v2) :: m) = true).
        now rewrite E, IH.
      * cbn [ascending] in Hm |- *.
        apply andb_true_iff in Hm as [H12 _].
        rewrite H12. exact IH.
Qed.

(** In an ascending map every later key is greater than the first. *)
Lemma ascending_head_lt k v m :
  ascending ((k, v) :: m) = true ->
  Forall (fun e => String.compare k (fst e) = Lt) m.
Proof.
  revert k v. induction m as [|[k1 v1] m IH]; intros k v Hm; constructor.
  - simpl in Hm. apply string_ltb_lt.
    destruct m; [now rewrite andb_true_r in Hm|].
    now apply andb_true_iff in Hm as [H _].
  - assert (H1 : String.compare k k1 = Lt).
    { simpl in Hm. apply string_ltb_lt.
      destruct m; [now rewrite andb_true_r in Hm|].
      now apply andb_true_iff in Hm as [H _]. }
    apply ascending_cons in Hm.
    eapply Forall_impl; [|apply (IH _ _ Hm)].
    intros e He. simpl in *. eapply string_compare_lt_trans; eauto.
Qed.

(** Iteration visits the keys in strictly increasing order. *)
Lemma ascending_nth m : ascending m = true ->
  forall i j ki kj, i < j ->
    nth_error (keys m) i = Some ki -> nth_error (keys m) j = Some kj ->
    String.ltb ki kj = true.
Proof.
  induction m as [|[k v] m IH]; intros Hm i j ki kj Hij Hi Hj.
  - destruct i; discriminate.
  - destruct j as [|j]; [lia|]. simpl in Hj.
    destruct i as [|i]; simpl in Hi.
    + injection Hi as <-.
      pose proof (ascending_head_lt _ _ _ Hm) as HF.
      rewrite Forall_forall in HF.
      unfold keys in Hj. apply nth_error_In in Hj.
      apply in_map_iff in Hj as (e & <- & He).
      apply string_ltb_lt. now apply HF.
    + apply ascending_cons in Hm. eapply (IH Hm i j); eauto. lia.
Qed.

End Facts.

End std_map_facts.

(** ** Conversions *)

(** C6.  Strict [ToBool()] returns true on the scalars [true] and [yes],
    false on [false] and [no], and raises [Error("Not a bool")] on every
    other scalar, [seven] among them; each strict conversion ([ToBool],
    [ToNumber], [ToString], [ToList], [ToDict]) raises
    [Error("Invalid cast")] on a None-typed node. *)
Theorem strict_conversions (val : string)
  (Hother : val <> "true" /\ val <> "yes" /\ val <> "false" /\ val <> "no") :
  ToBool (NodeScalar val) = Throw (AltError (Error_msg "Not a bool"))
  /\ ToBool (NodeScalar "true") = Ret true
  /\ ToBool (NodeScalar "yes") = Ret true
  /\ ToBool (NodeScalar "false") = Ret false
  /\ ToBool (NodeScalar "no") = Ret false
  /\ ToBool (NodeScalar "seven") = Throw (AltError (Error_msg "Not a bool"))
  /\ ToBool NodeNone = Throw (AltError (Error_msg "Invalid cast"))
  /\ (forall (double : Type) (strtod_value : string -> option double),
        ToNumber double strtod_value NodeNone
        = Throw (AltError (Error_msg "Invalid cast")))
  /\ ToString NodeNone = Throw (AltError (Error_msg "Invalid cast"))
  /\ ToList NodeNone = Throw (AltError (Error_msg "Invalid cast"))
  /\ ToDict NodeNone = Throw (AltError (Error_msg "Invalid cast")).
Proof.
  destruct Hother as (H1 & H2 & H3 & H4).
  repeat split; try reflexivity.
  unfold ToBool, ValueScalar_ToBool.
  apply String.eqb_neq in H1, H2, H3, H4.
  now rewrite H1, H2, H3, H4.
Qed.

Lemma strict_conversions_witness :
  ToBool (NodeScalar "7") = Throw (AltError (Error_msg "Not a bool")).
Proof.
  apply (strict_conversions "7").
  repeat split; discriminate.
Defined.

(** C2 (as amended).  On an absent node, a None-typed node, a list and a
    mapping, [ToNumber(def)] returns [def].  On a scalar it ignores [def]
    and is the strict [ToNumber()]: a scalar that is not numeric makes it
    raise, [Error("Not a number")] unless [std::stod] reported a value out
    of range, and a numeric scalar makes it return the parsed number. *)
Theorem ToNumber_def_cases (double : Type) (strtod_value : string -> option double)
  (def : double) :
  ToNumber_def double strtod_value None def = Ret def
  /\ ToNumber_def double strtod_value (Some NodeNone) def = Ret def
  /\ (forall val : List,
        ToNumber_def double strtod_value (Some (NodeList val)) def = Ret def)
  /\ (forall val : Dict,
        ToNumber_def double strtod_value (Some (NodeDict val)) def = Ret def)
  /\ (forall val : string,
        ToNumber_def double strtod_value (Some (NodeScalar val)) def
        = ToNumber double strtod_value (NodeScalar val))
  /\ (forall val : string,
        numeric double strtod_value val = false ->
        ToNumber_def double strtod_value (Some (NodeScalar val)) def
        = (if match stod double strtod_value val with
              | stod_out_of_range => true
              | _ => false
              end
           then Throw std_out_of_range
           else Throw (AltError (Error_msg "Not a number"))))
  /\ (forall val : string,
        std_stod.scan val = None ->
        ToNumber_def double strtod_value (Some (NodeScalar val)) def
        = Throw (AltError (Error_msg "Not a number"))).
Proof.
  repeat split; try reflexivity.
  - intros val. unfold numeric, ToNumber_def, ValueScalar_ToNumber.
    destruct (stod double strtod_value val) as [result idx| |]; try reflexivity.
    destruct (idx <? String.length val); [reflexivity | discriminate].
  - intros val H. unfold ToNumber_def, ValueScalar_ToNumber, stod.
    now rewrite H.
Qed.

Lemma ToNumber_def_cases_witness :
  ToNumber_def unit (fun _ => Some tt) (Some (NodeScalar "seven")) tt
  = Throw (AltError (Error_msg "Not a number")).
Proof.
  apply (ToNumber_def_cases unit (fun _ => Some tt) tt).
  reflexivity.
Defined.

(** C2 as stated fails on the non-numeric scalar [seven]: whatever the
    platform's doubles and whatever the default, the call raises. *)
Lemma ToNumber_def_scalar_raises :
  ~ (forall (double : Type) (strtod_value : string -> option double)
            (def : double),
        ToNumber_def double strtod_value (Some (NodeScalar "seven")) def
        = Ret def).
Proof.
  intros H. specialize (H unit (fun _ => Some tt) tt).
  vm_compute in H. discriminate.
Qed.

(** The same, for every platform and default at once. *)
Lemma ToNumber_def_seven (double : Type) (strtod_value : string -> option double)
  (def : double) :
  ToNumber_def double strtod_value (Some (NodeScalar "seven")) def
  = Throw (AltError (Error_msg "Not a number")).
Proof. reflexivity. Qed.

(** ** Indexing *)

(** C4.  Indexing a mapping by a key it does not hold inserts a
    None-valued entry under that key, so that the size grows by one, and
    returns a reference to the inserted node; the other keys keep their
    entries. *)
Theorem Dict_index_missing_key (val : Dict) (key : string)
  (Hmissing : std_map.find key val = None) :
  exists val' : Dict,
    Node_at_key (NodeDict val) key = Ret (NodeDict val', ref_entry key)
    /\ std_map.find key val' = Some (Some NodeNone)
    /\ deref (NodeDict val') (ref_entry key) = Some NodeNone
    /\ IsNone (deref (NodeDict val') (ref_entry key)) = true
    /\ Node_size (NodeDict val') = Ret (S (std_map.size val))
    /\ (forall k, k <> key -> std_map.find k val' = std_map.find k val).
Proof.
  exists (std_map.set key (Some Node_default) val).
  assert (Hfind : std_map.find key (std_map.set key (Some Node_default) val)
                  = Some (Some NodeNone))
    by apply std_map_facts.find_set_same.
  repeat split.
  - unfold Node_at_key, ValueDict_Get. now rewrite Hmissing.
  - exact Hfind.
  - unfold deref. now rewrite Hfind.
  - unfold deref. now rewrite Hfind.
  - unfold Node_size. f_equal. now apply std_map_facts.size_set_fresh.
  - intros k Hk. now apply std_map_facts.find_set_other.
Qed.

Lemma Dict_index_missing_key_witness :
  exists val' : Dict,
    Node_at_key (NodeDict [("a", Some (NodeScalar "1"))]) "z"
    = Ret (NodeDict val', ref_entry "z")
    /\ std_map.find "z" val' = Some (Some NodeNone)
    /\ deref (NodeDict val') (ref_entry "z") = Some NodeNone
    /\ IsNone (deref (NodeDict val') (ref_entry "z")) = true
    /\ Node_size (NodeDict val') = Ret 2
    /\ (forall k, k <> "z" ->
        std_map.find k val' = std_map.find k [("a", Some (NodeScalar "1"))]).
Proof.
  apply (Dict_index_missing_key [("a", Some (NodeScalar "1"))] "z").
  reflexivity.
Defined.




(** ** Copying *)

Module Copy_facts.

Lemma list_loop_spec (l : List) : forall newVal,
  ValueList_Copy_loop Copy l newVal = newVal ++ map copy_child (filter kept l).
Proof.
  induction l as [|curr l IH]; intros newVal; simpl.
  - now rewrite app_nil_r.
  - unfold kept at 1. destruct (IsNone curr) eqn:E; cbn [negb]; [apply IH|].
    destruct curr as [c|]; [|discriminate].
    rewrite IH. simpl. now rewrite <- app_assoc.
Qed.

(** Writing a key greater than every key of the map appends it. *)
Lemma set_greatest {V : Type} (key : string) (v : V) (m : std_map.t V) :
  Forall (fun e => String.compare (fst e) key = Lt) m ->
  std_map.set key v m = m ++ [(key, v)].
Proof.
  induction 1 as [|[k1 v1] m Hlt _ IH]; simpl; [reflexivity|].
  simpl in Hlt. apply string_compare_gt_lt in Hlt. now rewrite Hlt, IH.
Qed.

Lemma dict_loop_spec (l : Dict) : forall newVal,
  std_map.ascending l = true ->
  Forall (fun e => Forall (fun e' => String.compare (fst e) (fst e') = Lt) l)
         newVal ->
  ValueDict_Copy_loop Copy l newVal
  = newVal ++ map copy_entry (filter kept_entry l).
Proof.
  induction l as [|[first second] l IH]; intros newVal Hasc Hlt.
  - simpl. now rewrite app_nil_r.
  - pose proof (std_map_facts.ascending_cons _ _ _ Hasc) as Hasc'.
    assert (Hlt' : Forall (fun e => Forall (fun e' =>
                     String.compare (fst e) (fst e') = Lt) l) newVal).
    { eapply Forall_impl; [|exact Hlt]. intros e He. now inversion He. }
    cbn [filter ValueDict_Copy_loop]. unfold kept_entry at 1, kept. cbn [snd].
    destruct (IsNone second) eqn:E; cbn [negb].
    + now apply IH.
    + destruct second as [c|]; [|discriminate].
      rewrite set_greatest.
      * rewrite IH; auto.
        -- now rewrite <- app_assoc.
        -- apply Forall_app. split; [exact Hlt'|].
           constructor; [|constructor]. cbn [fst].
           apply (std_map_facts.ascending_head_lt _ _ _ Hasc).
      * eapply Forall_impl; [|exact Hlt]. intros e He. now inversion He.
Qed.

Lemma dict_loop_size (l : Dict) : forall newVal,
  std_map.size (ValueDict_Copy_loop Copy l newVal)
  <= std_map.size newVal + length (filter kept_entry l).
Proof.
  induction l as [|[first second] l IH]; intros newVal; [simpl; lia|].
  cbn [filter ValueDict_Copy_loop]. unfold kept_entry at 1, kept. cbn [snd].
  destruct (IsNone second) eqn:E; cbn [negb].
  - apply IH.
  - destruct second as [c|]; [|discriminate].
    etransitivity; [apply IH|].
    pose proof (std_map_facts.size_set_le first (Some (Copy c)) newVal).
    cbn [length]. lia.
Qed.

Lemma filter_drops {A : Type} (f : A -> bool) (x : A) (l : list A) :
  In x l -> f x = false -> length (filter f l) < length l.
Proof.
  induction l as [|y l IH]; intros Hin Hf; [contradiction|].
  simpl. pose proof (filter_length_le f l).
  destruct Hin as [->|Hin].
  - rewrite Hf. lia.
  - specialize (IH Hin Hf). destruct (f y); simpl; lia.
Qed.

Lemma set_In {V : Type} (key : string) (v : V) (m : std_map.t V) :
  In (key, v) (std_map.set key v m).
Proof.
  induction m as [|[k1 v1] m IH]; simpl; [now left|].
  destruct (String.compare key k1) eqn:E; simpl; auto.
  apply String.compare_eq_iff in E. subst. now left.
Qed.

End Copy_facts.

(** C9.  Copy construction and assignment both go through [Copy], which
    drops the children that are null or None-typed: the copy of a list
    holds the copies of its other children in order, and so does the copy
    of a mapping under their keys.  Hence the copy of a mapping in which a
    lookup has just created a None entry has fewer entries than that
    mapping. *)
Theorem Copy_drops_None (val : Dict) (key : string)
  (Hascending : std_map.ascending val = true)
  (Hmissing : std_map.find key val = None) :
  (forall l : List,
     Node_copy (NodeList l) = NodeList (map copy_child (filter kept l)))
  /\ Node_copy (NodeDict val)
     = NodeDict (map copy_entry (filter kept_entry val))
  /\ (forall this that, Node_assign this that = Node_copy that)
  /\ (forall val' r n,
        ValueDict_Get val key = (val', r) ->
        Node_size (NodeDict val') = Ret (S (std_map.size val))
        /\ (Node_size (Node_copy (NodeDict val')) = Ret n -> n < S (std_map.size val))).
Proof.
  repeat split.
  - intros l. unfold Node_copy. cbn [Copy].
    now rewrite Copy_facts.list_loop_spec.
  - unfold Node_copy. cbn [Copy].
    now rewrite Copy_facts.dict_loop_spec.
  - unfold ValueDict_Get in H. rewrite Hmissing in H.
    injection H as <- <-. simpl. f_equal.
    now apply std_map_facts.size_set_fresh.
  - unfold ValueDict_Get in H. rewrite Hmissing in H.
    injection H as <- <-.
    unfold Node_copy. cbn [Copy Node_size].
    intros Hn. injection Hn as <-.
    pose proof (Copy_facts.dict_loop_size
                  (std_map.set key (Some Node_default) val) []) as Hle.
    pose proof (Copy_facts.filter_drops kept_entry
                  (key, Some Node_default) _
                  (Copy_facts.set_In key (Some Node_default) val) eq_refl) as Hlt.
    pose proof (std_map_facts.size_set_fresh key (Some Node_default) val Hmissing)
      as Hsz.
    unfold std_map.size in *. simpl in Hle. lia.
Qed.

Lemma Copy_drops_None_witness :
  Node_copy (NodeDict [("a", Some (NodeScalar "1")); ("n", Some NodeNone)])
  = NodeDict [("a", Some (NodeScalar "1"))].
Proof.
  apply (Copy_drops_None [("a", Some (NodeScalar "1")); ("n", Some NodeNone)] "z");
    reflexivity.
Defined.

(** ** Emission *)

Module Emitter_facts.
Import Emitter.

Lemma fill_ok (indent : Z) :
  (0 <= indent)%Z ->
  std_string_fill (indent * 2) SPACE = Ret (indentation indent).
Proof.
  intros H. unfold std_string_fill, indentation.
  destruct (Z.ltb_spec (indent * 2) 0); [lia | reflexivity].
Qed.

Lemma Emit_absent_ok os (indent : Z) :
  (0 <= indent)%Z -> Emit_absent os indent = (os, None).
Proof.
  intros H. unfold Emit_absent. now rewrite fill_ok.
Qed.

Lemma list_loop_appends _indent indent (it : List) :
  (0 <= indent)%Z ->
  Forall (on_pointee appends) it ->
  exists txt, forall os,
    list_loop Emit_node _indent indent it os = ((os ++ txt)%string, None).
Proof.
  intros Hind. induction 1 as [|p it Hp _ [rest IH]].
  - exists EmptyString. intros os. simpl. now rewrite string_app_nil_r.
  - destruct p as [c|].
    + destruct (Hp (indent + 1)%Z (is_end it) ltac:(lia)) as [txt Hc].
      exists (_indent ++ txt ++ rest)%string. intros os.
      cbn [list_loop]. rewrite Hc, IH. unfold write.
      now rewrite !string_app_assoc.
    + exists (_indent ++ rest)%string. intros os.
      cbn [list_loop]. rewrite Emit_absent_ok by lia. rewrite IH.
      unfold write. now rewrite !string_app_assoc.
Qed.

Lemma dict_loop_appends _indent indent (it : Dict) :
  (0 <= indent)%Z ->
  Forall (fun e => on_pointee appends (snd e)) it ->
  exists txt, forall os,
    dict_loop Emit_node _indent indent it os = ((os ++ txt)%string, None).
Proof.
  intros Hind. induction 1 as [|[first second] it Hp _ [rest IH]].
  - exists EmptyString. intros os. simpl. now rewrite string_app_nil_r.
  - destruct second as [c|]; [|exists rest; intros os; apply IH].
    destruct (IsNone (Some c)) eqn:E.
    + exists rest. intros os. cbn [dict_loop]. rewrite E. apply IH.
    + destruct (Hp (indent + 1)%Z (is_end it) ltac:(lia)) as [txt Hc].
      exists (_indent ++ first ++ ": " ++ txt ++ rest)%string. intros os.
      cbn [dict_loop]. rewrite E, Hc, IH. unfold write.
      now rewrite !string_app_assoc.
Qed.

Lemma Emit_node_appends (n : Node) : appends n.
Proof.
  induction n as [|val|val IH|val IH] using Node_ind;
    intros indent isLast Hind.
  - exists EmptyString. intros os. cbn [Emit_node].
    rewrite fill_ok by lia. now rewrite string_app_nil_r.
  - eexists. intros os. cbn [Emit_node]. rewrite fill_ok by lia.
    unfold write. rewrite !string_app_assoc. reflexivity.
  - destruct (list_loop_appends (indentation indent) indent val ltac:(lia) IH)
      as [txt Hl].
    eexists. intros os. cbn [Emit_node]. rewrite fill_ok by lia.
    rewrite Hl. rewrite fill_ok by lia.
    unfold write. rewrite !string_app_assoc. reflexivity.
  - destruct (dict_loop_appends (indentation indent) indent val ltac:(lia) IH)
      as [txt Hl].
    eexists. intros os. cbn [Emit_node]. rewrite fill_ok by lia.
    rewrite Hl. destruct (Z.gtb_spec indent 0); [|lia].
    rewrite fill_ok by lia.
    unfold write. rewrite !string_app_assoc. reflexivity.
Qed.

Lemma Emit_node_text (n : Node) os indent isLast :
  (1 <= indent)%Z ->
  Emit_node n os indent isLast = ((os ++ text_of n indent isLast)%string, None).
Proof.
  intros Hind.
  destruct (Emit_node_appends n indent isLast Hind) as [txt H].
  unfold text_of. rewrite (H EmptyString), (H os). reflexivity.
Qed.

(** The loop over a mapping writes the blocks of its entries in order. *)
Lemma dict_loop_blocks _indent indent (it : Dict) : forall os,
  (0 <= indent)%Z ->
  dict_loop Emit_node _indent indent it os
  = ((os ++ join (blocks _indent indent it))%string, None).
Proof.
  induction it as [|[first second] it IH]; intros os Hind.
  - simpl. now rewrite string_app_nil_r.
  - cbn [dict_loop blocks join fold_right].
    destruct second as [c|]; [|now apply IH].
    destruct (IsNone (Some c)) eqn:E; [now apply IH|].
    rewrite Emit_node_text by lia. rewrite IH by lia.
    unfold write, join. now rewrite !string_app_assoc.
Qed.

(** The whole text of a mapping. *)
Lemma Emit_dict (dict : Dict) os indent isLast :
  (0 <= indent)%Z ->
  Emit_node (NodeDict dict) os indent isLast
  = ((os ++ dict_open indent
         ++ join (blocks (indentation indent) indent dict)
         ++ dict_close indent isLast)%string, None).
Proof.
  intros Hind. cbn [Emit_node]. rewrite fill_ok by lia.
  rewrite dict_loop_blocks by lia.
  unfold dict_open, dict_close, write.
  destruct (Z.gtb_spec indent 0).
  - rewrite fill_ok by lia. now rewrite !string_app_assoc.
  - now rewrite !string_app_nil_r.
Qed.

End Emitter_facts.

Module Emitter_blocks.
Import Emitter.

Lemma blocks_length _indent indent (it : Dict) :
  length (blocks _indent indent it) = length it.
Proof.
  induction it as [|[first second] it IH]; simpl; [reflexivity | now rewrite IH].
Qed.

Lemma blocks_None _indent indent (it : Dict) : forall i first second,
  nth_error it i = Some (first, second) -> IsNone second = true ->
  nth_error (blocks _indent indent it) i = Some EmptyString.
Proof.
  induction it as [|[k p] it IH]; intros [|i] first second Hi Hn;
    try discriminate; simpl in *.
  - injection Hi as -> ->. destruct second as [c|]; [|reflexivity].
    simpl in Hn. now rewrite Hn.
  - eauto.
Qed.

Lemma blocks_entry _indent indent (it : Dict) : forall i first c,
  nth_error it i = Some (first, Some c) -> IsNone (Some c) = false ->
  exists isLast,
    nth_error (blocks _indent indent it) i
    = Some (_indent ++ first ++ ": " ++ text_of c (indent + 1) isLast)%string.
Proof.
  induction it as [|[k p] it IH]; intros [|i] first c Hi Hn;
    try discriminate; simpl in *.
  - injection Hi as -> ->. simpl in Hn. rewrite Hn. eauto.
  - eauto.
Qed.

Lemma is_end_app {A : Type} (l after : list A) :
  after <> [] -> is_end (l ++ after) = false.
Proof.
  destruct l; simpl; [|reflexivity]. destruct after; [contradiction|reflexivity].
Qed.

Lemma blocks_without _indent indent first second (after : Dict) :
  IsNone second = true -> after <> [] ->
  forall before : Dict,
    join (blocks _indent indent (before ++ (first, second) :: after))
    = join (blocks _indent indent (before ++ after)).
Proof.
  intros Hn Hafter. induction before as [|[k p] before IH].
  - simpl. destruct second as [c|]; [|reflexivity].
    simpl in Hn. now rewrite Hn.
  - cbn [app blocks join fold_right]. fold (join (blocks _indent indent
      (before ++ (first, second) :: after))).
    fold (join (blocks _indent indent (before ++ after))).
    rewrite IH.
    rewrite (is_end_app before ((first, second) :: after)) by discriminate.
    now rewrite (is_end_app before after) by assumption.
Qed.

Lemma ascending_of_sets (ins : list (string * option Node)) : forall m : Dict,
  std_map.ascending m = true ->
  std_map.ascending
    (fold_left (fun m e => std_map.set (fst e) (snd e) m) ins m) = true.
Proof.
  induction ins as [|e ins IH]; intros m Hm; simpl; [exact Hm|].
  apply IH. now apply std_map_facts.ascending_set.
Qed.

Lemma ascending_of_inserts (ins : list (string * option Node)) : forall m : Dict,
  std_map.ascending m = true ->
  std_map.ascending
    (fold_left (fun m e => std_map.insert (fst e) (snd e) m) ins m) = true.
Proof.
  induction ins as [|e ins IH]; intros m Hm; simpl; [exact Hm|].
  apply IH. now apply std_map_facts.ascending_insert.
Qed.

End Emitter_blocks.

(** C7.  The text of a mapping is the blocks of its entries one after the
    other in iteration order, each entry that is emitted starting with its
    indented key; iteration order is strictly ascending in the
    lexicographic order of the keys, and a map filled by any sequence of
    [operator[]] writes or of [insert] calls is in that order whatever the
    order of the calls. *)
Theorem Emit_key_order (dict : Dict) (os : ostream) (indent : Z) (isLast : bool)
  (Hindent : (0 <= indent)%Z)
  (Hmap : std_map.ascending dict = true) :
  Emitter.Emit (Some (NodeDict dict)) os indent isLast
  = ((os ++ Emitter.dict_open indent
         ++ Emitter.join (Emitter.blocks (Emitter.indentation indent) indent dict)
         ++ Emitter.dict_close indent isLast)%string, None)
  /\ (forall i first c,
        nth_error dict i = Some (first, Some c) -> IsNone (Some c) = false ->
        exists last,
          nth_error (Emitter.blocks (Emitter.indentation indent) indent dict) i
          = Some (Emitter.indentation indent ++ first ++ ": "
                  ++ Emitter.text_of c (indent + 1) last)%string)
  /\ (forall i j ki kj, i < j ->
        nth_error (std_map.keys dict) i = Some ki ->
        nth_error (std_map.keys dict) j = Some kj ->
        String.ltb ki kj = true)
  /\ (forall ins : list (string * option Node),
        std_map.ascending
          (fold_left (fun m e => std_map.set (fst e) (snd e) m) ins []) = true)
  /\ (forall ins : list (string * option Node),
        std_map.ascending
          (fold_left (fun m e => std_map.insert (fst e) (snd e) m) ins []) = true).
Proof.
  repeat split.
  - now apply Emitter_facts.Emit_dict.
  - intros i first c. apply Emitter_blocks.blocks_entry.
  - now apply std_map_facts.ascending_nth.
  - intros ins. now apply Emitter_blocks.ascending_of_sets.
  - intros ins. now apply Emitter_blocks.ascending_of_inserts.
Qed.

Lemma Emit_key_order_witness :
  Emitter.Emit (Some (NodeDict dict_b_a)) EmptyString 0 true
  = (("a: '2'" ++ nl ++ "b: '1'" ++ nl)%string, None).
Proof.
  refine (eq_trans (proj1 (Emit_key_order dict_b_a EmptyString 0 true _ _)) _).
  - lia.
  - reflexivity.
  - reflexivity.
Defined.

(** Either insertion order gives the same text, [a] before [b]. *)
Lemma Emit_a_before_b :
  Emitter.Emit (Some (NodeDict dict_b_a)) EmptyString 0 true
  = (("a: '2'" ++ nl ++ "b: '1'" ++ nl)%string, None)
  /\ Emitter.Emit (Some (NodeDict dict_a_b)) EmptyString 0 true
     = (("a: '2'" ++ nl ++ "b: '1'" ++ nl)%string, None).
Proof. split; reflexivity. Qed.

(** C8.  An entry whose value is null or None-typed contributes the empty
    text to the emitted mapping: its block is empty, the loop leaves the
    stream as it found it, and when the entry is not the last one the
    text is the text of the mapping without it. *)
Theorem Emit_skips_None (dict : Dict) (os : ostream) (indent : Z) (isLast : bool)
  (Hindent : (0 <= indent)%Z) :
  Emitter.Emit (Some (NodeDict dict)) os indent isLast
  = ((os ++ Emitter.dict_open indent
         ++ Emitter.join (Emitter.blocks (Emitter.indentation indent) indent dict)
         ++ Emitter.dict_close indent isLast)%string, None)
  /\ length (Emitter.blocks (Emitter.indentation indent) indent dict) = length dict
  /\ (forall i first second,
        nth_error dict i = Some (first, second) -> IsNone second = true ->
        nth_error (Emitter.blocks (Emitter.indentation indent) indent dict) i
        = Some EmptyString)
  /\ (forall first second (rest : Dict) os',
        IsNone second = true ->
        Emitter.dict_loop Emitter.Emit_node (Emitter.indentation indent) indent
          ((first, second) :: rest) os'
        = Emitter.dict_loop Emitter.Emit_node (Emitter.indentation indent) indent
            rest os')
  /\ (forall (before after : Dict) first second,
        dict = before ++ (first, second) :: after ->
        IsNone second = true -> after <> [] ->
        Emitter.Emit (Some (NodeDict dict)) os indent isLast
        = Emitter.Emit (Some (NodeDict (before ++ after))) os indent isLast).
Proof.
  repeat split.
  - now apply Emitter_facts.Emit_dict.
  - apply Emitter_blocks.blocks_length.
  - intros i first second. apply Emitter_blocks.blocks_None.
  - intros first second rest os' Hn. cbn [Emitter.dict_loop].
    destruct second as [c|]; [|reflexivity]. now rewrite Hn.
  - intros before after first second -> Hn Hafter. unfold Emitter.Emit.
    rewrite !Emitter_facts.Emit_dict by assumption.
    now rewrite Emitter_blocks.blocks_without.
Qed.

Lemma Emit_skips_None_witness :
  Emitter.Emit
    (Some (NodeDict [("a", Some (NodeScalar "1")); ("n", Some NodeNone);
                     ("z", Some (NodeScalar "2"))]))
    EmptyString 0 true
  = (("a: '1'" ++ nl ++ "z: '2'" ++ nl)%string, None).
Proof.
  refine (eq_trans (proj1 (Emit_skips_None
    [("a", Some (NodeScalar "1")); ("n", Some NodeNone); ("z", Some (NodeScalar "2"))]
    EmptyString 0 true _)) _).
  - lia.
  - reflexivity.
Defined.

(** ** The tokenizer *)

Module Parser_facts.
Import Parser.

Lemma Peek_unread (p : t) (i : nat) : Peek p i = nth i (unread_text p) NUL.
Proof. unfold Peek, unread_text. now rewrite nth_skipn. Qed.

Lemma Unread_unread (p : t) : Unread p = length (unread_text p).
Proof. unfold Unread, unread_text. now rewrite length_skipn. Qed.

Lemma unread_moved (n : nat) (p : t) :
  unread_text (moved n p) = skipn n (unread_text p).
Proof.
  unfold unread_text, moved. simpl. rewrite skipn_skipn. f_equal. lia.
Qed.

Lemma moved_0 (p : t) : moved 0 p = p.
Proof. destruct p. unfold moved. simpl. now rewrite !Nat.add_0_r. Qed.

Lemma moved_moved (n m : nat) (p : t) : moved n (moved m p) = moved (m + n) p.
Proof. unfold moved. simpl. f_equal; lia. Qed.

Lemma Skip_1_plain (p : t) :
  Peek p 0 <> LF -> Skip 1 p = moved 1 p.
Proof.
  intros H. unfold Skip, moved. simpl. unfold advance.
  destruct (Ascii.eqb_spec (Peek p 0) LF) as [E|_]; [contradiction|].
  simpl. f_equal. lia.
Qed.

Lemma Unread_Skip (n : nat) (p : t) : Unread (Skip n p) = Unread p - n.
Proof.
  unfold Skip, Unread. simpl.
  assert (H : forall k i q, buffer (Skip_loop k i q) = buffer q
                            /\ readPos (Skip_loop k i q) = readPos q).
  { induction k as [|k IH]; intros i q; simpl; [auto|].
    destruct (IH (S i) (advance (Peek q i) q)) as [-> ->].
    unfold advance. destruct (Peek q i =? LF)%char; auto. }
  destruct (H n 0 p) as [-> ->]. lia.
Qed.

Lemma skip_while_Unread cond : forall turns p,
  Unread (skip_while cond turns p) <= Unread p.
Proof.
  induction turns as [|turns IH]; intros p; simpl; [lia|].
  destruct ((0 <? Unread p) && cond (Peek p 0)); [|lia].
  etransitivity; [apply IH|]. rewrite Unread_Skip. lia.
Qed.

(** A comment takes at least its [#]. *)
Lemma skip_comment_Unread (p : t) :
  Unread (skip_comment p) <= Unread p - 1.
Proof.
  unfold skip_comment.
  set (p1 := Skip 1 p).
  set (p2 := skip_while in_comment (Unread p1) p1).
  set (p3 := if (Peek p2 0 =? DQUOTE)%char
             then skip_while in_comment_quote (Unread (Skip 1 p2)) (Skip 1 p2)
             else p2).
  assert (H1 : Unread p1 = Unread p - 1) by apply Unread_Skip.
  assert (H2 : Unread p2 <= Unread p1) by apply skip_while_Unread.
  assert (H3 : Unread p3 <= Unread p2).
  { unfold p3. destruct (Peek p2 0 =? DQUOTE)%char; [|lia].
    etransitivity; [apply skip_while_Unread|]. rewrite Unread_Skip. lia. }
  destruct (0 <? Unread p3); [rewrite Unread_Skip|]; lia.
Qed.

(** The loop of [SkipToNextToken] never needs more turns than there are
    characters left. *)
Lemma SkipToNextToken_loop_turns : forall t1 t2 p,
  Unread p <= t1 -> Unread p <= t2 ->
  SkipToNextToken_loop t1 p = SkipToNextToken_loop t2 p.
Proof.
  induction t1 as [|t1 IH]; intros t2 p H1 H2.
  - destruct t2; simpl; [reflexivity|].
    destruct (Nat.ltb_spec 0 (Unread p)); [lia | reflexivity].
  - destruct t2 as [|t2]; simpl.
    + destruct (Nat.ltb_spec 0 (Unread p)); [lia | reflexivity].
    + destruct (Nat.ltb_spec 0 (Unread p)); [|reflexivity].
      destruct (is_blank (Peek p 0)).
      * apply IH; rewrite Unread_Skip; lia.
      * destruct (Peek p 0 =? HASH)%char; [|reflexivity].
        pose proof (skip_comment_Unread p). apply IH; lia.
Qed.

Lemma SkipToNextToken_turns (turns : nat) (p : t) :
  Unread p <= turns -> SkipToNextToken_loop turns p = SkipToNextToken p.
Proof.
  intros H. unfold SkipToNextToken. now apply SkipToNextToken_loop_turns.
Qed.

(** A run of characters that keep a [skip_while] going and none of which
    is a newline moves the cursor by its length. *)
Lemma skip_while_run (cond : ascii -> bool)
  (Hline : forall c, cond c = true -> c <> LF) (run : list ascii) :
  forall (p : t) (turns : nat) (stop : list ascii),
    unread_text p = run ++ stop ->
    forallb cond run = true ->
    match stop with
    | [] => True
    | c :: _ => cond c = false
    end ->
    length run <= turns ->
    skip_while cond turns p = moved (length run) p.
Proof.
  induction run as [|c run IH]; intros p turns stop Htext Hrun Hstop Hturns.
  - simpl in *. rewrite moved_0. destruct turns; [reflexivity|]. simpl.
    rewrite Peek_unread, Unread_unread, Htext.
    destruct stop as [|d stop]; simpl; [reflexivity|]. now rewrite Hstop.
  - simpl in Hrun. apply andb_true_iff in Hrun as [Hc Hrun].
    destruct turns as [|turns]; [simpl in Hturns; lia|]. simpl.
    assert (HP : Peek p 0 = c) by (rewrite Peek_unread, Htext; reflexivity).
    rewrite Unread_unread, Htext, HP. simpl. rewrite Hc.
    rewrite Skip_1_plain by (rewrite HP; now apply Hline).
    rewrite (IH (moved 1 p) turns stop); auto.
    + rewrite moved_moved. reflexivity.
    + rewrite unread_moved, Htext. reflexivity.
    + simpl in Hturns. lia.
Qed.

Lemma in_comment_line (c : ascii) : in_comment c = true -> c <> LF.
Proof.
  unfold in_comment. intros H ->. discriminate.
Qed.

(** A comment whose text holds a second [#] ends right after it. *)
Lemma skip_comment_second_hash (p : t) (body rest : list ascii) :
  unread_text p = HASH :: body ++ HASH :: rest ->
  forallb in_comment body = true ->
  skip_comment p = moved (length body + 2) p.
Proof.
  intros Htext Hbody. unfold skip_comment.
  assert (HP : Peek p 0 = HASH) by (rewrite Peek_unread, Htext; reflexivity).
  rewrite Skip_1_plain by (rewrite HP; discriminate).
  assert (H1 : unread_text (moved 1 p) = body ++ HASH :: rest)
    by (rewrite unread_moved, Htext; reflexivity).
  rewrite (skip_while_run in_comment in_comment_line body (moved 1 p)
             (Unread (moved 1 p)) (HASH :: rest) H1 Hbody eq_refl)
    by (rewrite Unread_unread, H1, length_app; lia).
  rewrite moved_moved.
  assert (H2 : unread_text (moved (1 + length body) p) = HASH :: rest).
  { rewrite unread_moved, Htext. simpl.
    rewrite skipn_app, skipn_all, Nat.sub_diag. reflexivity. }
  remember (moved (1 + length body) p) as q eqn:Hq.
  assert (HPq : Peek q 0 = HASH) by (rewrite Peek_unread, H2; reflexivity).
  assert (HUq : Unread q = S (length rest))
    by (rewrite Unread_unread, H2; reflexivity).
  rewrite HPq. change (HASH =? DQUOTE)%char with false. cbv iota.
  rewrite HUq. change (0 <? S (length rest)) with true. cbv iota.
  rewrite Skip_1_plain by (rewrite HPq; discriminate).
  subst q. rewrite moved_moved. f_equal. lia.
Qed.

Lemma in_comment_quote_line (c : ascii) : in_comment_quote c = true -> c <> LF.
Proof.
  unfold in_comment_quote. intros H ->. discriminate.
Qed.

(** A comment whose text holds a double quote first runs on to the next
    double quote, whatever [#] lies between the two, and ends right after
    it. *)
Lemma skip_comment_quoted (p : t) (body quoted rest : list ascii) :
  unread_text p = HASH :: body ++ DQUOTE :: quoted ++ DQUOTE :: rest ->
  forallb in_comment body = true ->
  forallb in_comment_quote quoted = true ->
  skip_comment p = moved (length body + length quoted + 3) p.
Proof.
  intros Htext Hbody Hquoted. unfold skip_comment.
  assert (HP : Peek p 0 = HASH) by (rewrite Peek_unread, Htext; reflexivity).
  rewrite Skip_1_plain by (rewrite HP; discriminate).
  assert (H1 : unread_text (moved 1 p)
               = body ++ DQUOTE :: quoted ++ DQUOTE :: rest)
    by (rewrite unread_moved, Htext; reflexivity).
  rewrite (skip_while_run in_comment in_comment_line body (moved 1 p)
             (Unread (moved 1 p)) (DQUOTE :: quoted ++ DQUOTE :: rest)
             H1 Hbody eq_refl)
    by (rewrite Unread_unread, H1, length_app; lia).
  rewrite moved_moved.
  assert (H2 : unread_text (moved (1 + length body) p)
               = DQUOTE :: quoted ++ DQUOTE :: rest).
  { rewrite unread_moved, Htext. simpl.
    rewrite skipn_app, skipn_all, Nat.sub_diag. reflexivity. }
  remember (moved (1 + length body) p) as q eqn:Hq.
  assert (HPq : Peek q 0 = DQUOTE) by (rewrite Peek_unread, H2; reflexivity).
  rewrite HPq. change (DQUOTE =? DQUOTE)%char with true. cbv iota.
  rewrite Skip_1_plain by (rewrite HPq; discriminate).
  assert (H3 : unread_text (moved 1 q) = quoted ++ DQUOTE :: rest)
    by (rewrite unread_moved, H2; reflexivity).
  rewrite (skip_while_run in_comment_quote in_comment_quote_line quoted
             (moved 1 q) (Unread (moved 1 q)) (DQUOTE :: rest)
             H3 Hquoted eq_refl)
    by (rewrite Unread_unread, H3, length_app; lia).
  rewrite moved_moved.
  assert (H4 : unread_text (moved (1 + length quoted) q) = DQUOTE :: rest).
  { rewrite unread_moved, H2. simpl.
    rewrite skipn_app, skipn_all, Nat.sub_diag. reflexivity. }
  remember (moved (1 + length quoted) q) as r eqn:Hr.
  assert (HPr : Peek r 0 = DQUOTE) by (rewrite Peek_unread, H4; reflexivity).
  assert (HUr : Unread r = S (length rest))
    by (rewrite Unread_unread, H4; reflexivity).
  rewrite HUr. change (0 <? S (length rest)) with true. cbv iota.
  rewrite Skip_1_plain by (rewrite HPr; discriminate).
  subst r q. rewrite !moved_moved. f_equal. lia.
Qed.

(** *** The loop of [Tokenize] consumes input on every turn *)

#[local] Arguments Get : simpl never.
#[local] Arguments Skip : simpl never.
#[local] Arguments Peek : simpl never.
#[local] Arguments Unread : simpl never.
#[local] Arguments push_token : simpl never.

Lemma Unread_Get (p : t) : Unread (snd (Get p)) = Unread p - 1.
Proof.
  unfold Get, Unread, advance. cbn.
  destruct (Peek p 0 =? LF)%char; cbn; lia.
Qed.

Lemma Unread_push_token ty val (p : t) : Unread (push_token ty val p) = Unread p.
Proof. reflexivity. Qed.

Lemma Peek_push_token ty val (p : t) i : Peek (push_token ty val p) i = Peek p i.
Proof. reflexivity. Qed.

Lemma quoted_loop_Unread start : forall turns val p,
  Unread (snd (quoted_loop start turns val p)) <= Unread p.
Proof.
  induction turns as [|turns IH]; intros val p; cbn [quoted_loop snd]; [lia|].
  destruct ((1 <? Unread p)
            && ((Peek p 0 =? BACKSLASH)%char || negb (Peek p 1 =? start)%char));
    [|cbn [snd]; lia].
  pose proof (Unread_Get p) as HG.
  destruct (Get p) as [c q]. simpl in HG.
  destruct ((Peek p 0 =? LF)%char || (Peek p 0 =? CR)%char).
  - etransitivity; [apply IH|].
    destruct ((c =? CR)%char && (Peek q 0 =? LF)%char);
      [rewrite Unread_Skip|]; lia.
  - etransitivity; [apply IH|]. lia.
Qed.

Lemma unquoted_loop_Unread : forall turns val p,
  Unread (snd (unquoted_loop turns val p)) <= Unread p.
Proof.
  induction turns as [|turns IH]; intros val p; cbn [unquoted_loop snd]; [lia|].
  destruct ((0 <? Unread p) && negb (ends_unquoted (Peek p 0))); [|cbn [snd]; lia].
  pose proof (Unread_Get p) as HG.
  destruct (Get p) as [c q]. simpl in HG.
  etransitivity; [apply IH|]. lia.
Qed.

(** An unquoted scalar that starts on a character other than its
    terminators takes that character. *)
Lemma unquoted_loop_progress (p : t) :
  0 < Unread p -> ends_unquoted (Peek p 0) = false ->
  Unread (snd (unquoted_loop (Unread p) EmptyString p)) < Unread p.
Proof.
  intros Hpos Hc. destruct (Unread p) as [|n] eqn:E; [lia|].
  cbn [unquoted_loop]. rewrite E, Hc. cbn [Nat.ltb Nat.leb negb andb].
  pose proof (Unread_Get p) as HG.
  destruct (Get p) as [c q]. simpl in HG.
  pose proof (unquoted_loop_Unread n (push_back EmptyString c) q). lia.
Qed.

Lemma unquoted_loop_stopped (p : t) :
  ends_unquoted (Peek p 0) = true ->
  unquoted_loop (Unread p) EmptyString p = (EmptyString, p).
Proof.
  intros Hc. destruct (Unread p) as [|n] eqn:E; [reflexivity|].
  cbn [unquoted_loop]. now rewrite Hc, andb_false_r.
Qed.

(** The inner loops take at most one turn per character left as well. *)
Lemma skip_while_turns cond : forall t1 t2 p,
  Unread p <= t1 -> Unread p <= t2 ->
  skip_while cond t1 p = skip_while cond t2 p.
Proof.
  induction t1 as [|t1 IH]; intros t2 p H1 H2.
  - destruct t2; cbn [skip_while]; [reflexivity|].
    destruct (Nat.ltb_spec 0 (Unread p)); [lia | reflexivity].
  - destruct t2 as [|t2]; cbn [skip_while];
      destruct (Nat.ltb_spec 0 (Unread p)); try lia; try reflexivity.
    destruct (cond (Peek p 0)); [|reflexivity]. cbn [andb].
    apply IH; rewrite Unread_Skip; lia.
Qed.

Lemma unquoted_loop_turns : forall t1 t2 val p,
  Unread p <= t1 -> Unread p <= t2 ->
  unquoted_loop t1 val p = unquoted_loop t2 val p.
Proof.
  induction t1 as [|t1 IH]; intros t2 val p H1 H2.
  - destruct t2; cbn [unquoted_loop]; [reflexivity|].
    destruct (Nat.ltb_spec 0 (Unread p)); [lia | reflexivity].
  - destruct t2 as [|t2]; cbn [unquoted_loop];
      destruct (Nat.ltb_spec 0 (Unread p)); try lia; try reflexivity.
    destruct (negb (ends_unquoted (Peek p 0))); [|reflexivity]. cbn [andb].
    pose proof (Unread_Get p) as HG.
    destruct (Get p) as [c q]. cbn [snd] in HG.
    apply IH; lia.
Qed.

Lemma quoted_loop_turns start : forall t1 t2 val p,
  Unread p <= t1 -> Unread p <= t2 ->
  quoted_loop start t1 val p = quoted_loop start t2 val p.
Proof.
  induction t1 as [|t1 IH]; intros t2 val p H1 H2.
  - destruct t2; cbn [quoted_loop]; [reflexivity|].
    destruct (Nat.ltb_spec 1 (Unread p)); [lia | reflexivity].
  - destruct t2 as [|t2]; cbn [quoted_loop];
      destruct (Nat.ltb_spec 1 (Unread p)); try lia; try reflexivity.
    destruct ((Peek p 0 =? BACKSLASH)%char || negb (Peek p 1 =? start)%char);
      [|reflexivity]. cbn [andb].
    pose proof (Unread_Get p) as HG.
    destruct (Get p) as [c q]. cbn [snd] in HG.
    destruct ((Peek p 0 =? LF)%char || (Peek p 0 =? CR)%char).
    + destruct ((c =? CR)%char && (Peek q 0 =? LF)%char);
        apply IH; rewrite ?Unread_Skip; lia.
    + apply IH; lia.
Qed.

Lemma store_scalar_Unread val (p : t) : Unread (store_scalar val p) <= Unread p.
Proof.
  unfold store_scalar.
  destruct ((0 <? Unread p) && (Peek p 0 =? COLON)%char);
    rewrite Unread_push_token, Peek_push_token;
    (destruct ((0 <? Unread p)
               && ((Peek p 0 =? COLON)%char || (Peek p 0 =? COMMA)%char));
     [rewrite Unread_Skip|]); rewrite ?Unread_push_token; lia.
Qed.

Lemma store_scalar_colon val (p : t) :
  0 < Unread p -> Peek p 0 = COLON ->
  Unread (store_scalar val p) < Unread p.
Proof.
  intros Hpos Hc. unfold store_scalar. rewrite Hc.
  apply Nat.ltb_lt in Hpos. rewrite Hpos. simpl.
  rewrite Unread_push_token, Peek_push_token, Hpos, Hc. simpl.
  rewrite Unread_Skip, Unread_push_token.
  apply Nat.ltb_lt in Hpos. lia.
Qed.

Lemma scan_quoted_Unread (p : t) val q :
  0 < Unread p -> scan_quoted p = Ret (val, q) -> Unread q < Unread p.
Proof.
  intros Hpos. unfold scan_quoted.
  pose proof (Unread_Get p) as HG.
  destruct (Get p) as [start p1]. simpl in HG.
  destruct (negb (Peek p1 0 =? start)%char).
  - pose proof (quoted_loop_Unread start (Unread p1) EmptyString p1) as HQ.
    destruct (quoted_loop start (Unread p1) EmptyString p1) as [v p2].
    simpl in HQ.
    destruct (0 <? Unread p2).
    + pose proof (Unread_Get p2) as HG2.
      destruct (Get p2) as [c p3]. simpl in HG2.
      destruct (Unread p3 =? 0); simpl; [discriminate|].
      intros H. injection H as _ <-. rewrite Unread_Skip. lia.
    + destruct (Unread p2 =? 0); simpl; [discriminate|].
      intros H. injection H as _ <-. rewrite Unread_Skip. lia.
  - simpl. intros H. injection H as _ <-. rewrite Unread_Skip. lia.
Qed.

Lemma SkipToNextToken_loop_Unread : forall turns p,
  Unread (SkipToNextToken_loop turns p) <= Unread p.
Proof.
  induction turns as [|turns IH]; intros p; simpl; [lia|].
  destruct (0 <? Unread p); [|lia].
  destruct (is_blank (Peek p 0)).
  - etransitivity; [apply IH|]. rewrite Unread_Skip. lia.
  - destruct (Peek p 0 =? HASH)%char; [|lia].
    etransitivity; [apply IH|]. pose proof (skip_comment_Unread p). lia.
Qed.

(** Where [SkipToNextToken] stops with input left, a token starts. *)
Lemma SkipToNextToken_loop_stops : forall turns p,
  Unread p <= turns ->
  0 < Unread (SkipToNextToken_loop turns p) ->
  is_blank (Peek (SkipToNextToken_loop turns p) 0) = false
  /\ (Peek (SkipToNextToken_loop turns p) 0 =? HASH)%char = false.
Proof.
  induction turns as [|turns IH]; intros p Hturns; simpl; [lia|].
  destruct (Nat.ltb_spec 0 (Unread p)); [|lia].
  destruct (is_blank (Peek p 0)) eqn:Hb.
  - apply IH. rewrite Unread_Skip. lia.
  - destruct (Peek p 0 =? HASH)%char eqn:Hh; [|auto].
    apply IH. pose proof (skip_comment_Unread p). lia.
Qed.

Lemma scan_scalar_Unread (p q : t) :
  0 < Unread p ->
  is_blank (Peek p 0) = false ->
  (Peek p 0 =? HASH)%char = false ->
  (Peek p 0 =? "]")%char = false ->
  (Peek p 0 =? "}")%char = false ->
  scan_scalar p = Ret q ->
  Unread q < Unread p.
Proof.
  intros Hpos Hb Hh Hl Hr. unfold scan_scalar.
  destruct ((Peek p 0 =? QUOTE)%char || (Peek p 0 =? DQUOTE)%char).
  - destruct (scan_quoted p) as [[val p1]|e] eqn:E; simpl; [|discriminate].
    intros H. injection H as <-.
    pose proof (scan_quoted_Unread p val p1 Hpos E).
    pose proof (store_scalar_Unread val p1). lia.
  - simpl. intros H. injection H as <-.
    destruct (ends_unquoted (Peek p 0)) eqn:He.
    + rewrite (unquoted_loop_stopped p He). simpl.
      apply store_scalar_colon; [exact Hpos|].
      unfold ends_unquoted, is_blank in *.
      destruct (Ascii.eqb_spec (Peek p 0) COLON) as [->|_]; [reflexivity|].
      rewrite Hh, Hl, Hr in He.
      destruct (Peek p 0 =? LF)%char, (Peek p 0 =? COMMA)%char;
        rewrite ?orb_true_r in Hb; simpl in *; discriminate.
    + pose proof (unquoted_loop_progress p Hpos He).
      pose proof (store_scalar_Unread
                    (fst (unquoted_loop (Unread p) EmptyString p))
                    (snd (unquoted_loop (Unread p) EmptyString p))).
      lia.
Qed.

(** The loop of [Tokenize] never needs more turns than there are
    characters left, so the count it is started with does not decide its
    result. *)
Lemma Tokenize_loop_turns : forall t1 t2 p,
  Unread p <= t1 -> Unread p <= t2 ->
  Tokenize_loop t1 p = Tokenize_loop t2 p.
Proof.
  induction t1 as [|t1 IH]; intros t2 p H1 H2.
  - destruct t2; simpl; [reflexivity|].
    destruct (Nat.ltb_spec 0 (Unread p)); [lia | reflexivity].
  - destruct t2 as [|t2]; simpl.
    + destruct (Nat.ltb_spec 0 (Unread p)); [lia | reflexivity].
    + destruct (Nat.ltb_spec 0 (Unread p)) as [Hpos|]; [|reflexivity].
      pose proof (SkipToNextToken_loop_Unread (Unread p) p) as Hle.
      pose proof (SkipToNextToken_loop_stops (Unread p) p (Nat.le_refl _)) as Hstop.
      fold (SkipToNextToken p) in Hle, Hstop.
      set (q := SkipToNextToken p) in *.
      destruct (Nat.eqb_spec (Unread q) 0) as [|Hq]; [reflexivity|].
      destruct (Hstop ltac:(lia)) as [Hb Hh].
      destruct (Peek q 0 =? "[")%char.
      { apply IH; rewrite Unread_push_token, Unread_Skip; lia. }
      destruct (Peek q 0 =? "]")%char eqn:Hl.
      { apply IH; rewrite Unread_push_token, Unread_Skip; lia. }
      destruct (Peek q 0 =? "{")%char.
      { apply IH; rewrite Unread_push_token, Unread_Skip; lia. }
      destruct (Peek q 0 =? "}")%char eqn:Hr.
      { apply IH; rewrite Unread_push_token, Unread_Skip; lia. }
      destruct (scan_scalar q) as [q'|e] eqn:E; simpl; [|reflexivity].
      pose proof (scan_scalar_Unread q q' ltac:(lia) Hb Hh Hl Hr E).
      apply IH; lia.
Qed.

End Parser_facts.

(** C10 (as amended).  A comment does not always run to the end of the
    line: when its text holds a second [#] before any newline or double
    quote, the scanner stops right after that [#], so that what follows
    is scanned as ordinary input, by [SkipToNextToken] and by the loop of
    [Tokenize] alike.  When a double quote comes first, the scanner stops
    there too, but only to run on to the next double quote of the line,
    whatever [#] lies between the two, and the comment ends right after
    that second quote. *)
Theorem comment_ends_at_second_hash (p : Parser.t) (body rest : list ascii)
  (Htext : skipn (Parser.readPos p) (Parser.buffer p) = HASH :: body ++ HASH :: rest)
  (Hbody : forallb Parser.in_comment body = true) :
  let p' := Parser.mk (Parser.buffer p) (Parser.readPos p + (length body + 2))
                      (Parser.line p) (Parser.column p + (length body + 2))
                      (Parser.tokens p) in
  Parser.skip_comment p = p'
  /\ skipn (Parser.readPos p') (Parser.buffer p') = rest
  /\ Parser.SkipToNextToken p = Parser.SkipToNextToken p'
  /\ (forall turns,
        Parser.Tokenize_loop (S turns) p = Parser.Tokenize_loop (S turns) p')
  /\ Parser.Tokenize_loop (Parser.Unread p) p
     = Parser.Tokenize_loop (Parser.Unread p') p'
  /\ (forall (q : Parser.t) (before quoted after : list ascii),
        Parser.unread_text q
        = HASH :: before ++ DQUOTE :: quoted ++ DQUOTE :: after ->
        forallb Parser.in_comment before = true ->
        forallb Parser.in_comment_quote quoted = true ->
        Parser.skip_comment q
        = Parser.moved (length before + length quoted + 3) q).
Proof.
  intros p'.
  assert (Hquote : forall (q : Parser.t) (before quoted after : list ascii),
            Parser.unread_text q
            = HASH :: before ++ DQUOTE :: quoted ++ DQUOTE :: after ->
            forallb Parser.in_comment before = true ->
            forallb Parser.in_comment_quote quoted = true ->
            Parser.skip_comment q
            = Parser.moved (length before + length quoted + 3) q)
    by (intros q before quoted after; apply Parser_facts.skip_comment_quoted).
  assert (Hskip : Parser.skip_comment p = p')
    by now apply (Parser_facts.skip_comment_second_hash p body rest).
  assert (Hrest : skipn (Parser.readPos p') (Parser.buffer p') = rest).
  { change (Parser.unread_text (Parser.moved (length body + 2) p) = rest).
    rewrite Parser_facts.unread_moved. unfold Parser.unread_text.
    rewrite Htext. replace (length body + 2) with (S (length body + 1)) by lia.
    simpl. rewrite skipn_app.
    rewrite (skipn_all2 body) by lia.
    replace (length body + 1 - length body) with 1 by lia. reflexivity. }
  assert (Hlen : Parser.Unread p = S (length body + 1 + length rest)).
  { rewrite Parser_facts.Unread_unread. unfold Parser.unread_text.
    rewrite Htext. simpl. rewrite length_app. simpl. lia. }
  assert (Hlen' : Parser.Unread p' = length rest).
  { rewrite Parser_facts.Unread_unread. unfold Parser.unread_text.
    now rewrite Hrest. }
  assert (Hnext : Parser.SkipToNextToken p = Parser.SkipToNextToken p').
  { unfold Parser.SkipToNextToken at 1. rewrite Hlen. simpl.
    rewrite Hlen. simpl.
    rewrite Parser_facts.Peek_unread. unfold Parser.unread_text.
    rewrite Htext. simpl. rewrite Hskip.
    apply Parser_facts.SkipToNextToken_turns. lia. }
  assert (Hturn : forall turns,
            Parser.Tokenize_loop (S turns) p = Parser.Tokenize_loop (S turns) p').
  { intros turns. simpl. rewrite Hlen, Hlen', Hnext. simpl.
    destruct rest as [|c rest]; [|reflexivity].
    simpl. unfold Parser.SkipToNextToken. rewrite Hlen'. simpl.
    now rewrite Hlen'. }
  split; [exact Hskip|]. split; [exact Hrest|]. split; [exact Hnext|].
  split; [exact Hturn|]. split; [|exact Hquote].
  rewrite Hlen, Hturn.
  apply Parser_facts.Tokenize_loop_turns; lia.
Qed.

Lemma comment_ends_at_second_hash_witness :
  Parser.SkipToNextToken (Parser.of_string "# one # k: v")
  = Parser.SkipToNextToken
      (Parser.mk (list_ascii_of_string "# one # k: v") 7 1 7 []).
Proof.
  apply (comment_ends_at_second_hash (Parser.of_string "# one # k: v")
           (list_ascii_of_string " one ") (list_ascii_of_string " k: v"));
    reflexivity.
Defined.

(** C10 as stated fails on a line whose comment holds a double quote
    before the second [#]: on [# a 'q # x' k: v], written here with
    single quotes where the text has double quotes, the scanner stops at
    the first double quote, runs on to the second one without looking at
    the [#] between them, and resumes at byte 11, after the closing
    quote.  The text after the second [#], from byte 8 on, is not
    tokenized as ordinary input: the document holds the key [k] only. *)
Lemma quoted_hash_stays_in_comment :
  Parser.skip_comment (Parser.make text_quoted_hash)
  = Parser.mk text_quoted_hash 11 1 11 []
  /\ Parser.SkipToNextToken (Parser.make text_quoted_hash)
     <> Parser.SkipToNextToken (Parser.mk text_quoted_hash 8 1 8 [])
  /\ Parser.Parse (Parser.make text_quoted_hash)
     = Parser.Done (NodeDict [("k", Some (NodeScalar "v"))])
  /\ Checked.Parse (Parser.make text_quoted_hash)
     = Parser.Done (NodeDict [("k", Some (NodeScalar "v"))]).
Proof.
  assert (H1 : Parser.skip_comment (Parser.make text_quoted_hash)
               = Parser.mk text_quoted_hash 11 1 11 [])
    by (vm_compute; reflexivity).
  assert (H2 : Parser.SkipToNextToken (Parser.make text_quoted_hash)
               = Parser.mk text_quoted_hash 12 1 12 [])
    by (vm_compute; reflexivity).
  assert (H3 : Parser.SkipToNextToken (Parser.mk text_quoted_hash 8 1 8 [])
               = Parser.mk text_quoted_hash 9 1 9 [])
    by (vm_compute; reflexivity).
  assert (H4 : Parser.Parse (Parser.make text_quoted_hash)
               = Parser.Done (NodeDict [("k", Some (NodeScalar "v"))]))
    by (vm_compute; reflexivity).
  assert (H5 : Checked.Parse (Parser.make text_quoted_hash)
               = Parser.Done (NodeDict [("k", Some (NodeScalar "v"))]))
    by (vm_compute; reflexivity).
  repeat split; auto.
  rewrite H2, H3. discriminate.
Qed.

(** With the comment running to the end of the line the input below would
    be an empty mapping; the text after the second [#] is a key and a
    value. *)
Lemma comment_second_hash_parsed :
  Parser.Parse (Parser.of_string "# one # k: v")
  = Parser.Done (NodeDict [("k", Some (NodeScalar "v"))]).
Proof. vm_compute. reflexivity. Qed.

(** ** Recursive descent *)

Module Parse_facts.
Import Parser.

(** One turn of the loop over a mapping, at a key. *)
Lemma dict_loop_key (depth : nat) (t : Token.t) (next : iterator) (dict : Dict) :
  Token.type t = Token.KEY ->
  dict_loop (S depth) (t :: next) dict
  = match Parse_at depth next with
    | Done (node, tok) =>
      dict_loop depth tok (std_map.insert (Token.value t) (Some node) dict)
    | Raised e => Raised e
    | Undefined => Undefined
    | Exhausted => Exhausted
    end.
Proof.
  intros H. simpl. rewrite H. reflexivity.
Qed.

(** The loop never changes an entry the mapping already holds. *)
Lemma dict_loop_keeps : forall depth tok dict dict' tok',
  dict_loop depth tok dict = Done (dict', tok') ->
  forall k w, std_map.find k dict = Some w -> std_map.find k dict' = Some w.
Proof.
  induction depth as [|depth IH]; intros tok dict dict' tok' H k w Hk;
    [discriminate|].
  destruct tok as [|t next].
  - simpl in H. injection H as <- _. exact Hk.
  - simpl in H.
    destruct (Token.Type_eqb (Token.type t) Token.DICT_END).
    + injection H as <- _. exact Hk.
    + destruct (negb (Token.Type_eqb (Token.type t) Token.KEY)); [discriminate|].
      destruct (Parse_at depth next) as [[node tok]| | |]; try discriminate.
      eapply IH; [exact H|].
      now apply std_map_facts.find_insert_kept.
Qed.

(** The counter of the recursive descent is never exhausted when it starts
    at [enough] of the number of tokens, and every call that returns has
    moved the iterator forward. *)
Lemma Parse_bounds : forall depth,
  (forall tok, 1 <= depth -> 2 * length tok <= depth ->
     Parse_at depth tok <> Exhausted
     /\ forall node rest, Parse_at depth tok = Done (node, rest) ->
          length rest < length tok)
  /\ (forall tok list, 2 * length tok + 1 <= depth ->
        array_loop depth tok list <> Exhausted
        /\ forall list' rest, array_loop depth tok list = Done (list', rest) ->
             length rest <= length tok)
  /\ (forall tok dict, 2 * length tok + 1 <= depth ->
        dict_loop depth tok dict <> Exhausted
        /\ forall dict' rest, dict_loop depth tok dict = Done (dict', rest) ->
             length rest <= length tok).
Proof.
  induction depth as [|depth (IHp & IHa & IHd)].
  - repeat split; intros; simpl in *; lia.
  - assert (Htl : forall l : iterator, length (tl l) <= length l)
      by (intros [|? ?]; simpl; lia).
    split; [|split].
    + intros [|t next] _ Hlen; simpl; [split; [discriminate|intros; discriminate]|].
      simpl in Hlen.
      destruct (Token.type t).
      * destruct (IHa next [] ltac:(lia)) as [Hne Hrest].
        destruct (array_loop depth next []) as [[list tok]| | |];
          try contradiction; split; try discriminate.
        intros node rest H. injection H as _ <-.
        specialize (Hrest _ _ eq_refl). specialize (Htl tok). lia.
      * split; [discriminate | intros; discriminate].
      * destruct (IHd next [] ltac:(lia)) as [Hne Hrest].
        destruct (dict_loop depth next []) as [[dict tok]| | |];
          try contradiction; split; try discriminate.
        intros node rest H. injection H as _ <-.
        specialize (Hrest _ _ eq_refl). specialize (Htl tok). lia.
      * split; [discriminate | intros; discriminate].
      * split; [discriminate | intros; discriminate].
      * split; [discriminate|]. intros node rest H. injection H as _ <-. lia.
    + intros [|t next] list Hlen; simpl.
      { split; [discriminate|]. intros ? ? H. injection H as _ <-. simpl. lia. }
      simpl in Hlen.
      destruct (Token.Type_eqb (Token.type t) Token.ARRAY_END).
      { split; [discriminate|]. intros ? ? H. injection H as _ <-. simpl. lia. }
      destruct (IHp (t :: next) ltac:(lia) ltac:(simpl; lia)) as [Hne Hrest].
      destruct (Parse_at depth (t :: next)) as [[node tok]| | |];
        try contradiction; try (split; [discriminate | intros; discriminate]).
      specialize (Hrest _ _ eq_refl). simpl in Hrest.
      destruct (IHa tok (list ++ [Some node]) ltac:(lia)) as [Hne' Hrest'].
      split; [exact Hne'|]. intros list' rest H.
      specialize (Hrest' _ _ H). lia.
    + intros [|t next] dict Hlen; simpl.
      { split; [discriminate|]. intros ? ? H. injection H as _ <-. simpl. lia. }
      simpl in Hlen.
      destruct (Token.Type_eqb (Token.type t) Token.DICT_END).
      { split; [discriminate|]. intros ? ? H. injection H as _ <-. simpl. lia. }
      destruct (negb (Token.Type_eqb (Token.type t) Token.KEY)).
      { split; [discriminate | intros; discriminate]. }
      destruct (IHp next ltac:(lia) ltac:(lia)) as [Hne Hrest].
      destruct (Parse_at depth next) as [[node tok]| | |];
        try contradiction; try (split; [discriminate | intros; discriminate]).
      specialize (Hrest _ _ eq_refl).
      destruct (IHd tok (std_map.insert (Token.value t) (Some node) dict)
                  ltac:(lia)) as [Hne' Hrest'].
      split; [exact Hne'|]. intros dict' rest H.
      specialize (Hrest' _ _ H). lia.
Qed.

Lemma Parse_enough (tok : iterator) :
  Parse_at (enough (length tok)) tok <> Exhausted.
Proof.
  apply (proj1 (Parse_bounds (enough (length tok)))); unfold enough; lia.
Qed.

(** [Parse] returns a node, throws, or runs into undefined behaviour; the
    counter does not decide its result. *)
Lemma Parse_not_Exhausted (p : t) : Parse p <> Exhausted.
Proof.
  unfold Parse. destruct (Tokenize (FixEncoding p)) as [q|e]; [|discriminate].
  pose proof (Parse_enough (tokens q)) as H.
  destruct (Parse_at (enough (length (tokens q))) (tokens q)) as [[node rest]| | |];
    try discriminate. contradiction.
Qed.

End Parse_facts.

(** C1 (as amended).  When a key occurs in a mapping for the first time,
    the value parsed there is the value the finished mapping holds under
    that key, whatever follows at the same nesting level, later
    occurrences of the key included: [insert] leaves an existing entry as
    it is, and so does the rest of the loop. *)
Theorem first_occurrence_wins (depth : nat) (t : Token.t)
  (next tok tok' : Parser.iterator) (dict dict' : Dict) (node : Node)
  (Hkey : Token.type t = Token.KEY)
  (Hfirst : std_map.find (Token.value t) dict = None)
  (Hvalue : Parser.Parse_at depth next = Parser.Done (node, tok))
  (Hloop : Parser.dict_loop (S depth) (t :: next) dict = Parser.Done (dict', tok')) :
  std_map.find (Token.value t) dict' = Some (Some node)
  /\ (forall k w, std_map.find k dict = Some w -> std_map.find k dict' = Some w).
Proof.
  split.
  - rewrite Parse_facts.dict_loop_key, Hvalue in Hloop by exact Hkey.
    eapply Parse_facts.dict_loop_keeps; [exact Hloop|].
    now apply std_map_facts.find_insert_fresh.
  - now apply (Parse_facts.dict_loop_keeps _ _ _ _ _ Hloop).
Qed.

Lemma first_occurrence_wins_witness :
  std_map.find "a" [("a", Some (NodeScalar "1"))] = Some (Some (NodeScalar "1")).
Proof.
  refine (proj1 (first_occurrence_wins 4
    (Token.mk Token.KEY "a" 1 1 1) (tl tokens_a_1_a_2) (tl (tl tokens_a_1_a_2))
    [Token.mk Token.DICT_END "" 9 2 4] [] [("a", Some (NodeScalar "1"))]
    (NodeScalar "1") _ _ _ _)); reflexivity.
Defined.

(** C1 as stated fails on a document that gives the key [a] twice: the
    mapping holds the first value, not the last. *)
Lemma duplicate_key_keeps_first :
  Parser.Parse (Parser.of_string ("a: 1" ++ nl ++ "a: 2"))
  = Parser.Done (NodeDict [("a", Some (NodeScalar "1"))])
  /\ Parser.Parse (Parser.of_string ("a: 1" ++ nl ++ "a: 2"))
     <> Parser.Done (NodeDict [("a", Some (NodeScalar "2"))]).
Proof.
  assert (H : Parser.Parse (Parser.of_string ("a: 1" ++ nl ++ "a: 2"))
              = Parser.Done (NodeDict [("a", Some (NodeScalar "1"))]))
    by (vm_compute; reflexivity).
  split; [exact H | rewrite H; discriminate].
Qed.

(** * Further properties *)

(** ** Copies *)

Module Copy_shape.

Lemma solid_not_None (n : Node) : solid n -> IsNone (Some n) = false.
Proof. destruct n; simpl; auto; contradiction. Qed.

Lemma solid_well_formed (n : Node) : solid n -> well_formed n.
Proof.
  induction n as [|val|val IH|val IH] using Node_ind; simpl; auto.
  - induction IH as [|p l Hp _ IHl]; simpl; auto.
    intros [H1 H2]. split; [|auto]. destruct p; simpl in *; auto.
  - intros [Ha H]. split; [exact Ha|]. clear Ha.
    induction IH as [|[k p] l Hp _ IHl]; simpl in *; auto.
    destruct H as [H1 H2]. split; [|auto]. destruct p; simpl in *; auto.
Qed.

(** A subsequence of an ascending map is ascending. *)
Lemma ascending_filter {V : Type} (f : string * V -> bool) (m : std_map.t V) :
  std_map.ascending m = true -> std_map.ascending (filter f m) = true.
Proof.
  induction m as [|[k v] m IH]; intros Hm; [reflexivity|].
  pose proof (std_map_facts.ascending_cons _ _ _ Hm) as Hm'.
  simpl. destruct (f (k, v)); [|auto].
  specialize (IH Hm').
  pose proof (std_map_facts.ascending_head_lt _ _ _ Hm) as Hlt.
  destruct (filter f m) as [|[k1 v1] m1] eqn:E; [reflexivity|].
  change (String.ltb k k1 && std_map.ascending ((k1, v1) :: m1) = true).
  rewrite IH, andb_true_r. apply string_ltb_lt.
  rewrite Forall_forall in Hlt.
  apply (Hlt (k1, v1)).
  assert (Hin : In (k1, v1) (filter f m)) by (rewrite E; now left).
  now apply filter_In in Hin.
Qed.

Lemma ascending_map_values {V W : Type} (g : V -> W) (m : std_map.t V) :
  std_map.ascending (map (fun e => (fst e, g (snd e))) m) = std_map.ascending m.
Proof.
  induction m as [|[k v] m IH]; [reflexivity|].
  destruct m as [|[k1 v1] m]; [reflexivity|].
  change (String.ltb k k1
          && std_map.ascending (map (fun e => (fst e, g (snd e))) ((k1, v1) :: m))
          = String.ltb k k1 && std_map.ascending ((k1, v1) :: m)).
  now rewrite IH.
Qed.

(** What [Copy] returns holds no None-typed node and no null pointer. *)
Lemma Copy_solid (n : Node) :
  well_formed n -> IsNone (Some n) = false -> solid (Copy n).
Proof.
  induction n as [|val|val IH|val IH] using Node_ind; intros Hwf Hn.
  - discriminate.
  - exact I.
  - cbn [Copy solid]. rewrite Copy_facts.list_loop_spec. simpl in Hwf |- *.
    induction IH as [|p l Hp _ IHl]; simpl; [exact I|].
    destruct Hwf as [Hwp Hwl]. unfold kept at 1.
    destruct (IsNone p) eqn:E; simpl; [now apply IHl|].
    destruct p as [c|]; [|discriminate]. simpl in *. split; auto.
  - cbn [Copy solid]. destruct Hwf as [Hasc Hwf].
    rewrite Copy_facts.dict_loop_spec by (auto; constructor).
    simpl. split.
    + unfold copy_entry. rewrite ascending_map_values.
      now apply ascending_filter.
    + clear Hasc. induction IH as [|[k p] l Hp _ IHl]; simpl; [exact I|].
      destruct Hwf as [Hwp Hwl]. unfold kept_entry at 1, kept. cbn [snd].
      destruct (IsNone p) eqn:E; simpl; [now apply IHl|].
      destruct p as [c|]; [|discriminate]. simpl in *. split; auto.
Qed.

(** On such a tree [Copy] changes nothing. *)
Lemma Copy_of_solid (n : Node) : solid n -> Copy n = n.
Proof.
  induction n as [|val|val IH|val IH] using Node_ind; intros Hs.
  - contradiction.
  - reflexivity.
  - cbn [Copy]. rewrite Copy_facts.list_loop_spec. simpl in Hs |- *. f_equal.
    induction IH as [|p l Hp _ IHl]; simpl; [reflexivity|].
    destruct Hs as [Hp' Hl]. destruct p as [c|]; [|contradiction].
    unfold kept at 1. rewrite (solid_not_None c Hp'). simpl in *.
    rewrite (Hp Hp'). f_equal. now apply IHl.
  - cbn [Copy]. destruct Hs as [Hasc Hs].
    rewrite Copy_facts.dict_loop_spec by (auto; constructor).
    simpl. f_equal. clear Hasc.
    induction IH as [|[k p] l Hp _ IHl]; simpl; [reflexivity|].
    destruct Hs as [Hp' Hl]. destruct p as [c|]; [|contradiction].
    unfold kept_entry at 1, kept. cbn [snd]. rewrite (solid_not_None c Hp').
    simpl in *. unfold copy_entry at 1. simpl.
    rewrite (Hp Hp'). f_equal. now apply IHl.
Qed.

End Copy_shape.

(** X1.  A copy holds no None-typed node and no null pointer at any depth
    (unless the node copied is itself None-typed, whose copy is None-typed),
    and copying a copy changes nothing. *)
Theorem Copy_idempotent (n : Node) (Hwf : well_formed n) :
  (IsNone (Some n) = false -> solid (Node_copy n))
  /\ (IsNone (Some n) = true -> Node_copy n = NodeNone)
  /\ Node_copy (Node_copy n) = Node_copy n.
Proof.
  unfold Node_copy. repeat split.
  - now apply Copy_shape.Copy_solid.
  - destruct n; simpl; intros H; try discriminate; reflexivity.
  - destruct (IsNone (Some n)) eqn:E.
    + destruct n; try discriminate. reflexivity.
    + apply Copy_shape.Copy_of_solid. now apply Copy_shape.Copy_solid.
Qed.

Lemma Copy_idempotent_witness :
  Node_copy (Node_copy (NodeList [Some NodeNone; None;
                                  Some (NodeDict [("k", Some NodeNone)])]))
  = Node_copy (NodeList [Some NodeNone; None;
                         Some (NodeDict [("k", Some NodeNone)])]).
Proof.
  apply (Copy_idempotent (NodeList [Some NodeNone; None;
                                    Some (NodeDict [("k", Some NodeNone)])])).
  simpl. repeat split.
Defined.

(** ** What the tokenizer leaves behind *)

Module Tokenize_facts.
Import Parser.

#[local] Arguments Get : simpl never.
#[local] Arguments Skip : simpl never.
#[local] Arguments Peek : simpl never.
#[local] Arguments Unread : simpl never.
#[local] Arguments push_token : simpl never.

Lemma same_refl (p : t) : same_tokens p p.
Proof. split; reflexivity. Qed.

Lemma same_trans (p q r : t) : same_tokens p q -> same_tokens q r -> same_tokens p r.
Proof. intros [H1 H2] [H3 H4]. split; congruence. Qed.

Lemma same_advance c (p : t) : same_tokens p (advance c p).
Proof. unfold advance. destruct (c =? LF)%char; split; reflexivity. Qed.

Lemma same_Get (p : t) : same_tokens p (snd (Get p)).
Proof.
  unfold Get. cbn [snd]. destruct (same_advance (Peek p 0) p) as [H1 H2].
  split; simpl; assumption.
Qed.

Lemma same_Skip_loop : forall n i p, same_tokens p (Skip_loop n i p).
Proof.
  induction n as [|n IH]; intros i p; simpl; [apply same_refl|].
  eapply same_trans; [apply same_advance | apply IH].
Qed.

Lemma same_Skip n (p : t) : same_tokens p (Skip n p).
Proof.
  unfold Skip. destruct (same_Skip_loop n 0 p) as [H1 H2]. split; simpl; assumption.
Qed.

Lemma same_skip_while cond : forall turns p, same_tokens p (skip_while cond turns p).
Proof.
  induction turns as [|turns IH]; intros p; cbn [skip_while]; [apply same_refl|].
  destruct ((0 <? Unread p) && cond (Peek p 0)); [|apply same_refl].
  eapply same_trans; [apply same_Skip | apply IH].
Qed.

Lemma same_skip_comment (p : t) : same_tokens p (skip_comment p).
Proof.
  unfold skip_comment.
  set (p1 := Skip 1 p).
  set (p2 := skip_while in_comment (Unread p1) p1).
  set (p3 := if (Peek p2 0 =? DQUOTE)%char
             then skip_while in_comment_quote (Unread (Skip 1 p2)) (Skip 1 p2)
             else p2).
  assert (H1 : same_tokens p p1) by apply same_Skip.
  assert (H2 : same_tokens p1 p2) by apply same_skip_while.
  assert (H3 : same_tokens p2 p3).
  { unfold p3. destruct (Peek p2 0 =? DQUOTE)%char; [|apply same_refl].
    eapply same_trans; [apply same_Skip | apply same_skip_while]. }
  assert (H : same_tokens p p3) by (eauto using same_trans).
  destruct (0 <? Unread p3); [|exact H].
  eapply same_trans; [exact H | apply same_Skip].
Qed.

Lemma same_SkipToNextToken_loop : forall turns p,
  same_tokens p (SkipToNextToken_loop turns p).
Proof.
  induction turns as [|turns IH]; intros p; cbn [SkipToNextToken_loop];
    [apply same_refl|].
  destruct (0 <? Unread p); [|apply same_refl].
  destruct (is_blank (Peek p 0)).
  - eapply same_trans; [apply same_Skip | apply IH].
  - destruct (Peek p 0 =? HASH)%char; [|apply same_refl].
    eapply same_trans; [apply same_skip_comment | apply IH].
Qed.

Lemma same_quoted_loop start : forall turns val p,
  same_tokens p (snd (quoted_loop start turns val p)).
Proof.
  induction turns as [|turns IH]; intros val p; cbn [quoted_loop];
    [apply same_refl|].
  destruct ((1 <? Unread p)
            && ((Peek p 0 =? BACKSLASH)%char || negb (Peek p 1 =? start)%char));
    [|apply same_refl].
  pose proof (same_Get p) as HG. destruct (Get p) as [c q]. cbn [snd] in HG.
  destruct ((Peek p 0 =? LF)%char || (Peek p 0 =? CR)%char).
  - eapply same_trans; [|apply IH].
    destruct ((c =? CR)%char && (Peek q 0 =? LF)%char); [|exact HG].
    eapply same_trans; [exact HG | apply same_Skip].
  - eapply same_trans; [exact HG | apply IH].
Qed.

Lemma same_unquoted_loop : forall turns val p,
  same_tokens p (snd (unquoted_loop turns val p)).
Proof.
  induction turns as [|turns IH]; intros val p; cbn [unquoted_loop];
    [apply same_refl|].
  destruct ((0 <? Unread p) && negb (ends_unquoted (Peek p 0)));
    [|apply same_refl].
  pose proof (same_Get p) as HG. destruct (Get p) as [c q]. cbn [snd] in HG.
  eapply same_trans; [exact HG | apply IH].
Qed.

(** A quoted scalar either is read without a token being stored or ends
    the input. *)
Lemma scan_quoted_outcome (p : t) :
  match scan_quoted p with
  | Ret (val, q) => same_tokens p q
  | Throw e => is_end_of_file e
  end.
Proof.
  unfold scan_quoted.
  pose proof (same_Get p) as HG. destruct (Get p) as [start p1]. cbn [snd] in HG.
  destruct (negb (Peek p1 0 =? start)%char).
  - pose proof (same_quoted_loop start (Unread p1) EmptyString p1) as HQ.
    destruct (quoted_loop start (Unread p1) EmptyString p1) as [v p2].
    cbn [snd] in HQ.
    assert (H2 : same_tokens p p2) by (eauto using same_trans).
    destruct (0 <? Unread p2).
    + pose proof (same_Get p2) as HG2. destruct (Get p2) as [c p3].
      cbn [snd] in HG2.
      destruct (Unread p3 =? 0); cbn [bind fst snd].
      * repeat eexists.
      * eapply same_trans; [|apply same_Skip]. eauto using same_trans.
    + destruct (Unread p2 =? 0); cbn [bind fst snd].
      * repeat eexists.
      * eapply same_trans; [exact H2 | apply same_Skip].
  - cbn [bind fst snd]. eapply same_trans; [exact HG | apply same_Skip].
Qed.

(** Storing a scalar appends one token, a key or a scalar. *)
Lemma store_scalar_tokens val (p : t) :
  buffer (store_scalar val p) = buffer p
  /\ exists tok,
       tokens (store_scalar val p) = tokens p ++ [tok]
       /\ (Token.type tok = Token.KEY \/ Token.type tok = Token.SCALAR).
Proof.
  unfold store_scalar.
  set (ty := if (0 <? Unread p) && (Peek p 0 =? COLON)%char
             then Token.KEY else Token.SCALAR).
  assert (E : (if (0 <? Unread p) && (Peek p 0 =? COLON)%char
               then push_token Token.KEY (detail.Unescape val) p
               else push_token Token.SCALAR (detail.Unescape val) p)
              = push_token ty (detail.Unescape val) p)
    by (unfold ty; destruct ((0 <? Unread p) && (Peek p 0 =? COLON)%char);
        reflexivity).
  rewrite E. set (q := push_token ty (detail.Unescape val) p).
  assert (Hq : buffer q = buffer p
               /\ tokens q = tokens p
                    ++ [Token.mk ty (detail.Unescape val)
                                 (readPos p) (line p) (column p)])
    by (split; reflexivity).
  assert (Hty : ty = Token.KEY \/ ty = Token.SCALAR)
    by (unfold ty; destruct ((0 <? Unread p) && (Peek p 0 =? COLON)%char); auto).
  destruct Hq as [Hb Ht].
  destruct ((0 <? Unread q)
            && ((Peek q 0 =? COLON)%char || (Peek q 0 =? COMMA)%char)).
  - destruct (same_Skip 1 q) as [Hb' Ht']. rewrite Hb', Ht', Hb, Ht.
    split; [reflexivity|]. eexists. split; [reflexivity | exact Hty].
  - rewrite Hb, Ht. split; [reflexivity|].
    eexists. split; [reflexivity | exact Hty].
Qed.

Lemma scan_scalar_outcome (p : t) :
  match scan_scalar p with
  | Ret q => buffer q = buffer p /\ exists tok, tokens q = tokens p ++ [tok]
  | Throw e => is_end_of_file e
  end.
Proof.
  unfold scan_scalar.
  destruct ((Peek p 0 =? QUOTE)%char || (Peek p 0 =? DQUOTE)%char).
  - pose proof (scan_quoted_outcome p) as H.
    destruct (scan_quoted p) as [[val q]|e]; cbn [bind fst snd]; [|exact H].
    destruct H as [Hb Ht].
    destruct (store_scalar_tokens val q) as (Hb' & tok & Htok & _).
    rewrite Hb', Htok, Hb, Ht. eauto.
  - cbn [bind].
    pose proof (same_unquoted_loop (Unread p) EmptyString p) as [Hb Ht].
    destruct (store_scalar_tokens
                (fst (unquoted_loop (Unread p) EmptyString p))
                (snd (unquoted_loop (Unread p) EmptyString p)))
      as (Hb' & tok & Htok & _).
    rewrite Hb', Htok, Hb, Ht. eauto.
Qed.

(** The loop of [Tokenize] keeps the buffer and the tokens it found, only
    appends to them, raises nothing but the end-of-file error, and returns
    only once the whole buffer is read. *)
Lemma Tokenize_loop_outcome : forall turns p,
  Unread p <= turns ->
  match Tokenize_loop turns p with
  | Ret q =>
    buffer q = buffer p /\ Unread q = 0
    /\ exists new, tokens q = tokens p ++ new
  | Throw e => is_end_of_file e
  end.
Proof.
  induction turns as [|turns IH]; intros p Hturns; cbn [Tokenize_loop].
  - repeat split; [lia|]. exists []. now rewrite app_nil_r.
  - destruct (Nat.ltb_spec 0 (Unread p)) as [Hpos|];
      [|repeat split; [lia|]; exists []; now rewrite app_nil_r].
    pose proof (Parser_facts.SkipToNextToken_loop_Unread (Unread p) p) as Hle.
    pose proof (Parser_facts.SkipToNextToken_loop_stops (Unread p) p
                  (Nat.le_refl _)) as Hstop.
    pose proof (same_SkipToNextToken_loop (Unread p) p) as [Hb Ht].
    fold (SkipToNextToken p) in Hle, Hstop, Hb, Ht.
    set (q := SkipToNextToken p) in *.
    destruct (Nat.eqb_spec (Unread q) 0) as [Hz|Hq].
    { repeat split; auto. exists []. now rewrite app_nil_r. }
    destruct (Hstop ltac:(lia)) as [Hblank Hhash].
    assert (Hstep : forall ty,
              match Tokenize_loop turns (push_token ty EmptyString (Skip 1 q)) with
              | Ret q' =>
                buffer q' = buffer p /\ Unread q' = 0
                /\ exists new, tokens q' = tokens p ++ new
              | Throw e => is_end_of_file e
              end).
    { intros ty.
      specialize (IH (push_token ty EmptyString (Skip 1 q))).
      rewrite Parser_facts.Unread_push_token, Parser_facts.Unread_Skip in IH.
      specialize (IH ltac:(lia)).
      destruct (Tokenize_loop turns (push_token ty EmptyString (Skip 1 q)))
        as [q'|e]; [|exact IH].
      destruct IH as (Hb' & Hu & new & Hnew).
      destruct (same_Skip 1 q) as [Hbs Hts].
      repeat split; auto.
      - rewrite Hb'. change (buffer (Skip 1 q) = buffer p).
        now rewrite Hbs.
      - rewrite Hnew.
        change (tokens (push_token ty EmptyString (Skip 1 q)))
          with (tokens (Skip 1 q)
                ++ [Token.mk ty EmptyString (readPos (Skip 1 q))
                             (line (Skip 1 q)) (column (Skip 1 q))]).
        rewrite Hts, Ht, <- app_assoc. eauto. }
    destruct (Peek q 0 =? "[")%char; [apply Hstep|].
    destruct (Peek q 0 =? "]")%char eqn:Hl; [apply Hstep|].
    destruct (Peek q 0 =? "{")%char; [apply Hstep|].
    destruct (Peek q 0 =? "}")%char eqn:Hr; [apply Hstep|].
    pose proof (scan_scalar_outcome q) as Hs.
    destruct (scan_scalar q) as [q1|e] eqn:E; cbn [bind]; [|exact Hs].
    pose proof (Parser_facts.scan_scalar_Unread q q1 ltac:(lia)
                  Hblank Hhash Hl Hr E) as Hlt.
    specialize (IH q1 ltac:(lia)).
    destruct (Tokenize_loop turns q1) as [q'|e']; [|exact IH].
    destruct IH as (Hb' & Hu & new & Hnew).
    destruct Hs as (Hb1 & tok & Htok).
    repeat split; auto.
    + congruence.
    + rewrite Hnew, Htok, Ht, <- app_assoc. eauto.
Qed.

End Tokenize_facts.

(** ** What the recursive descent returns *)

Module Parse_shape.
Import Parser.

Lemma each_child_present_app (P : Node -> Prop) (l : List) (n : Node) :
  each_child_present P l -> P n -> each_child_present P (l ++ [Some n]).
Proof.
  induction l as [|p l IH]; simpl; [auto|].
  intros [H1 H2] Hn. split; auto.
Qed.

Lemma each_entry_present_insert (P : Node -> Prop) key (n : Node) (m : Dict) :
  each_entry_present P m -> P n ->
  each_entry_present P (std_map.insert key (Some n) m).
Proof.
  induction m as [|[k p] m IH]; simpl; [auto|].
  intros [H1 H2] Hn.
  destruct (String.compare key k); simpl; auto.
Qed.

(** Every tree the recursive descent builds is solid. *)
Lemma Parse_solid : forall depth,
  (forall tok node rest, Parse_at depth tok = Done (node, rest) -> solid node)
  /\ (forall tok list list' rest,
        array_loop depth tok list = Done (list', rest) ->
        each_child_present solid list -> each_child_present solid list')
  /\ (forall tok dict dict' rest,
        dict_loop depth tok dict = Done (dict', rest) ->
        std_map.ascending dict = true /\ each_entry_present solid dict ->
        std_map.ascending dict' = true /\ each_entry_present solid dict').
Proof.
  induction depth as [|depth (IHp & IHa & IHd)].
  - repeat split; intros; discriminate.
  - split; [|split].
    + intros [|t next] node rest H; simpl in H; [discriminate|].
      destruct (Token.type t); try discriminate.
      * destruct (array_loop depth next []) as [[list tok]| | |] eqn:E;
          try discriminate.
        injection H as <- _. simpl. eapply IHa; [exact E | exact I].
      * destruct (dict_loop depth next []) as [[dict tok]| | |] eqn:E;
          try discriminate.
        injection H as <- _. simpl. eapply IHd; [exact E|]. simpl. auto.
      * injection H as <- _. exact I.
    + intros [|t next] list list' rest H Hl; simpl in H.
      { injection H as <- _. exact Hl. }
      destruct (Token.Type_eqb (Token.type t) Token.ARRAY_END).
      { injection H as <- _. exact Hl. }
      destruct (Parse_at depth (t :: next)) as [[node tok]| | |] eqn:E;
        try discriminate.
      eapply IHa; [exact H|].
      apply each_child_present_app; [exact Hl|]. eapply IHp. exact E.
    + intros [|t next] dict dict' rest H Hd; simpl in H.
      { injection H as <- _. exact Hd. }
      destruct (Token.Type_eqb (Token.type t) Token.DICT_END).
      { injection H as <- _. exact Hd. }
      destruct (negb (Token.Type_eqb (Token.type t) Token.KEY)); [discriminate|].
      destruct (Parse_at depth next) as [[node tok]| | |] eqn:E;
        try discriminate.
      eapply IHd; [exact H|]. destruct Hd as [Ha He]. split.
      * now apply std_map_facts.ascending_insert.
      * apply each_entry_present_insert; [exact He|]. eapply IHp. exact E.
Qed.

(** The recursive descent raises nothing but its two errors. *)
Lemma Parse_raises : forall depth,
  (forall tok e, Parse_at depth tok = Raised e -> is_parse_error e)
  /\ (forall tok list e, array_loop depth tok list = Raised e -> is_parse_error e)
  /\ (forall tok dict e, dict_loop depth tok dict = Raised e -> is_parse_error e).
Proof.
  assert (Hmk : forall msg pos line col,
            msg = "key expected" \/ msg = "Unexpected character" ->
            is_parse_error (AltError (mkError msg pos line col)))
    by (intros; repeat eexists; assumption).
  induction depth as [|depth (IHp & IHa & IHd)].
  - repeat split; intros; discriminate.
  - split; [|split].
    + intros [|t next] e H; simpl in H; [discriminate|].
      destruct (Token.type t); try discriminate;
        try (injection H as <-; apply Hmk; auto).
      * destruct (array_loop depth next []) as [[list tok]| | |] eqn:E;
          try discriminate.
        injection H as <-. eapply IHa. exact E.
      * destruct (dict_loop depth next []) as [[dict tok]| | |] eqn:E;
          try discriminate.
        injection H as <-. eapply IHd. exact E.
    + intros [|t next] list e H; simpl in H; [discriminate|].
      destruct (Token.Type_eqb (Token.type t) Token.ARRAY_END); [discriminate|].
      destruct (Parse_at depth (t :: next)) as [[node tok]| | |] eqn:E;
        try discriminate.
      * eapply IHa. exact H.
      * injection H as <-. eapply IHp. exact E.
    + intros [|t next] dict e H; simpl in H; [discriminate|].
      destruct (Token.Type_eqb (Token.type t) Token.DICT_END); [discriminate|].
      destruct (negb (Token.Type_eqb (Token.type t) Token.KEY)).
      { injection H as <-. apply Hmk. auto. }
      destruct (Parse_at depth next) as [[node tok]| | |] eqn:E;
        try discriminate.
      * eapply IHd. exact H.
      * injection H as <-. eapply IHp. exact E.
Qed.

(** A call that returns before the end of the tokens has not looked at
    what comes after the position it returns. *)
Lemma Parse_prefix : forall depth,
  (forall tok node rest extra,
     Parse_at depth tok = Done (node, rest) -> rest <> [] ->
     Parse_at depth (tok ++ extra) = Done (node, rest ++ extra))
  /\ (forall tok list list' rest extra,
        array_loop depth tok list = Done (list', rest) -> rest <> [] ->
        array_loop depth (tok ++ extra) list = Done (list', rest ++ extra))
  /\ (forall tok dict dict' rest extra,
        dict_loop depth tok dict = Done (dict', rest) -> rest <> [] ->
        dict_loop depth (tok ++ extra) dict = Done (dict', rest ++ extra)).
Proof.
  assert (Htl : forall (l extra : iterator), tl l <> [] ->
                  l <> [] /\ tl (l ++ extra) = tl l ++ extra)
    by (intros [|x l] extra H; [contradiction | split; [discriminate|reflexivity]]).
  assert (Hloop0 : forall depth tok (list list' : List) rest,
            array_loop depth tok list = Done (list', rest) -> rest <> [] -> tok <> []).
  { intros depth tok list list' rest H Hr ->. destruct depth; simpl in H;
      [discriminate|]. injection H as _ <-. contradiction. }
  assert (Hloop1 : forall depth tok (dict dict' : Dict) rest,
            dict_loop depth tok dict = Done (dict', rest) -> rest <> [] -> tok <> []).
  { intros depth tok dict dict' rest H Hr ->. destruct depth; simpl in H;
      [discriminate|]. injection H as _ <-. contradiction. }
  induction depth as [|depth (IHp & IHa & IHd)].
  - repeat split; intros; discriminate.
  - split; [|split].
    + intros [|t next] node rest extra H Hr; simpl in H |- *; [discriminate|].
      destruct (Token.type t); try discriminate.
      * destruct (array_loop depth next []) as [[list tok]| | |] eqn:E;
          try discriminate.
        injection H as <- <-. destruct (Htl tok extra Hr) as [Hne Heq].
        rewrite (IHa _ _ _ _ extra E Hne). now rewrite Heq.
      * destruct (dict_loop depth next []) as [[dict tok]| | |] eqn:E;
          try discriminate.
        injection H as <- <-. destruct (Htl tok extra Hr) as [Hne Heq].
        rewrite (IHd _ _ _ _ extra E Hne). now rewrite Heq.
      * now injection H as <- <-.
    + intros [|t next] list list' rest extra H Hr; simpl in H.
      { injection H as _ <-. contradiction. }
      cbn [app]. simpl.
      destruct (Token.Type_eqb (Token.type t) Token.ARRAY_END).
      { now injection H as <- <-. }
      destruct (Parse_at depth (t :: next)) as [[node tok]| | |] eqn:E;
        try discriminate.
      pose proof (Hloop0 _ _ _ _ _ H Hr) as Hne.
      pose proof (IHp _ _ _ extra E Hne) as E'. cbn [app] in E'.
      rewrite E'. now apply IHa.
    + intros [|t next] dict dict' rest extra H Hr; simpl in H.
      { injection H as _ <-. contradiction. }
      cbn [app]. simpl.
      destruct (Token.Type_eqb (Token.type t) Token.DICT_END).
      { now injection H as <- <-. }
      destruct (negb (Token.Type_eqb (Token.type t) Token.KEY)); [discriminate|].
      destruct (Parse_at depth next) as [[node tok]| | |] eqn:E;
        try discriminate.
      pose proof (Hloop1 _ _ _ _ _ H Hr) as Hne.
      rewrite (IHp _ _ _ extra E Hne). now apply IHd.
Qed.

(** A value that opens with [DICT_START] is a mapping. *)
Lemma Parse_at_mapping depth t (next : iterator) node rest :
  Token.type t = Token.DICT_START ->
  Parse_at depth (t :: next) = Done (node, rest) ->
  exists dict, node = NodeDict dict.
Proof.
  intros Ht H. destruct depth as [|depth]; [discriminate|].
  simpl in H. rewrite Ht in H.
  destruct (dict_loop depth next []) as [[dict tok]| | |]; try discriminate.
  injection H as <- _. eauto.
Qed.

End Parse_shape.

(** In the plain model [Parse] on a fresh parser returns a mapping or
    throws one of the three errors. *)
Lemma plain_Parse_outcome (buffer : list ascii) :
  match Parser.Parse (Parser.make buffer) with
  | Parser.Done node => exists dict, node = NodeDict dict
  | Parser.Raised e => Parser.is_end_of_file e \/ Parser.is_parse_error e
  | Parser.Undefined => True
  | Parser.Exhausted => False
  end.
Proof.
  pose proof (Parse_facts.Parse_not_Exhausted (Parser.make buffer)) as Hex.
  unfold Parser.Parse in *.
  set (p := Parser.FixEncoding (Parser.make buffer)) in *.
  assert (Htok : Parser.tokens p = []).
  { unfold p, Parser.FixEncoding, Parser.make. cbn [Parser.buffer].
    destruct buffer as [|b0 [|b1 [|b2 rest]]]; try reflexivity.
    destruct ((b0 =? "239")%char && (b1 =? "187")%char && (b2 =? "191")%char);
      reflexivity. }
  assert (HT : match Parser.Tokenize p with
               | Ret q => exists rest,
                   Parser.tokens q
                   = Token.mk Token.DICT_START EmptyString 0 0 0 :: rest
               | Throw e => Parser.is_end_of_file e
               end).
  { unfold Parser.Tokenize.
    match goal with
    | |- context [Parser.Tokenize_loop ?n ?p0] =>
      pose proof (Tokenize_facts.Tokenize_loop_outcome n p0 (Nat.le_refl _)) as H;
      destruct (Parser.Tokenize_loop n p0) as [q|e]; cbn [bind]; [|exact H]
    end.
    destruct H as (_ & _ & new & Hnew).
    unfold Parser.push_token. cbn [Parser.tokens] in *.
    rewrite Hnew, Htok. cbn [app]. eauto. }
  destruct (Parser.Tokenize p) as [q|e]; [|now left].
  destruct HT as [rest Hq]. rewrite Hq in *.
  set (depth := Parser.enough (length (Token.mk Token.DICT_START EmptyString 0 0 0
                                        :: rest))) in *.
  destruct (Parser.Parse_at depth _) as [[node tok]|e| |] eqn:E;
    [| | exact I | contradiction].
  - eapply Parse_shape.Parse_at_mapping; [|exact E]. reflexivity.
  - right. eapply (proj1 (Parse_shape.Parse_raises depth)). exact E.
Qed.

(** X4.  The tree [Parse] returns holds no None-typed node and no null
    pointer, each of its mappings has its keys in ascending order, and a
    copy of it is equal to it. *)
Theorem Parse_solid_tree (p : Parser.t) (node : Node)
  (Hparsed : Parser.Parse p = Parser.Done node) :
  solid node /\ well_formed node /\ Node_copy node = node.
Proof.
  assert (Hs : solid node).
  { unfold Parser.Parse in Hparsed.
    destruct (Parser.Tokenize (Parser.FixEncoding p)) as [q|e]; [|discriminate].
    destruct (Parser.Parse_at _ (Parser.tokens q)) as [[n tok]| | |] eqn:E;
      try discriminate.
    injection Hparsed as <-.
    eapply (proj1 (Parse_shape.Parse_solid _)). exact E. }
  split; [exact Hs|]. split.
  - now apply Copy_shape.solid_well_formed.
  - now apply Copy_shape.Copy_of_solid.
Qed.

Lemma Parse_solid_tree_witness :
  solid (NodeDict [("a", Some (NodeList [Some (NodeScalar "x");
                                         Some (NodeDict [])]))]).
Proof.
  refine (proj1 (Parse_solid_tree (Parser.of_string "a: [x, {}]") _ _)).
  vm_compute. reflexivity.
Defined.

(** X5.  A call of the recursive descent that returns before the end of
    the token sequence has read one complete value and nothing after it:
    with any tokens appended it returns the same node and leaves the
    iterator at the same token. *)
Theorem Parse_reads_one_value (depth : nat) (tok rest extra : Parser.iterator)
  (node : Node)
  (Hparsed : Parser.Parse_at depth tok = Parser.Done (node, rest))
  (Hrest : rest <> []) :
  Parser.Parse_at depth (tok ++ extra) = Parser.Done (node, rest ++ extra).
Proof.
  now apply (proj1 (Parse_shape.Parse_prefix depth)).
Qed.

Lemma Parse_reads_one_value_witness :
  Parser.Parse_at 3
    ([Token.mk Token.ARRAY_START "" 0 0 0; Token.mk Token.SCALAR "x" 0 0 0;
      Token.mk Token.ARRAY_END "" 0 0 0; Token.mk Token.DICT_END "" 0 0 0]
     ++ [Token.mk Token.SCALAR "y" 0 0 0])
  = Parser.Done (NodeList [Some (NodeScalar "x")],
                 [Token.mk Token.DICT_END "" 0 0 0]
                 ++ [Token.mk Token.SCALAR "y" 0 0 0]).
Proof.
  apply Parse_reads_one_value; [reflexivity | discriminate].
Defined.

(** ** The cursor *)

Module Cursor_facts.
Import Parser.

Lemma Peek_advance c (p : t) i : Peek (advance c p) i = Peek p i.
Proof. unfold advance, Peek. destruct (c =? LF)%char; reflexivity. Qed.

Lemma readPos_advance c (p : t) : readPos (advance c p) = readPos p.
Proof. unfold advance. destruct (c =? LF)%char; reflexivity. Qed.

Lemma Peek_Skip_loop : forall n i p j, Peek (Skip_loop n i p) j = Peek p j.
Proof.
  induction n as [|n IH]; intros i p j; simpl; [reflexivity|].
  now rewrite IH, Peek_advance.
Qed.

Lemma Peek_at_offset n (p : t) i : Peek (at_offset n p) i = Peek p (n + i).
Proof. unfold Peek, at_offset. simpl. f_equal. lia. Qed.

Lemma advance_at_offset c n (p : t) :
  advance c (at_offset n p) = at_offset n (advance c p).
Proof. unfold advance, at_offset. destruct (c =? LF)%char; reflexivity. Qed.

Lemma Skip_loop_at_offset : forall m i n p,
  Skip_loop m i (at_offset n p) = at_offset n (Skip_loop m (n + i) p).
Proof.
  induction m as [|m IH]; intros i n p; simpl; [reflexivity|].
  rewrite Peek_at_offset, advance_at_offset, IH. do 2 f_equal. lia.
Qed.

Lemma Skip_loop_add : forall n m i p,
  Skip_loop (n + m) i p = Skip_loop m (i + n) (Skip_loop n i p).
Proof.
  induction n as [|n IH]; intros m i p; simpl.
  - now rewrite Nat.add_0_r.
  - rewrite IH. f_equal. lia.
Qed.

Lemma Skip_at_offset n (p : t) : Skip n p = at_offset n (Skip_loop n 0 p).
Proof. reflexivity. Qed.

Lemma at_offset_add n m (p : t) :
  at_offset m (at_offset n p) = at_offset (n + m) p.
Proof. unfold at_offset. simpl. f_equal. lia. Qed.

Lemma Skip_add_eq n m (p : t) : Skip (n + m) p = Skip m (Skip n p).
Proof.
  rewrite !Skip_at_offset. rewrite Skip_loop_at_offset, at_offset_add.
  rewrite Skip_loop_add. simpl. now rewrite Nat.add_0_r.
Qed.

Lemma Get_eq (p : t) : Get p = (Peek p 0, Skip 1 p).
Proof.
  unfold Get, Skip. simpl. f_equal. f_equal. lia.
Qed.

Lemma is_blank_not_BOM (c : ascii) : is_blank c = true -> (c =? "239")%char = false.
Proof.
  intros H. destruct (Ascii.eqb_spec c "239"%char) as [->|]; [discriminate|reflexivity].
Qed.

Lemma unread_Skip n (p : t) :
  Parser.unread_text (Skip n p) = skipn n (Parser.unread_text p).
Proof.
  unfold Parser.unread_text.
  destruct (Tokenize_facts.same_Skip n p) as [Hb _]. rewrite Hb.
  rewrite Skip_at_offset. unfold at_offset. cbn [readPos].
  assert (H : forall k i q, readPos (Skip_loop k i q) = readPos q).
  { induction k as [|k IH]; intros i q; simpl; [reflexivity|].
    now rewrite IH, readPos_advance. }
  rewrite H, skipn_skipn. f_equal. lia.
Qed.

(** Over white space and commas [SkipToNextToken] runs to the end. *)
Lemma SkipToNextToken_loop_blank : forall turns p,
  Unread p <= turns ->
  forallb is_blank (Parser.unread_text p) = true ->
  Unread (SkipToNextToken_loop turns p) = 0.
Proof.
  induction turns as [|turns IH]; intros p Hturns Hblank; simpl; [lia|].
  destruct (Nat.ltb_spec 0 (Unread p)) as [Hpos|]; [|lia].
  rewrite Parser_facts.Peek_unread.
  rewrite Parser_facts.Unread_unread in Hpos.
  destruct (Parser.unread_text p) as [|c rest] eqn:E; [simpl in Hpos; lia|].
  simpl in Hblank |- *. apply andb_true_iff in Hblank as [Hc Hrest].
  rewrite Hc. apply IH.
  - rewrite Parser_facts.Unread_Skip. lia.
  - rewrite unread_Skip, E. exact Hrest.
Qed.

End Cursor_facts.

(** X6.  [Skip] composes: skipping [n + m] characters is skipping [n] and
    then [m], with the same position, line and column; and [Get] returns
    the character under the cursor and moves as [Skip(1)] does. *)
Theorem Skip_composes (n m : nat) (p : Parser.t) :
  Parser.Skip (n + m) p = Parser.Skip m (Parser.Skip n p)
  /\ Parser.Get p = (Parser.Peek p 0, Parser.Skip 1 p).
Proof.
  split; [apply Cursor_facts.Skip_add_eq | apply Cursor_facts.Get_eq].
Qed.

(** X8.  A buffer that holds nothing but spaces, tabs, carriage returns,
    newlines and commas, the empty buffer included, parses to the empty
    mapping. *)
Theorem Parse_blank (buffer : list ascii)
  (Hblank : forallb Parser.is_blank buffer = true) :
  Parser.Parse (Parser.make buffer) = Parser.Done (NodeDict []).
Proof.
  assert (Hfix : Parser.FixEncoding (Parser.make buffer) = Parser.make buffer).
  { destruct buffer as [|b0 [|b1 [|b2 l]]]; try reflexivity.
    simpl in Hblank. apply andb_true_iff in Hblank as [H0 _].
    unfold Parser.FixEncoding, Parser.make. cbn [Parser.buffer].
    now rewrite (Cursor_facts.is_blank_not_BOM b0 H0). }
  unfold Parser.Parse. rewrite Hfix. unfold Parser.Tokenize.
  set (p0 := Parser.mk _ _ _ _ _).
  assert (Hloop : exists q, Parser.Tokenize_loop (Parser.Unread p0) p0 = Ret q
                            /\ Parser.tokens q = Parser.tokens p0).
  { destruct (Parser.Unread p0) as [|n] eqn:E; [exists p0; split; reflexivity|].
    cbn [Parser.Tokenize_loop]. rewrite E. cbn [Nat.ltb Nat.leb].
    exists (Parser.SkipToNextToken p0).
    assert (Hz : Parser.Unread (Parser.SkipToNextToken p0) = 0).
    { apply Cursor_facts.SkipToNextToken_loop_blank; [lia|]. exact Hblank. }
    rewrite Hz. split; [reflexivity|].
    apply (Tokenize_facts.same_SkipToNextToken_loop (Parser.Unread p0) p0). }
  destruct Hloop as (q & -> & Hq). cbn [bind].
  unfold Parser.push_token. cbn [Parser.tokens]. rewrite Hq.
  reflexivity.
Qed.

Lemma Parse_blank_witness :
  Parser.Parse (Parser.make [SPACE; LF; COMMA; TAB; CR; LF])
  = Parser.Done (NodeDict []).
Proof.
  apply Parse_blank. reflexivity.
Defined.

(** ** Indexing and conversions together *)

Module Index_facts.

Lemma find_present_set {V : Type} key (v : V) (m : std_map.t V) :
  std_map.find key m = Some v -> std_map.set key v m = m.
Proof.
  induction m as [|[k1 v1] m IH]; simpl; [discriminate|].
  destruct (String.compare key k1) eqn:E; try discriminate.
  - intros H. injection H as ->. reflexivity.
  - intros H. now rewrite IH.
Qed.

Lemma ValueDict_Get_present (val : Dict) key :
  std_map.find key (fst (ValueDict_Get val key)) <> None.
Proof.
  unfold ValueDict_Get. destruct (std_map.find key val) eqn:E; simpl.
  - now rewrite E.
  - now rewrite std_map_facts.find_set_same.
Qed.

End Index_facts.

(** X10.  Indexing a mapping by key keeps its keys in ascending order and
    leaves the key present; a mapping that already holds the key is left
    as it is, so that indexing twice by the same key is indexing once; the
    size grows by one at most. *)
Theorem Dict_index_any (val : Dict) (key : string)
  (Hmap : std_map.ascending val = true) :
  exists val' : Dict,
    Node_at_key (NodeDict val) key = Ret (NodeDict val', ref_entry key)
    /\ std_map.ascending val' = true
    /\ std_map.find key val' <> None
    /\ (std_map.find key val <> None -> val' = val)
    /\ Node_at_key (NodeDict val') key = Ret (NodeDict val', ref_entry key)
    /\ std_map.size val <= std_map.size val' <= S (std_map.size val).
Proof.
  exists (fst (ValueDict_Get val key)).
  assert (Hr : snd (ValueDict_Get val key) = ref_entry key)
    by (unfold ValueDict_Get; destruct (std_map.find key val); reflexivity).
  assert (Hp : std_map.find key (fst (ValueDict_Get val key)) <> None)
    by apply Index_facts.ValueDict_Get_present.
  repeat split.
  - unfold Node_at_key. destruct (ValueDict_Get val key) as [v r].
    simpl in Hr |- *. now rewrite Hr.
  - unfold ValueDict_Get. destruct (std_map.find key val); simpl; [exact Hmap|].
    now apply std_map_facts.ascending_set.
  - exact Hp.
  - intros H. unfold ValueDict_Get.
    destruct (std_map.find key val); [reflexivity | contradiction].
  - unfold Node_at_key, ValueDict_Get at 1.
    destruct (std_map.find key (fst (ValueDict_Get val key))); [reflexivity|].
    contradiction.
  - unfold ValueDict_Get. destruct (std_map.find key val) eqn:E; simpl; [lia|].
    rewrite (std_map_facts.size_set_fresh _ _ _ E). lia.
  - unfold ValueDict_Get. destruct (std_map.find key val) eqn:E; simpl; [lia|].
    apply std_map_facts.size_set_le.
Qed.

Lemma Dict_index_any_witness :
  exists val' : Dict,
    Node_at_key (NodeDict [("b", Some (NodeScalar "1"))]) "a"
    = Ret (NodeDict val', ref_entry "a")
    /\ std_map.ascending val' = true
    /\ std_map.find "a" val' <> None
    /\ (std_map.find "a" [("b", Some (NodeScalar "1"))] <> None ->
        val' = [("b", Some (NodeScalar "1"))])
    /\ Node_at_key (NodeDict val') "a" = Ret (NodeDict val', ref_entry "a")
    /\ std_map.size [("b", Some (NodeScalar "1"))] <= std_map.size val'
       <= S (std_map.size [("b", Some (NodeScalar "1"))]).
Proof.
  apply (Dict_index_any [("b", Some (NodeScalar "1"))] "a").
  reflexivity.
Defined.

(** X11.  Looking up with a default: on the reference that indexing
    returns for a key the mapping does not hold, and on the one it returns
    for a position past the end of a list while the sentinel is None-typed,
    every defaulted conversion returns the default and every strict
    conversion raises [Invalid cast]. *)
Theorem lookup_with_default (none this this' : Node) (r : NodeRef)
  (Habsent :
     (exists val key, this = NodeDict val /\ std_map.find key val = None
                      /\ Node_at_key this key = Ret (this', r))
     \/ (exists val idx, this = NodeList val /\ length val <= idx
                         /\ Node_at this idx = Ret (this', r)
                         /\ IsNone (Some none) = true)) :
  (forall def, ToBool_def (deref_in none this' r) def = Ret def)
  /\ (forall def, ToString_def (deref_in none this' r) def = Ret def)
  /\ (forall (double : Type) (strtod_value : string -> option double) def,
        ToNumber_def double strtod_value (deref_in none this' r) def = Ret def)
  /\ (forall n, deref_in none this' r = Some n ->
        ToBool n = Throw (AltError (Error_msg "Invalid cast"))
        /\ ToString n = Throw (AltError (Error_msg "Invalid cast"))).
Proof.
  assert (H : deref_in none this' r = Some NodeNone).
  { destruct Habsent as [(val & key & -> & Hfind & Hget)
                        |(val & idx & -> & Hlen & Hget & Hnone)].
    - unfold Node_at_key, ValueDict_Get in Hget. rewrite Hfind in Hget.
      injection Hget as <- <-. simpl.
      now rewrite std_map_facts.find_set_same.
    - unfold Node_at, ValueList_Get in Hget.
      apply Nat.leb_le in Hlen. rewrite Hlen in Hget.
      injection Hget as <- <-. simpl.
      destruct none; try discriminate. reflexivity. }
  rewrite H. split; [reflexivity|]. split; [reflexivity|].
  split; [reflexivity|].
  intros n Hn. injection Hn as <-. split; reflexivity.
Qed.

Lemma lookup_with_default_witness :
  ToString_def
    (deref_in static_none (NodeList [Some (NodeScalar "x")]) ref_static_none)
    "8080"
  = Ret "8080".
Proof.
  refine (proj1 (proj2 (lookup_with_default static_none
            (NodeList [Some (NodeScalar "x")]) (NodeList [Some (NodeScalar "x")])
            ref_static_none _)) "8080").
  right. exists [Some (NodeScalar "x")], 3. repeat split. simpl. lia.
Defined.

(** X12.  A node made from a boolean is a scalar that [ToBool()] reads
    back as that boolean, also through the defaulted form, whatever the
    default. *)
Theorem Node_of_bool_ToBool (b def : bool) :
  IsScalar (Some (Node_of_bool b)) = true
  /\ ToBool (Node_of_bool b) = Ret b
  /\ ToBool_def (Some (Node_of_bool b)) def = Ret b
  /\ ToString (Node_of_bool b) = Ret (if b then "true" else "false").
Proof.
  destruct b; repeat split.
Qed.

(** ** Emission of lists and at the root *)

Module Emitter_lists.
Import Emitter.

Lemma list_loop_blocks _indent indent (it : List) : forall os,
  (0 <= indent)%Z ->
  list_loop Emit_node _indent indent it os
  = ((os ++ join (list_blocks _indent indent it))%string, None).
Proof.
  induction it as [|p it IH]; intros os Hind.
  - simpl. now rewrite string_app_nil_r.
  - cbn [list_loop list_blocks join fold_right].
    destruct p as [c|].
    + rewrite Emitter_facts.Emit_node_text by lia. rewrite IH by lia.
      unfold write, join. now rewrite !string_app_assoc.
    + rewrite Emitter_facts.Emit_absent_ok by lia. rewrite IH by lia.
      unfold write, join. now rewrite string_app_nil_r, !string_app_assoc.
Qed.

Lemma text_of_None indent isLast :
  (0 <= indent)%Z -> text_of NodeNone indent isLast = EmptyString.
Proof.
  intros H. unfold text_of. cbn [Emit_node].
  now rewrite Emitter_facts.fill_ok.
Qed.

Lemma list_blocks_None _indent indent (it : List) : forall i p,
  (0 <= indent)%Z ->
  nth_error it i = Some p -> IsNone p = true ->
  nth_error (list_blocks _indent indent it) i = Some _indent.
Proof.
  induction it as [|q it IH]; intros [|i] p Hind Hi Hn; try discriminate;
    simpl in *.
  - injection Hi as ->. destruct p as [c|].
    + destruct c; try discriminate.
      rewrite text_of_None by lia. now rewrite string_app_nil_r.
    + now rewrite string_app_nil_r.
  - eauto.
Qed.

Lemma fill_negative (count : Z) :
  (count < 0)%Z -> std_string_fill count SPACE = Throw std_length_error.
Proof.
  intros H. unfold std_string_fill.
  destruct (Z.ltb_spec count 0); [reflexivity | lia].
Qed.

End Emitter_lists.

(** X13.  Below the root [Emit] returns normally and only appends: the
    stream afterwards is the stream before followed by a text that depends
    on the node, the indentation level and the [isLast] flag, not on what
    the stream held; a reference to a null node appends nothing. *)
Theorem Emit_appends (node : Node) (os : ostream) (indent : Z) (isLast : bool)
  (Hindent : (1 <= indent)%Z) :
  Emitter.Emit (Some node) os indent isLast
  = ((os ++ Emitter.text_of node indent isLast)%string, None)
  /\ Emitter.Emit None os indent isLast = (os, None).
Proof.
  split.
  - now apply Emitter_facts.Emit_node_text.
  - apply Emitter_facts.Emit_absent_ok. lia.
Qed.

Lemma Emit_appends_witness :
  Emitter.Emit (Some (NodeScalar "v")) "k: " 1 true
  = (("k: " ++ Emitter.text_of (NodeScalar "v") 1 true)%string, None).
Proof.
  refine (proj1 (Emit_appends (NodeScalar "v") "k: " 1 true _)). lia.
Defined.

(** X14.  The text of a list below the root is an opening bracket, the
    blocks of its elements in order, each the indentation followed by the
    text of the element, and the closing bracket at the parent's
    indentation, with a comma when the list is not the last sibling.  A
    null or None-typed element is not skipped as in a mapping: it
    contributes the bare indentation. *)
Theorem Emit_list (val : List) (os : ostream) (indent : Z) (isLast : bool)
  (Hindent : (1 <= indent)%Z) :
  Emitter.Emit (Some (NodeList val)) os indent isLast
  = ((os ++ String "[" nl
         ++ Emitter.join (Emitter.list_blocks (Emitter.indentation indent) indent val)
         ++ Emitter.list_close indent isLast)%string, None)
  /\ length (Emitter.list_blocks (Emitter.indentation indent) indent val)
     = length val
  /\ (forall i p, nth_error val i = Some p -> IsNone p = true ->
        nth_error (Emitter.list_blocks (Emitter.indentation indent) indent val) i
        = Some (Emitter.indentation indent)).
Proof.
  repeat split.
  - unfold Emitter.Emit. cbn [Emitter.Emit_node].
    rewrite Emitter_facts.fill_ok by lia.
    rewrite Emitter_lists.list_loop_blocks by lia.
    rewrite Emitter_facts.fill_ok by lia.
    unfold write, Emitter.list_close. now rewrite !string_app_assoc.
  - induction val as [|p val IH]; simpl; [reflexivity | now rewrite IH].
  - intros i p Hi Hn.
    eapply Emitter_lists.list_blocks_None; eauto. lia.
Qed.

Lemma Emit_list_witness :
  Emitter.Emit (Some (NodeList [Some (NodeScalar "x"); Some NodeNone])) "" 1 true
  = ((String "[" nl ++ "  'x'" ++ nl ++ "  " ++ "]" ++ nl)%string, None).
Proof.
  refine (eq_trans (proj1 (Emit_list [Some (NodeScalar "x"); Some NodeNone]
                             "" 1 true _)) _).
  - lia.
  - reflexivity.
Defined.

(** X15.  Emitting a list at indentation level 0, the default of [Emit],
    always ends in [std::length_error]: the bracket and the elements are
    written, and the padding of the closing bracket is asked for with a
    negative length.  With a negative level every call throws before it
    writes anything. *)
Theorem Emit_root_list_throws (val : List) (os : ostream) (isLast : bool) :
  Emitter.Emit (Some (NodeList val)) os 0 isLast
  = ((os ++ String "[" nl
         ++ Emitter.join (Emitter.list_blocks EmptyString 0 val))%string,
     Some std_length_error)
  /\ (forall node indent, (indent < 0)%Z ->
        Emitter.Emit node os indent isLast = (os, Some std_length_error)).
Proof.
  split.
  - unfold Emitter.Emit. cbn [Emitter.Emit_node].
    change (std_string_fill (0 * 2) SPACE) with (Ret EmptyString).
    cbv iota. rewrite Emitter_lists.list_loop_blocks by lia.
    change (std_string_fill ((0 - 1) * 2) SPACE)
      with (@Throw string std_length_error).
    cbv iota. unfold write. now rewrite !string_app_assoc.
  - intros node indent Hneg. unfold Emitter.Emit.
    destruct node as [n|].
    + destruct n; cbn [Emitter.Emit_node];
        now rewrite Emitter_lists.fill_negative by lia.
    + unfold Emitter.Emit_absent.
      now rewrite Emitter_lists.fill_negative by lia.
Qed.

(** ** More on Escape and Unescape *)

Module Escape_facts.
Import detail.

Lemma Unescape_loop_length : forall n str res,
  String.length str <= n ->
  String.length (Unescape_loop str res) <= String.length res + String.length str.
Proof.
  induction n as [|n IH]; intros str res Hn.
  - destruct str; simpl in *; lia.
  - destruct str as [|c it]; [simpl; lia|].
    cbn [Unescape_loop]. simpl in Hn.
    assert (Hpush : forall r x, String.length (push_back r x) = S (String.length r))
      by (intros; unfold push_back; rewrite string_length_app; simpl; lia).
    destruct (c =? BACKSLASH)%char.
    + destruct it as [|c' it']; [rewrite Hpush; simpl; lia|].
      simpl in Hn.
      destruct ((c' =? "n")%char || (c' =? LF)%char);
        [etransitivity; [apply IH; lia|]; rewrite Hpush; simpl; lia|].
      destruct (c' =? "r")%char;
        [etransitivity; [apply IH; lia|]; rewrite Hpush; simpl; lia|].
      destruct ((c' =? QUOTE)%char || (c' =? DQUOTE)%char || (c' =? BACKSLASH)%char);
        (etransitivity; [apply IH; lia|]); rewrite ?Hpush; simpl; lia.
    + etransitivity; [apply IH; lia|]. rewrite Hpush. simpl. lia.
Qed.

Lemma string_length_list (s : string) :
  String.length s = length (list_ascii_of_string s).
Proof. induction s as [|c s IH]; simpl; [reflexivity | now rewrite IH]. Qed.

Lemma trim_trailing_length (s : string) :
  String.length (trim_trailing s) <= String.length s.
Proof.
  unfold trim_trailing.
  rewrite !string_length_list, list_ascii_of_string_of_list_ascii.
  rewrite length_firstn. lia.
Qed.

Lemma Unescape_loop_plain (str : string) : forall res,
  no_backslash str = true -> Unescape_loop str res = (res ++ str)%string.
Proof.
  unfold no_backslash.
  induction str as [|c it IH]; intros res H; simpl in *.
  - now rewrite string_app_nil_r.
  - apply andb_true_iff in H as [Hc Hit]. apply negb_true_iff in Hc.
    rewrite Hc, IH by exact Hit. unfold push_back.
    now rewrite string_app_assoc.
Qed.

(** What [Escape] writes has no raw newline or carriage return, and no
    quote of either kind that does not come right after a backslash. *)
Lemma escaped_shape (c : ascii) :
  one_line (list_ascii_of_string (escaped c)) = true
  /\ (forall start prev, start = QUOTE \/ start = DQUOTE ->
        each_preceded start prev (list_ascii_of_string (escaped c)) = true)
  /\ ((last_char NUL (list_ascii_of_string (escaped c)) =? BACKSLASH)%char
      = (c =? BACKSLASH)%char)
  /\ escaped c <> EmptyString.
Proof.
  unfold escaped.
  destruct (Ascii.eqb_spec c LF) as [->|HLF].
  { repeat split; try discriminate. intros start prev [-> | ->]; reflexivity. }
  destruct (Ascii.eqb_spec c CR) as [->|HCR].
  { repeat split; try discriminate. intros start prev [-> | ->]; reflexivity. }
  destruct (Ascii.eqb_spec c QUOTE) as [->|HQ].
  { repeat split; try discriminate. intros start prev [-> | ->]; reflexivity. }
  destruct (Ascii.eqb_spec c DQUOTE) as [->|HD].
  { repeat split; try discriminate. intros start prev [-> | ->]; reflexivity. }
  destruct (Ascii.eqb_spec c BACKSLASH) as [->|HB].
  { repeat split; try discriminate. intros start prev [-> | ->]; reflexivity. }
  simpl. repeat split; try discriminate.
  - unfold one_line. simpl.
    apply Ascii.eqb_neq in HLF, HCR. now rewrite HLF, HCR.
  - intros start prev [-> | ->]; simpl.
    + apply Ascii.eqb_neq in HQ. now rewrite HQ.
    + apply Ascii.eqb_neq in HD. now rewrite HD.
  - now apply Ascii.eqb_neq.
Qed.

Lemma each_preceded_app start prev (a b : list ascii) :
  each_preceded start prev (a ++ b)
  = each_preceded start prev a && each_preceded start (last_char prev a) b.
Proof.
  revert prev. induction a as [|c a IH]; intros prev; simpl; [reflexivity|].
  now rewrite IH, andb_assoc.
Qed.

Lemma last_char_app prev (a b : list ascii) :
  last_char prev (a ++ b) = last_char (last_char prev a) b.
Proof.
  revert prev. induction a as [|c a IH]; intros prev; simpl; auto.
Qed.

Lemma last_char_nonempty prev prev' (a : list ascii) :
  a <> [] -> last_char prev a = last_char prev' a.
Proof. destruct a; [contradiction | reflexivity]. Qed.

Lemma Escape_shape (s : string) :
  one_line (list_ascii_of_string (Escape s)) = true
  /\ (forall start prev, start = QUOTE \/ start = DQUOTE ->
        each_preceded start prev (list_ascii_of_string (Escape s)) = true).
Proof.
  induction s as [|c s [IH1 IH2]]; [split; [reflexivity | intros; reflexivity]|].
  rewrite detail_facts.Escape_cons, list_ascii_app.
  destruct (escaped_shape c) as (H1 & H2 & _ & _).
  split.
  - unfold one_line in *. now rewrite forallb_app, H1, IH1.
  - intros start prev Hs. now rewrite each_preceded_app, H2, IH2.
Qed.

Lemma Escape_last (s : string) :
  ends_in_backslash (Escape s) = ends_in_backslash s.
Proof.
  unfold ends_in_backslash.
  assert (H : forall prev,
            (last_char prev (list_ascii_of_string (Escape s)) =? BACKSLASH)%char
            = (last_char prev (list_ascii_of_string s) =? BACKSLASH)%char).
  { induction s as [|c s IH]; intros prev; [reflexivity|].
    rewrite detail_facts.Escape_cons, list_ascii_app, last_char_app.
    cbn [list_ascii_of_string last_char].
    destruct (escaped_shape c) as (_ & _ & H3 & H4).
    destruct s as [|c' s'].
    - cbn [Escape Escape_loop list_ascii_of_string last_char].
      rewrite (last_char_nonempty prev NUL); [exact H3|].
      destruct (escaped c); [contradiction | discriminate].
    - rewrite IH. reflexivity. }
  apply H.
Qed.

Lemma Escape_injective (s t : string) : Escape s = Escape t -> s = t.
Proof.
  intros H.
  pose proof (detail_facts.Unescape_loop_Escape s EmptyString) as Hs.
  pose proof (detail_facts.Unescape_loop_Escape t EmptyString) as Ht.
  rewrite H in Hs. simpl in Hs, Ht. congruence.
Qed.

End Escape_facts.

(** X16.  [Unescape] never returns a longer text than it was given, and
    what it returns never ends in white space. *)
Theorem Unescape_shrinks (str : string) :
  String.length (detail.Unescape str) <= String.length str
  /\ detail.ends_in_space (detail.Unescape str) = false.
Proof.
  split.
  - unfold detail.Unescape.
    etransitivity; [apply Escape_facts.trim_trailing_length|].
    apply (Escape_facts.Unescape_loop_length (String.length str)). lia.
  - unfold detail.Unescape.
    destruct (detail_facts.trim_trailing_spec
                (detail.Unescape_loop str EmptyString)) as (ws & _ & _ & H).
    exact H.
Qed.

(** X17.  On a text without a backslash [Unescape] only trims the trailing
    white space, so it returns the text itself when the text does not end
    in white space. *)
Theorem Unescape_plain (str : string)
  (Hplain : no_backslash str = true) :
  detail.Unescape str = detail.trim_trailing str
  /\ (detail.ends_in_space str = false -> detail.Unescape str = str).
Proof.
  assert (H : detail.Unescape str = detail.trim_trailing str).
  { unfold detail.Unescape.
    now rewrite Escape_facts.Unescape_loop_plain by exact Hplain. }
  split; [exact H|].
  intros Hs. rewrite H. now apply detail_facts.trim_trailing_fixed.
Qed.

Lemma Unescape_plain_witness :
  detail.Unescape "port  " = detail.trim_trailing "port  ".
Proof.
  apply (Unescape_plain "port  "). reflexivity.
Defined.

(** X18.  [Escape] is injective, and what it writes fits between quotes
    on one line: it holds no raw newline or carriage return, every quote
    of either kind in it comes right after a backslash, and it ends in a
    backslash exactly when the value does. *)
Theorem Escape_one_line (s : string) :
  (forall t, detail.Escape s = detail.Escape t -> s = t)
  /\ one_line (list_ascii_of_string (detail.Escape s)) = true
  /\ each_preceded QUOTE NUL (list_ascii_of_string (detail.Escape s)) = true
  /\ each_preceded DQUOTE NUL (list_ascii_of_string (detail.Escape s)) = true
  /\ ends_in_backslash (detail.Escape s) = ends_in_backslash s.
Proof.
  destruct (Escape_facts.Escape_shape s) as [H1 H2].
  repeat split; auto.
  - intros t. apply Escape_facts.Escape_injective.
  - apply Escape_facts.Escape_last.
Qed.

(** ** Reading scalars *)

Module Scan_facts.
Import Parser.

#[local] Arguments Get : simpl never.
#[local] Arguments Skip : simpl never.
#[local] Arguments Peek : simpl never.
#[local] Arguments Unread : simpl never.
#[local] Arguments push_token : simpl never.

Lemma Get_plain (p : t) :
  Peek p 0 <> LF -> Get p = (Peek p 0, moved 1 p).
Proof.
  intros H. rewrite Cursor_facts.Get_eq. now rewrite Parser_facts.Skip_1_plain.
Qed.

Lemma Unread_moved n (p : t) : Unread (moved n p) = Unread p - n.
Proof. unfold Unread, moved. simpl. lia. Qed.

Lemma one_line_cons c (l : list ascii) :
  one_line (c :: l) = true -> c <> LF /\ c <> CR /\ one_line l = true.
Proof.
  unfold one_line. simpl. intros H.
  apply andb_true_iff in H as [Hc Hl]. apply andb_true_iff in Hc as [H1 H2].
  apply negb_true_iff in H1, H2. apply Ascii.eqb_neq in H1, H2. auto.
Qed.

(** Inside a quoted scalar the loop runs up to the character before the
    closing quote. *)
Lemma quoted_loop_run (start : ascii) (T : list ascii) :
  forall prev p val turns rest,
    T <> [] ->
    unread_text p = T ++ start :: rest ->
    one_line T = true ->
    each_preceded start prev T = true ->
    (last_char prev T =? BACKSLASH)%char = false ->
    length T <= turns ->
    quoted_loop start turns val p
    = ((val ++ string_of_list_ascii (removelast T))%string,
       moved (length T - 1) p).
Proof.
  induction T as [|c T IH]; intros prev p val turns rest Hne Htext Hline Hpre
    Hlast Hturns; [contradiction|].
  destruct (one_line_cons _ _ Hline) as (HLF & HCR & Hline').
  assert (HP0 : Peek p 0 = c)
    by (rewrite Parser_facts.Peek_unread, Htext; reflexivity).
  destruct T as [|c' T].
  - (* the last character: the closing quote follows *)
    simpl in Hlast. cbn [removelast length string_of_list_ascii].
    rewrite string_app_nil_r, Parser_facts.moved_0.
    destruct turns as [|turns]; [reflexivity|]. cbn [quoted_loop].
    assert (HP1 : Peek p 1 = start)
      by (rewrite Parser_facts.Peek_unread, Htext; reflexivity).
    rewrite HP0, HP1, Hlast, Ascii.eqb_refl. cbn [negb orb].
    now rewrite andb_false_r.
  - destruct turns as [|turns]; [simpl in Hturns; lia|]. cbn [quoted_loop].
    assert (HP1 : Peek p 1 = c')
      by (rewrite Parser_facts.Peek_unread, Htext; reflexivity).
    assert (HU : (1 <? Unread p) = true).
    { apply Nat.ltb_lt. rewrite Parser_facts.Unread_unread, Htext. simpl. lia. }
    cbn [each_preceded] in Hpre.
    apply andb_true_iff in Hpre as [_ Hpre].
    pose proof Hpre as Hpre'. cbn [each_preceded] in Hpre'.
    apply andb_true_iff in Hpre' as [Hc' _].
    rewrite HU, HP0, HP1. rewrite orb_comm, Hc'. cbn [andb].
    apply Ascii.eqb_neq in HLF, HCR. rewrite HLF, HCR. cbn [orb].
    rewrite Get_plain by (rewrite HP0; now apply Ascii.eqb_neq).
    rewrite HP0.
    rewrite (IH c (moved 1 p) (push_back val c) turns rest); auto.
    + rewrite Parser_facts.moved_moved. unfold push_back.
      cbn [removelast length string_of_list_ascii].
      rewrite string_app_assoc. cbn [String.append].
      f_equal. f_equal. simpl. lia.
    + discriminate.
    + rewrite Parser_facts.unread_moved, Htext. reflexivity.
    + simpl in Hturns |- *. lia.
Qed.

Lemma removelast_last_char prev (T : list ascii) :
  T <> [] -> removelast T ++ [last_char prev T] = T.
Proof.
  revert prev. induction T as [|c T IH]; intros prev H; [contradiction|].
  destruct T as [|c' T]; [reflexivity|].
  cbn [removelast last_char]. cbn [app]. f_equal.
  apply (IH c). discriminate.
Qed.

Lemma last_char_one_line prev (T : list ascii) :
  T <> [] -> one_line T = true -> last_char prev T <> LF.
Proof.
  revert prev. induction T as [|c T IH]; intros prev H Hl; [contradiction|].
  destruct (one_line_cons _ _ Hl) as (HLF & _ & Hl').
  destruct T as [|c' T]; [exact HLF|]. apply (IH c); [discriminate | exact Hl'].
Qed.

Lemma nth_last_char prev (T rest : list ascii) :
  T <> [] -> nth (length T - 1) (T ++ rest) NUL = last_char prev T.
Proof.
  revert prev. induction T as [|c T IH]; intros prev H; [contradiction|].
  destruct T as [|c' T]; [reflexivity|].
  replace (length (c :: c' :: T) - 1) with (S (length (c' :: T) - 1))
    by (simpl; lia).
  cbn [app nth last_char]. apply (IH c). discriminate.
Qed.

(** A quoted scalar whose closing quote is the first quote that does not
    come after a backslash is read whole, quotes excluded. *)
Lemma scan_quoted_run (start : ascii) (T rest : list ascii) (p : t) :
  start = QUOTE \/ start = DQUOTE ->
  unread_text p = start :: T ++ start :: rest ->
  one_line T = true ->
  each_preceded start NUL T = true ->
  (last_char NUL T =? BACKSLASH)%char = false ->
  scan_quoted p = Ret (string_of_list_ascii T, moved (length T + 2) p).
Proof.
  intros Hstart Htext Hline Hpre Hlast. unfold scan_quoted.
  assert (HsLF : start <> LF) by (destruct Hstart as [-> | ->]; discriminate).
  assert (HP0 : Peek p 0 = start)
    by (rewrite Parser_facts.Peek_unread, Htext; reflexivity).
  rewrite Get_plain by (now rewrite HP0). rewrite HP0.
  assert (H1 : unread_text (moved 1 p) = T ++ start :: rest)
    by (rewrite Parser_facts.unread_moved, Htext; reflexivity).
  destruct T as [|c T].
  - (* the empty scalar *)
    assert (HP1 : Peek (moved 1 p) 0 = start)
      by (rewrite Parser_facts.Peek_unread, H1; reflexivity).
    rewrite HP1, Ascii.eqb_refl. cbn [negb bind fst snd].
    rewrite Parser_facts.Skip_1_plain by (now rewrite HP1).
    now rewrite Parser_facts.moved_moved.
  - assert (HP1 : Peek (moved 1 p) 0 = c)
      by (rewrite Parser_facts.Peek_unread, H1; reflexivity).
    pose proof Hpre as Hc. cbn [each_preceded] in Hc.
    apply andb_true_iff in Hc as [Hc _]. rewrite orb_false_r in Hc.
    rewrite HP1, Hc.
    rewrite (quoted_loop_run start (c :: T) NUL (moved 1 p) EmptyString
               (Unread (moved 1 p)) rest); auto; try discriminate.
    2:{ rewrite Parser_facts.Unread_unread, H1, length_app. lia. }
    rewrite Parser_facts.moved_moved. cbn [String.append].
    set (q := moved (1 + (length (c :: T) - 1)) p).
    assert (Hq : unread_text q = last_char NUL (c :: T) :: start :: rest).
    { unfold q. rewrite Parser_facts.unread_moved, Htext.
      replace (1 + (length (c :: T) - 1)) with (S (length (c :: T) - 1)) by lia.
      rewrite skipn_cons.
      rewrite <- (removelast_last_char NUL (c :: T)) at 2 by discriminate.
      rewrite <- app_assoc, skipn_app.
      replace (length (c :: T) - 1) with (length (removelast (c :: T))).
      - now rewrite skipn_all, Nat.sub_diag.
      - pose proof (f_equal (@length ascii)
                      (removelast_last_char NUL (c :: T) ltac:(discriminate))) as E.
        rewrite length_app in E. simpl in E |- *. lia. }
    assert (HU : Unread q = S (S (length rest)))
      by (rewrite Parser_facts.Unread_unread, Hq; reflexivity).
    rewrite HU. cbn [Nat.ltb Nat.leb].
    assert (HPq : Peek q 0 = last_char NUL (c :: T))
      by (rewrite Parser_facts.Peek_unread, Hq; reflexivity).
    rewrite (Get_plain q)
      by (rewrite HPq; apply last_char_one_line; [discriminate | exact Hline]).
    rewrite Unread_moved, HU. cbn [Nat.sub Nat.eqb bind fst snd].
    assert (HPc : Peek (moved 1 q) 0 = start).
    { rewrite Parser_facts.Peek_unread, Parser_facts.unread_moved, Hq.
      reflexivity. }
    rewrite (Parser_facts.Skip_1_plain (moved 1 q)) by (now rewrite HPc).
    rewrite HPq. unfold q. rewrite !Parser_facts.moved_moved.
    f_equal. f_equal.
    + unfold push_back.
      rewrite <- (removelast_last_char NUL (c :: T)) at 3 by discriminate.
      now rewrite string_of_list_app.
    + f_equal. simpl. lia.
Qed.

(** Without a quote that does not come after a backslash the loop runs
    on until one character is left, or none. *)
Lemma quoted_loop_runs_out (start : ascii) : forall turns W prev p val,
  unread_text p = W ->
  each_preceded start prev W = true ->
  Unread p <= turns ->
  Unread (snd (quoted_loop start turns val p)) <= 1.
Proof.
  induction turns as [|turns IH]; intros W prev p val Htext Hpre Hturns.
  - cbn [quoted_loop snd]. lia.
  - cbn [quoted_loop].
    destruct (Nat.ltb_spec 1 (Unread p)) as [HU|]; [|cbn [andb snd]; lia].
    cbn [andb].
    rewrite Parser_facts.Unread_unread, Htext in HU.
    destruct W as [|c [|c' W]]; try (simpl in HU; lia).
    assert (HP0 : Peek p 0 = c)
      by (rewrite Parser_facts.Peek_unread, Htext; reflexivity).
    assert (HP1 : Peek p 1 = c')
      by (rewrite Parser_facts.Peek_unread, Htext; reflexivity).
    cbn [each_preceded] in Hpre.
    apply andb_true_iff in Hpre as [_ Hpre].
    pose proof Hpre as Hpre'. cbn [each_preceded] in Hpre'.
    apply andb_true_iff in Hpre' as [Hc' Hrest].
    rewrite HP0, HP1. rewrite orb_comm, Hc'.
    rewrite Cursor_facts.Get_eq, HP0.
    assert (H1 : unread_text (Skip 1 p) = c' :: W)
      by (rewrite Cursor_facts.unread_Skip, Htext; reflexivity).
    assert (HU1 : Unread (Skip 1 p) <= turns)
      by (rewrite Parser_facts.Unread_Skip; lia).
    destruct ((c =? LF)%char || (c =? CR)%char).
    + destruct ((c =? CR)%char && (Peek (Skip 1 p) 0 =? LF)%char).
      * apply (IH W c'); auto.
        -- rewrite Cursor_facts.unread_Skip, H1. reflexivity.
        -- rewrite Parser_facts.Unread_Skip. lia.
      * apply (IH (c' :: W) c); auto.
    + apply (IH (c' :: W) c); auto.
Qed.

(** A quoted scalar that is never closed runs into the end of the input. *)
Lemma scan_quoted_unterminated (start : ascii) (W : list ascii) (p : t) :
  start = QUOTE \/ start = DQUOTE ->
  unread_text p = start :: W ->
  each_preceded start NUL W = true ->
  exists e, scan_quoted p = Throw e /\ is_end_of_file e.
Proof.
  intros Hstart Htext Hpre. unfold scan_quoted.
  assert (HP0 : Peek p 0 = start)
    by (rewrite Parser_facts.Peek_unread, Htext; reflexivity).
  rewrite Cursor_facts.Get_eq, HP0.
  assert (H1 : unread_text (Skip 1 p) = W)
    by (rewrite Cursor_facts.unread_Skip, Htext; reflexivity).
  assert (Hfirst : (Peek (Skip 1 p) 0 =? start)%char = false).
  { rewrite Parser_facts.Peek_unread, H1.
    destruct W as [|c W]; simpl.
    - destruct Hstart as [-> | ->]; reflexivity.
    - simpl in Hpre. apply andb_true_iff in Hpre as [Hc _].
      rewrite orb_false_r in Hc. now apply negb_true_iff in Hc. }
  rewrite Hfirst. cbn [negb].
  pose proof (quoted_loop_runs_out start (Unread (Skip 1 p)) W NUL (Skip 1 p)
                EmptyString H1 Hpre (Nat.le_refl _)) as Hout.
  destruct (quoted_loop start (Unread (Skip 1 p)) EmptyString (Skip 1 p))
    as [val q]. cbn [snd] in Hout.
  destruct (Nat.ltb_spec 0 (Unread q)).
  - rewrite Cursor_facts.Get_eq.
    assert (Hz : Unread (Skip 1 q) = 0)
      by (rewrite Parser_facts.Unread_Skip; lia).
    rewrite Hz. cbn [Nat.eqb bind]. eexists. split; [reflexivity|].
    repeat eexists.
  - assert (Hz : Unread q = 0) by lia.
    rewrite Hz. cbn [Nat.eqb bind]. eexists. split; [reflexivity|].
    repeat eexists.
Qed.

End Scan_facts.

Module Store_facts.
Import Parser.

#[local] Arguments Skip : simpl never.
#[local] Arguments Peek : simpl never.
#[local] Arguments Unread : simpl never.

Lemma store_scalar_spec val (p : t) :
  tokens (store_scalar val p)
  = tokens p ++ [Token.mk (kind_before (unread_text p)) (detail.Unescape val)
                          (readPos p) (line p) (column p)]
  /\ unread_text (store_scalar val p) = after_separator (unread_text p).
Proof.
  unfold store_scalar.
  assert (Hpush : forall ty,
            Unread (push_token ty (detail.Unescape val) p)
            = length (unread_text p)
            /\ Peek (push_token ty (detail.Unescape val) p) 0
               = nth 0 (unread_text p) NUL
            /\ unread_text (push_token ty (detail.Unescape val) p)
               = unread_text p
            /\ tokens (push_token ty (detail.Unescape val) p)
               = tokens p ++ [Token.mk ty (detail.Unescape val)
                                       (readPos p) (line p) (column p)]).
  { intros ty. rewrite Parser_facts.Unread_push_token,
      Parser_facts.Peek_push_token, Parser_facts.Peek_unread,
      Parser_facts.Unread_unread. repeat split. }
  rewrite (Parser_facts.Peek_unread p), (Parser_facts.Unread_unread p).
  set (ty := if (0 <? length (unread_text p))
                && (nth 0 (unread_text p) NUL =? COLON)%char
             then Token.KEY else Token.SCALAR).
  assert (E : (if (0 <? length (unread_text p))
                  && (nth 0 (unread_text p) NUL =? COLON)%char
               then push_token Token.KEY (detail.Unescape val) p
               else push_token Token.SCALAR (detail.Unescape val) p)
              = push_token ty (detail.Unescape val) p)
    by (unfold ty; destruct ((0 <? length (unread_text p))
                             && (nth 0 (unread_text p) NUL =? COLON)%char);
        reflexivity).
  rewrite E. destruct (Hpush ty) as (HU & HP & Hun & Htok).
  rewrite HU, HP.
  assert (Hty : ty = kind_before (unread_text p))
    by (unfold ty; destruct (unread_text p); reflexivity).
  destruct (unread_text p) as [|c rest] eqn:Etext.
  - cbn [length Nat.ltb Nat.leb andb]. rewrite Htok, Hun, Hty. split; reflexivity.
  - cbn [length Nat.ltb Nat.leb andb nth after_separator].
    destruct ((c =? COLON)%char || (c =? COMMA)%char).
    + destruct (Tokenize_facts.same_Skip 1
                  (push_token ty (detail.Unescape val) p)) as [_ Ht].
      rewrite Ht, Cursor_facts.unread_Skip, Hun, Htok, Hty. split; reflexivity.
    + rewrite Htok, Hun, Hty. split; reflexivity.
Qed.

End Store_facts.

Module Read_back_facts.

Lemma scan_scalar_quoted (s : string) (p : Parser.t) (rest : list ascii)
  (Hend : ends_in_backslash s = false)
  (Htext : Parser.unread_text p
           = QUOTE :: list_ascii_of_string (detail.Escape s) ++ QUOTE :: rest) :
  exists q tok,
    Parser.scan_scalar p = Ret q
    /\ Parser.tokens q = Parser.tokens p ++ [tok]
    /\ Token.value tok = detail.trim_trailing s
    /\ Token.type tok = Parser.kind_before rest
    /\ Parser.unread_text q = Parser.after_separator rest.
Proof.
  destruct (Escape_facts.Escape_shape s) as [Hline Hpre].
  pose proof (Escape_facts.Escape_last s) as Hlast.
  unfold ends_in_backslash in Hlast, Hend. rewrite Hend in Hlast.
  pose proof (Scan_facts.scan_quoted_run QUOTE _ rest p (or_introl eq_refl)
                Htext Hline (Hpre QUOTE NUL (or_introl eq_refl)) Hlast) as Hscan.
  set (q := Parser.moved (length (list_ascii_of_string (detail.Escape s)) + 2) p)
    in *.
  assert (Hq : Parser.unread_text q = rest).
  { unfold q. rewrite Parser_facts.unread_moved, Htext.
    replace (length (list_ascii_of_string (detail.Escape s)) + 2)
      with (S (length (list_ascii_of_string (detail.Escape s)) + 1)) by lia.
    rewrite skipn_cons, skipn_app, (skipn_all2 (list_ascii_of_string _)) by lia.
    replace (length (list_ascii_of_string (detail.Escape s)) + 1
             - length (list_ascii_of_string (detail.Escape s))) with 1 by lia.
    reflexivity. }
  destruct (Store_facts.store_scalar_spec
              (string_of_list_ascii (list_ascii_of_string (detail.Escape s))) q)
    as [Htok Hun].
  eexists. eexists. split; [|split; [|split; [|split]]].
  - unfold Parser.scan_scalar.
    rewrite Parser_facts.Peek_unread, Htext. cbn [nth].
    change ((QUOTE =? QUOTE)%char || (QUOTE =? DQUOTE)%char) with true.
    cbv iota. rewrite Hscan. cbn [bind fst snd]. reflexivity.
  - rewrite Htok. unfold q at 1. cbn [Parser.tokens Parser.moved]. reflexivity.
  - cbn [Token.value]. rewrite string_of_list_ascii_of_string.
    unfold detail.Unescape. now rewrite detail_facts.Unescape_loop_Escape.
  - cbn [Token.type]. now rewrite Hq.
  - now rewrite Hun, Hq.
Qed.

End Read_back_facts.

(** X19.  A scalar the emitter wrote is read back by the tokenizer: for a
    value [s] that does not end in a backslash, the quoted text
    ['Escape(s)'] is scanned up to its closing quote and stored as one
    token whose text is [s] without its trailing white space, a key when a
    colon follows and a scalar otherwise; a colon or comma that follows is
    consumed with it. *)
Theorem scalar_read_back (s : string) (p : Parser.t) (rest : list ascii)
  (Hend : ends_in_backslash s = false)
  (Htext : Parser.unread_text p
           = QUOTE :: list_ascii_of_string (detail.Escape s) ++ QUOTE :: rest) :
  exists q tok,
    Parser.scan_scalar p = Ret q
    /\ Parser.tokens q = Parser.tokens p ++ [tok]
    /\ Token.value tok = detail.trim_trailing s
    /\ Token.type tok = Parser.kind_before rest
    /\ Parser.unread_text q = Parser.after_separator rest.
Proof.
  now apply Read_back_facts.scan_scalar_quoted.
Qed.

Lemma scalar_read_back_witness :
  exists q tok,
    Parser.scan_scalar (Parser.of_string "'it\'s ok'")
    = Ret q
    /\ Parser.tokens q = Parser.tokens (Parser.of_string "'it\'s ok'") ++ [tok]
    /\ Token.value tok = detail.trim_trailing "it's ok"
    /\ Token.type tok = Parser.kind_before []
    /\ Parser.unread_text q = Parser.after_separator [].
Proof.
  apply (scalar_read_back "it's ok" (Parser.of_string "'it\'s ok'") []);
    reflexivity.
Defined.

(** An opening quote that no unescaped quote of its kind follows is
    never closed. *)
Lemma never_closed (start : ascii) (W : list ascii)
  (Hstart : start = QUOTE \/ start = DQUOTE)
  (Hopen : each_preceded start NUL W = true) :
  (forall p, Parser.unread_text p = start :: W ->
     exists e, Parser.scan_scalar p = Throw e /\ Parser.is_end_of_file e)
  /\ exists e, Parser.Parse (Parser.make (start :: W)) = Parser.Raised e
               /\ Parser.is_end_of_file e.
Proof.
  assert (Hscan : forall p, Parser.unread_text p = start :: W ->
            exists e, Parser.scan_scalar p = Throw e /\ Parser.is_end_of_file e).
  { intros p Htext.
    destruct (Scan_facts.scan_quoted_unterminated start W p Hstart Htext Hopen)
      as (e & He & Heof).
    exists e. split; [|exact Heof].
    unfold Parser.scan_scalar. rewrite Parser_facts.Peek_unread, Htext.
    cbn [nth].
    assert (Hq : (start =? QUOTE)%char || (start =? DQUOTE)%char = true)
      by (destruct Hstart as [-> | ->]; reflexivity).
    rewrite Hq, He. reflexivity. }
  split; [exact Hscan|].
  assert (Hfix : Parser.FixEncoding (Parser.make (start :: W))
                 = Parser.make (start :: W)).
  { unfold Parser.FixEncoding, Parser.make. cbn [Parser.buffer].
    destruct W as [|b1 [|b2 W]]; try reflexivity.
    assert (H239 : (start =? "239")%char = false)
      by (destruct Hstart as [-> | ->]; reflexivity).
    now rewrite H239. }
  unfold Parser.Parse. rewrite Hfix. unfold Parser.Tokenize.
  set (p0 := Parser.mk _ _ _ _ _).
  assert (Htext : Parser.unread_text p0 = start :: W) by reflexivity.
  destruct (Hscan p0 Htext) as (e & He & Heof).
  exists e. split; [|exact Heof].
  assert (HU : Parser.Unread p0 = S (length W)).
  { rewrite Parser_facts.Unread_unread, Htext. reflexivity. }
  assert (HP : Parser.Peek p0 0 = start).
  { rewrite Parser_facts.Peek_unread, Htext. reflexivity. }
  assert (Hnext : Parser.SkipToNextToken p0 = p0).
  { unfold Parser.SkipToNextToken. rewrite HU. cbn [Parser.SkipToNextToken_loop].
    rewrite HU, HP. cbn [Nat.ltb Nat.leb].
    destruct Hstart as [-> | ->]; reflexivity. }
  rewrite HU. cbn [Parser.Tokenize_loop].
  rewrite HU. cbn [Nat.ltb Nat.leb]. rewrite Hnext, HU, HP. cbn [Nat.eqb].
  assert (Hb : (start =? "[")%char = false /\ (start =? "]")%char = false
               /\ (start =? "{")%char = false /\ (start =? "}")%char = false)
    by (destruct Hstart as [-> | ->]; repeat split).
  destruct Hb as (-> & -> & -> & ->).
  rewrite He. reflexivity.
Qed.

(** X21.  A scalar whose value ends in a backslash does not survive
    emission: in the text [Emit] writes for it the closing quote comes
    right after a backslash, and parsing that text throws
    [Unexpected end of file]. *)
Theorem backslash_scalar_not_read_back (val : string)
  (Hend : ends_in_backslash val = true) :
  Emitter.Emit (Some (NodeScalar val)) EmptyString 0 true
  = ((String QUOTE (detail.Escape val) ++ String QUOTE nl)%string, None)
  /\ exists e,
       Parser.Parse
         (Parser.of_string
            (fst (Emitter.Emit (Some (NodeScalar val)) EmptyString 0 true)))
       = Parser.Raised e
       /\ Parser.is_end_of_file e.
Proof.
  assert (Hemit : Emitter.Emit (Some (NodeScalar val)) EmptyString 0 true
                  = ((String QUOTE (detail.Escape val) ++ String QUOTE nl)%string,
                     None)) by reflexivity.
  split; [exact Hemit|]. rewrite Hemit. cbn [fst].
  unfold Parser.of_string. cbn [String.append list_ascii_of_string].
  eapply (proj2 (never_closed QUOTE _ (or_introl eq_refl) _)).
  Unshelve.
  rewrite list_ascii_app, Escape_facts.each_preceded_app.
  destruct (Escape_facts.Escape_shape val) as [_ Hpre].
  rewrite (Hpre QUOTE NUL (or_introl eq_refl)).
  pose proof (Escape_facts.Escape_last val) as Hlast.
  unfold ends_in_backslash in Hlast, Hend. rewrite Hend in Hlast.
  cbn [andb nl list_ascii_of_string each_preceded]. rewrite Hlast.
  reflexivity.
Qed.

Lemma backslash_scalar_not_read_back_witness :
  Emitter.Emit (Some (NodeScalar "C:\dir\")) EmptyString 0 true
  = ((String QUOTE (detail.Escape "C:\dir\") ++ String QUOTE nl)%string, None).
Proof.
  apply (backslash_scalar_not_read_back "C:\dir\"). reflexivity.
Defined.

Module Unquoted_facts.
Import Parser.

#[local] Arguments Get : simpl never.
#[local] Arguments Skip : simpl never.
#[local] Arguments Peek : simpl never.
#[local] Arguments Unread : simpl never.
#[local] Arguments push_token : simpl never.

(** The loop over an unquoted scalar takes the characters up to the first
    one that ends it. *)
Lemma unquoted_loop_run (run : list ascii) :
  forall p val turns stop,
    unread_text p = run ++ stop ->
    forallb (fun c => negb (ends_unquoted c)) run = true ->
    match stop with
    | [] => True
    | c :: _ => ends_unquoted c = true
    end ->
    length run <= turns ->
    unquoted_loop turns val p
    = ((val ++ string_of_list_ascii run)%string, moved (length run) p).
Proof.
  induction run as [|c run IH]; intros p val turns stop Htext Hrun Hstop Hturns.
  - cbn [length string_of_list_ascii].
    rewrite string_app_nil_r, Parser_facts.moved_0.
    destruct turns as [|turns]; [reflexivity|]. cbn [unquoted_loop].
    rewrite Parser_facts.Peek_unread, Parser_facts.Unread_unread, Htext.
    destruct stop as [|d stop]; [reflexivity|].
    cbn [app length nth Nat.ltb Nat.leb]. now rewrite Hstop.
  - cbn [forallb] in Hrun. apply andb_true_iff in Hrun as [Hc Hrun].
    destruct turns as [|turns]; [simpl in Hturns; lia|]. cbn [unquoted_loop].
    assert (HP : Peek p 0 = c)
      by (rewrite Parser_facts.Peek_unread, Htext; reflexivity).
    rewrite Parser_facts.Unread_unread, Htext, HP.
    cbn [app length Nat.ltb Nat.leb]. rewrite Hc. cbn [andb].
    assert (HLF : c <> LF).
    { intros ->. discriminate. }
    rewrite Scan_facts.Get_plain by (now rewrite HP). rewrite HP.
    rewrite (IH (moved 1 p) (push_back val c) turns stop); auto.
    + rewrite Parser_facts.moved_moved. unfold push_back.
      rewrite string_app_assoc. reflexivity.
    + rewrite Parser_facts.unread_moved, Htext. reflexivity.
    + simpl in Hturns. lia.
Qed.

End Unquoted_facts.

Module Unquoted_scan.

Lemma scan_scalar_unquoted (p : Parser.t) (run stop : list ascii)
  (Htext : Parser.unread_text p = run ++ stop)
  (Hfirst : (Parser.Peek p 0 =? QUOTE)%char || (Parser.Peek p 0 =? DQUOTE)%char
            = false)
  (Hrun : forallb (fun c => negb (Parser.ends_unquoted c)) run = true)
  (Hstop : match stop with
           | [] => True
           | c :: _ => Parser.ends_unquoted c = true
           end) :
  exists q tok,
    Parser.scan_scalar p = Ret q
    /\ Parser.tokens q = Parser.tokens p ++ [tok]
    /\ Token.value tok = detail.Unescape (string_of_list_ascii run)
    /\ Token.type tok = Parser.kind_before stop
    /\ Parser.unread_text q = Parser.after_separator stop.
Proof.
  pose proof (Unquoted_facts.unquoted_loop_run run p EmptyString
                (Parser.Unread p) stop Htext Hrun Hstop) as Hloop.
  rewrite Parser_facts.Unread_unread, Htext, length_app in Hloop.
  specialize (Hloop ltac:(lia)).
  rewrite <- length_app, <- Htext, <- Parser_facts.Unread_unread in Hloop.
  set (q := Parser.moved (length run) p) in *.
  assert (Hq : Parser.unread_text q = stop).
  { unfold q. rewrite Parser_facts.unread_moved, Htext, skipn_app.
    now rewrite skipn_all, Nat.sub_diag. }
  destruct (Store_facts.store_scalar_spec (string_of_list_ascii run) q)
    as [Htok Hun].
  exists (Parser.store_scalar (string_of_list_ascii run) q).
  eexists. split; [|split; [|split; [|split]]].
  - unfold Parser.scan_scalar. rewrite Hfirst, Hloop. reflexivity.
  - rewrite Htok. unfold q at 1. cbn [Parser.tokens Parser.moved]. reflexivity.
  - reflexivity.
  - cbn [Token.type]. now rewrite Hq.
  - now rewrite Hun, Hq.
Qed.

End Unquoted_scan.

(** X22.  An unquoted scalar runs from the cursor to the next newline,
    colon, comma, closing bracket, closing brace or hash, or to the end of
    the input: it is stored as one token whose text is the unescaped run,
    a key when a colon ends it and a scalar otherwise, and a colon or
    comma that ends it is consumed. *)
Theorem unquoted_scalar (p : Parser.t) (run stop : list ascii)
  (Htext : Parser.unread_text p = run ++ stop)
  (Hfirst : (Parser.Peek p 0 =? QUOTE)%char || (Parser.Peek p 0 =? DQUOTE)%char
            = false)
  (Hrun : forallb (fun c => negb (Parser.ends_unquoted c)) run = true)
  (Hstop : match stop with
           | [] => True
           | c :: _ => Parser.ends_unquoted c = true
           end) :
  exists q tok,
    Parser.scan_scalar p = Ret q
    /\ Parser.tokens q = Parser.tokens p ++ [tok]
    /\ Token.value tok = detail.Unescape (string_of_list_ascii run)
    /\ Token.type tok = Parser.kind_before stop
    /\ Parser.unread_text q = Parser.after_separator stop.
Proof.
  now apply Unquoted_scan.scan_scalar_unquoted.
Qed.

Lemma unquoted_scalar_witness :
  exists q tok,
    Parser.scan_scalar (Parser.of_string "port : 80")
    = Ret q
    /\ Parser.tokens q = Parser.tokens (Parser.of_string "port : 80") ++ [tok]
    /\ Token.value tok = detail.Unescape "port "
    /\ Token.type tok = Parser.kind_before (list_ascii_of_string ": 80")
    /\ Parser.unread_text q
       = Parser.after_separator (list_ascii_of_string ": 80").
Proof.
  apply (unquoted_scalar (Parser.of_string "port : 80")
           (list_ascii_of_string "port ") (list_ascii_of_string ": 80"));
    reflexivity.
Defined.

(** ** Writing a flat mapping and reading it back *)

Module Round_trip.
Import Parser.

#[local] Arguments Get : simpl never.
#[local] Arguments Skip : simpl never.
#[local] Arguments Peek : simpl never.
#[local] Arguments Unread : simpl never.
#[local] Arguments push_token : simpl never.

Lemma SkipToNextToken_stays (p : t) :
  match unread_text p with
  | [] => True
  | c :: _ => is_blank c = false /\ (c =? HASH)%char = false
  end ->
  SkipToNextToken p = p.
Proof.
  intros H. unfold SkipToNextToken.
  rewrite Parser_facts.Unread_unread.
  destruct (unread_text p) as [|c rest] eqn:E; [reflexivity|].
  cbn [length SkipToNextToken_loop].
  rewrite Parser_facts.Unread_unread, Parser_facts.Peek_unread, E.
  cbn [length Nat.ltb Nat.leb nth]. destruct H as [-> ->]. reflexivity.
Qed.

(** [SkipToNextToken] over a run of white space and commas. *)
Lemma SkipToNextToken_blanks (blanks : list ascii) : forall p rest,
  unread_text p = blanks ++ rest ->
  forallb is_blank blanks = true ->
  match rest with
  | [] => True
  | c :: _ => is_blank c = false /\ (c =? HASH)%char = false
  end ->
  unread_text (SkipToNextToken p) = rest
  /\ tokens (SkipToNextToken p) = tokens p.
Proof.
  induction blanks as [|c blanks IH]; intros p rest Htext Hblanks Hrest.
  - rewrite SkipToNextToken_stays; [split; [exact Htext | reflexivity]|].
    cbn [app] in Htext. now rewrite Htext.
  - cbn [forallb] in Hblanks. apply andb_true_iff in Hblanks as [Hc Hblanks].
    assert (HU : Unread p = S (length (blanks ++ rest)))
      by (rewrite Parser_facts.Unread_unread, Htext; reflexivity).
    assert (Hstep : SkipToNextToken p = SkipToNextToken (Skip 1 p)).
    { unfold SkipToNextToken at 1. rewrite HU. cbn [SkipToNextToken_loop].
      rewrite HU, Parser_facts.Peek_unread, Htext.
      cbn [app nth Nat.ltb Nat.leb]. rewrite Hc.
      apply Parser_facts.SkipToNextToken_turns.
      rewrite Parser_facts.Unread_Skip, HU. lia. }
    rewrite Hstep.
    destruct (IH (Skip 1 p) rest) as [H1 H2]; auto.
    + rewrite Cursor_facts.unread_Skip, Htext. reflexivity.
    + split; [exact H1|]. rewrite H2.
      apply (Tokenize_facts.same_Skip 1 p).
Qed.

(** One turn of the loop of [Tokenize] that stores a key or a scalar. *)
Lemma Tokenize_loop_scalar_step (p q : t) :
  0 < Unread (SkipToNextToken p) ->
  (Peek (SkipToNextToken p) 0 =? "[")%char = false ->
  (Peek (SkipToNextToken p) 0 =? "]")%char = false ->
  (Peek (SkipToNextToken p) 0 =? "{")%char = false ->
  (Peek (SkipToNextToken p) 0 =? "}")%char = false ->
  scan_scalar (SkipToNextToken p) = Ret q ->
  Tokenize_loop (Unread p) p = Tokenize_loop (Unread q) q.
Proof.
  intros Hpos Hb1 Hb2 Hb3 Hb4 Hscan.
  pose proof (Parser_facts.SkipToNextToken_loop_Unread (Unread p) p) as Hle.
  pose proof (Parser_facts.SkipToNextToken_loop_stops (Unread p) p
                (Nat.le_refl _)) as Hstop.
  fold (SkipToNextToken p) in Hle, Hstop.
  destruct (Hstop Hpos) as [Hblank Hhash].
  pose proof (Parser_facts.scan_scalar_Unread _ q Hpos Hblank Hhash Hb2 Hb4 Hscan)
    as Hlt.
  destruct (Unread p) as [|n] eqn:E; [lia|].
  cbn [Tokenize_loop]. rewrite E. cbn [Nat.ltb Nat.leb].
  destruct (Nat.eqb_spec (Unread (SkipToNextToken p)) 0); [lia|].
  rewrite Hb1, Hb2, Hb3, Hb4, Hscan. cbn [bind].
  apply Parser_facts.Tokenize_loop_turns; lia.
Qed.

Lemma Tokenize_loop_done (p : t) :
  Unread (SkipToNextToken p) = 0 ->
  Tokenize_loop (Unread p) p = Ret (SkipToNextToken p).
Proof.
  intros Hz. destruct (Unread p) as [|n] eqn:E.
  - unfold SkipToNextToken. rewrite E. reflexivity.
  - cbn [Tokenize_loop]. rewrite E. cbn [Nat.ltb Nat.leb]. now rewrite Hz.
Qed.

Lemma Peek_head (p : t) c rest : unread_text p = c :: rest -> Peek p 0 = c.
Proof. intros H. now rewrite Parser_facts.Peek_unread, H. Qed.

Lemma Unread_head (p : t) c rest : unread_text p = c :: rest -> 0 < Unread p.
Proof. intros H. rewrite Parser_facts.Unread_unread, H. simpl. lia. Qed.

(** What [plain_key] says of a key. *)
Lemma plain_key_spec (k : string) :
  plain_key k = true ->
  exists c K,
    list_ascii_of_string k = c :: K
    /\ is_blank c = false /\ (c =? HASH)%char = false
    /\ (c =? "[")%char = false /\ (c =? "]")%char = false
    /\ (c =? "{")%char = false /\ (c =? "}")%char = false
    /\ (c =? QUOTE)%char || (c =? DQUOTE)%char = false
    /\ (c =? "239")%char = false
    /\ forallb (fun c => negb (ends_unquoted c)) (c :: K) = true
    /\ detail.Unescape k = k.
Proof.
  unfold plain_key. intros H.
  apply andb_true_iff in H as [H Hspace].
  apply andb_true_iff in H as [H Hback].
  apply andb_true_iff in H as [Hfirst Hrun].
  destruct (list_ascii_of_string k) as [|c K] eqn:E; [discriminate|].
  exists c, K. split; [reflexivity|].
  repeat (apply andb_true_iff in Hfirst as [Hfirst ?]).
  pose proof Hrun as Hc. cbn [forallb] in Hc.
  apply andb_true_iff in Hc as [Hc _]. apply negb_true_iff in Hc.
  unfold ends_unquoted in Hc.
  repeat (apply orb_false_iff in Hc as [Hc ?]).
  repeat match goal with
         | H : negb _ = true |- _ => apply negb_true_iff in H
         end.
  repeat split; auto.
  - now apply orb_false_iff.
  - unfold detail.Unescape.
    rewrite Escape_facts.Unescape_loop_plain by exact Hback.
    now apply detail_facts.trim_trailing_fixed.
Qed.

Lemma entry_text_chars (e : string * string) (R : list ascii) :
  list_ascii_of_string (entry_text e) ++ R
  = list_ascii_of_string (fst e)
    ++ COLON :: SPACE :: QUOTE
       :: list_ascii_of_string (detail.Escape (snd e)) ++ QUOTE :: LF :: R.
Proof.
  unfold entry_text. rewrite !list_ascii_app. cbn [list_ascii_of_string nl].
  repeat (rewrite <- app_assoc; cbn [app]). reflexivity.
Qed.

(** The loop of [Tokenize] over the text of a flat mapping. *)
Lemma Tokenize_flat (entries : list (string * string)) : forall blanks p,
  unread_text p
  = blanks ++ list_ascii_of_string (Emitter.join (map entry_text entries)) ->
  forallb is_blank blanks = true ->
  forallb (fun e => plain_key (fst e) && negb (ends_in_backslash (snd e)))
          entries = true ->
  exists q toks,
    Tokenize_loop (Unread p) p = Ret q
    /\ tokens q = tokens p ++ toks
    /\ kinds toks = flat_kinds (trimmed entries).
Proof.
  induction entries as [|[k s] entries IH]; intros blanks p Htext Hblanks Hent.
  - cbn [map Emitter.join fold_right list_ascii_of_string] in Htext.
    destruct (SkipToNextToken_blanks blanks p [] Htext Hblanks I) as [Hun Htok].
    exists (SkipToNextToken p), [].
    split; [|split; [now rewrite Htok, app_nil_r | reflexivity]].
    apply Tokenize_loop_done. now rewrite Parser_facts.Unread_unread, Hun.
  - cbn [forallb fst snd] in Hent. apply andb_true_iff in Hent as [Hks Hent].
    apply andb_true_iff in Hks as [Hk Hs]. apply negb_true_iff in Hs.
    destruct (plain_key_spec k Hk)
      as (c & K & HK & Hcb & Hch & Hb1 & Hb2 & Hb3 & Hb4 & Hq & _ & Hrun & Hun).
    cbn [map Emitter.join fold_right] in Htext.
    fold (Emitter.join (map entry_text entries)) in Htext.
    rewrite list_ascii_app, entry_text_chars in Htext. cbn [fst snd] in Htext.
    set (R := list_ascii_of_string (Emitter.join (map entry_text entries))) in *.
    set (E := list_ascii_of_string (detail.Escape s)) in *.
    rewrite HK in Htext.
    (* the key *)
    destruct (SkipToNextToken_blanks blanks p _ Htext Hblanks (conj Hcb Hch))
      as [Hun1 Htok1].
    assert (HP1 : Peek (SkipToNextToken p) 0 = c) by (eapply Peek_head; eauto).
    destruct (Unquoted_scan.scan_scalar_unquoted (SkipToNextToken p) (c :: K)
                (COLON :: SPACE :: QUOTE :: E ++ QUOTE :: LF :: R))
      as (q1 & t1 & Hscan1 & Ht1 & Hv1 & Hty1 & Hu1); auto.
    { now rewrite HP1. }
    rewrite <- HK, string_of_list_ascii_of_string, Hun in Hv1.
    cbn [kind_before after_separator] in Hty1, Hu1.
    change ((COLON =? COLON)%char) with true in Hty1, Hu1. cbv iota in Hty1.
    cbn [orb] in Hu1.
    assert (Hstep1 : Tokenize_loop (Unread p) p = Tokenize_loop (Unread q1) q1).
    { apply Tokenize_loop_scalar_step; rewrite ?HP1; auto.
      eapply Unread_head; eauto. }
    (* the value *)
    destruct (SkipToNextToken_blanks [SPACE] q1
                (QUOTE :: E ++ QUOTE :: LF :: R) Hu1 eq_refl
                (conj eq_refl eq_refl)) as [Hun2 Htok2].
    assert (HP2 : Peek (SkipToNextToken q1) 0 = QUOTE)
      by (eapply Peek_head; eauto).
    destruct (Read_back_facts.scan_scalar_quoted s (SkipToNextToken q1)
                (LF :: R) Hs Hun2)
      as (q2 & t2 & Hscan2 & Ht2 & Hv2 & Hty2 & Hu2).
    cbn [kind_before after_separator] in Hty2, Hu2.
    change ((LF =? COLON)%char) with false in Hty2, Hu2.
    change ((LF =? COMMA)%char) with false in Hu2. cbn [orb] in Hu2.
    assert (Hstep2 : Tokenize_loop (Unread q1) q1 = Tokenize_loop (Unread q2) q2).
    { apply Tokenize_loop_scalar_step; rewrite ?HP2; auto.
      eapply Unread_head; eauto. }
    (* the rest *)
    destruct (IH [LF] q2 Hu2 eq_refl Hent) as (q & toks & Hloop & Htoks & Hkinds).
    exists q, (t1 :: t2 :: toks).
    split; [congruence|]. split.
    + rewrite Htoks, Ht2, Htok2, Ht1, Htok1, <- !app_assoc. reflexivity.
    + unfold kinds, flat_kinds, trimmed in *.
      cbn [map flat_map fst snd app]. rewrite Hty1, Hv1, Hty2, Hv2.
      f_equal. f_equal. exact Hkinds.
Qed.

(** The recursive descent over the tokens of a flat mapping. *)
Lemma dict_loop_flat (entries : list (string * string)) :
  forall toks depth dict last,
    kinds toks = flat_kinds entries ->
    Token.type last = Token.DICT_END ->
    length entries + 2 <= depth ->
    dict_loop depth (toks ++ [last]) dict
    = Done (fold_left (fun d e =>
                         std_map.insert (fst e) (Some (NodeScalar (snd e))) d)
                      entries dict,
            [last]).
Proof.
  induction entries as [|[k s] entries IH]; intros toks depth dict last Hk Hl Hd.
  - destruct toks; [|discriminate].
    destruct depth as [|depth]; [lia|]. simpl. now rewrite Hl.
  - destruct toks as [|tk [|tv toks]]; try discriminate.
    unfold kinds, flat_kinds in Hk. cbn [map flat_map app fst snd] in Hk.
    injection Hk as Htk Hvk Htv Hvv Hrest.
    destruct depth as [|[|depth]]; try (simpl in Hd; lia).
    cbn [app]. rewrite Parse_facts.dict_loop_key by exact Htk.
    assert (Hscalar : Parse_at (S depth) (tv :: toks ++ [last])
                      = Done (NodeScalar (Token.value tv), toks ++ [last]))
      by (simpl; now rewrite Htv).
    rewrite Hscalar, Hvk, Hvv. cbn [fold_left fst snd].
    apply IH; auto. simpl in Hd. lia.
Qed.

Lemma insert_greatest {V : Type} (key : string) (v : V) (m : std_map.t V) :
  Forall (fun e => String.compare (fst e) key = Lt) m ->
  std_map.insert key v m = m ++ [(key, v)].
Proof.
  induction 1 as [|[k1 v1] m Hlt _ IH]; simpl; [reflexivity|].
  simpl in Hlt. apply string_compare_gt_lt in Hlt. now rewrite Hlt, IH.
Qed.

(** Inserting the entries of an ascending mapping one by one rebuilds it. *)
Lemma fold_insert_ascending (entries : list (string * string)) : forall acc,
  std_map.ascending (dict_of entries) = true ->
  Forall (fun a => Forall (fun e => String.compare (fst a) (fst e) = Lt)
                          (dict_of entries)) acc ->
  fold_left (fun d e => std_map.insert (fst e) (Some (NodeScalar (snd e))) d)
            entries acc
  = acc ++ dict_of entries.
Proof.
  induction entries as [|[k s] entries IH]; intros acc Hasc Hacc.
  - simpl. now rewrite app_nil_r.
  - cbn [fold_left fst snd dict_of map] in *.
    fold (dict_of entries) in *.
    rewrite insert_greatest.
    + rewrite IH.
      * now rewrite <- app_assoc.
      * eapply std_map_facts.ascending_cons. exact Hasc.
      * apply Forall_app. split.
        -- eapply Forall_impl; [|exact Hacc]. intros a Ha. now inversion Ha.
        -- constructor; [|constructor]. cbn [fst].
           apply (std_map_facts.ascending_head_lt _ _ _ Hasc).
    + eapply Forall_impl; [|exact Hacc]. intros a Ha. now inversion Ha.
Qed.

Lemma keys_trimmed (entries : list (string * string)) :
  std_map.ascending (dict_of (trimmed entries))
  = std_map.ascending (dict_of entries).
Proof.
  induction entries as [|[k s] entries IH]; [reflexivity|].
  destruct entries as [|[k' s'] entries]; [reflexivity|].
  change (String.ltb k k' && std_map.ascending (dict_of (trimmed ((k', s') :: entries)))
          = String.ltb k k' && std_map.ascending (dict_of ((k', s') :: entries))).
  now rewrite IH.
Qed.

(** The text [Emit] writes for a flat mapping at the root. *)
Lemma Emit_flat (entries : list (string * string)) :
  Emitter.Emit (Some (NodeDict (dict_of entries))) EmptyString 0 true
  = (Emitter.join (map entry_text entries), None).
Proof.
  unfold Emitter.Emit. rewrite Emitter_facts.Emit_dict by lia.
  change (Emitter.dict_open 0) with EmptyString.
  change (Emitter.dict_close 0 true) with EmptyString.
  change (Emitter.indentation 0) with EmptyString.
  cbn [String.append]. rewrite string_app_nil_r. f_equal. f_equal.
  induction entries as [|[k s] entries IH]; [reflexivity|].
  cbn [dict_of map Emitter.blocks fst snd]. fold (dict_of entries).
  rewrite IH. f_equal.
Qed.

End Round_trip.

Module Round_trip_parse.
Import Parser.

Lemma Parse_at_DICT_START depth t (next : iterator) :
  Token.type t = Token.DICT_START ->
  Parse_at (S depth) (t :: next)
  = match dict_loop depth next [] with
    | Done (dict, tok) => Done (NodeDict dict, tl tok)
    | Raised e => Raised e
    | Undefined => Undefined
    | Exhausted => Exhausted
    end.
Proof. intros H. simpl. now rewrite H. Qed.

Lemma flat_kinds_length (entries : list (string * string)) :
  length (flat_kinds entries) = 2 * length entries.
Proof.
  induction entries as [|e entries IH]; simpl in *; [reflexivity|]. lia.
Qed.

Lemma FixEncoding_first (c : ascii) (l : list ascii) :
  (c =? "239")%char = false -> FixEncoding (make (c :: l)) = make (c :: l).
Proof.
  intros H. unfold FixEncoding, make. cbn [buffer].
  destruct l as [|b1 [|b2 l]]; try reflexivity. now rewrite H.
Qed.

(** Parsing the text of a flat mapping. *)
Lemma Parse_flat (entries : list (string * string)) :
  forallb (fun e => plain_key (fst e) && negb (ends_in_backslash (snd e)))
          entries = true ->
  std_map.ascending (dict_of entries) = true ->
  Parse (of_string (Emitter.join (map entry_text entries)))
  = Done (NodeDict (dict_of (trimmed entries))).
Proof.
  intros Hent Hasc.
  set (text := Emitter.join (map entry_text entries)).
  assert (Hfix : FixEncoding (of_string text) = of_string text).
  { unfold of_string, text. destruct entries as [|[k s] entries]; [reflexivity|].
    cbn [forallb fst snd] in Hent. apply andb_true_iff in Hent as [Hks _].
    apply andb_true_iff in Hks as [Hk _].
    destruct (Round_trip.plain_key_spec k Hk)
      as (c & K & HK & _ & _ & _ & _ & _ & _ & _ & H239 & _).
    cbn [map Emitter.join fold_right].
    rewrite list_ascii_app.
    unfold entry_text. cbn [fst]. rewrite list_ascii_app, HK.
    cbn [app]. now apply FixEncoding_first. }
  unfold Parse. rewrite Hfix. unfold Tokenize.
  set (p0 := mk _ _ _ _ _).
  assert (Htext : unread_text p0 = [] ++ list_ascii_of_string text) by reflexivity.
  destruct (Round_trip.Tokenize_flat entries [] p0 Htext eq_refl Hent)
    as (q & toks & Hloop & Htoks & Hkinds).
  rewrite Hloop. cbn [bind].
  set (last := Token.mk Token.DICT_END EmptyString (readPos q) (line q) (column q)).
  set (start := Token.mk Token.DICT_START EmptyString 0 0 0).
  assert (Hall : tokens (push_token Token.DICT_END EmptyString q)
                 = start :: toks ++ [last]).
  { unfold push_token. cbn [tokens]. rewrite Htoks. reflexivity. }
  rewrite Hall.
  assert (Hlen : length toks = 2 * length entries).
  { pose proof (f_equal (@length _) Hkinds) as H.
    unfold kinds in H. rewrite length_map, flat_kinds_length in H.
    unfold trimmed in H. now rewrite length_map in H. }
  unfold enough.
  rewrite (Parse_at_DICT_START _ start (toks ++ [last]) eq_refl).
  rewrite (Round_trip.dict_loop_flat (trimmed entries) toks _ [] last Hkinds
             eq_refl).
  - cbn [tl]. f_equal. f_equal.
    rewrite (Round_trip.fold_insert_ascending (trimmed entries) []).
    + reflexivity.
    + now rewrite Round_trip.keys_trimmed.
    + constructor.
  - unfold trimmed. rewrite length_map. cbn [length].
    rewrite length_app, Hlen. cbn [length]. lia.
Qed.

End Round_trip_parse.

(** X23.  A flat mapping is written and read back: for a mapping from
    plain keys to scalars none of which ends in a backslash, the text
    [Emit] writes at the root is one line [key: 'escaped value'] per
    entry, in key order, and parsing that text returns the mapping with
    the trailing white space of each value removed. *)
Theorem flat_mapping_round_trip (entries : list (string * string))
  (Hentries : forallb (fun e => plain_key (fst e)
                                && negb (ends_in_backslash (snd e)))
                      entries = true)
  (Hmap : std_map.ascending (dict_of entries) = true) :
  Emitter.Emit (Some (NodeDict (dict_of entries))) EmptyString 0 true
  = (Emitter.join (map entry_text entries), None)
  /\ Parser.Parse (Parser.of_string (Emitter.join (map entry_text entries)))
     = Parser.Done (NodeDict (dict_of (trimmed entries))).
Proof.
  split.
  - apply Round_trip.Emit_flat.
  - now apply Round_trip_parse.Parse_flat.
Qed.

Lemma flat_mapping_round_trip_witness :
  Parser.Parse
    (Parser.of_string
       (Emitter.join (map entry_text [("host", "it's here "); ("port", "80")])))
  = Parser.Done
      (NodeDict (dict_of (trimmed [("host", "it's here "); ("port", "80")]))).
Proof.
  apply (flat_mapping_round_trip [("host", "it's here "); ("port", "80")]);
    reflexivity.
Defined.

(** ** The checked parser against the plain one *)

Module Checked_facts.
Import Parser.

#[local] Arguments Get : simpl never.
#[local] Arguments Skip : simpl never.
#[local] Arguments Peek : simpl never.
#[local] Arguments Unread : simpl never.
#[local] Arguments push_token : simpl never.

(** The unguarded read is the plain one when something is left to read. *)
Lemma Peek_unguarded_eq (p : t) :
  Checked.Peek_unguarded p
  = if Unread p =? 0 then Undefined else Done (Peek p 0).
Proof.
  unfold Checked.Peek_unguarded, Unread, Peek. rewrite Nat.add_0_r.
  destruct (nth_error (buffer p) (readPos p)) as [c|] eqn:E.
  - assert (Hlt : readPos p < length (buffer p))
      by (apply nth_error_Some; congruence).
    destruct (Nat.eqb_spec (length (buffer p) - readPos p) 0); [lia|].
    f_equal. symmetry. now apply nth_error_nth.
  - apply nth_error_None in E.
    destruct (Nat.eqb_spec (length (buffer p) - readPos p) 0); [reflexivity|lia].
Qed.

(** The comment branch is undefined exactly when the comment runs to the
    end of the buffer without a newline, a second hash or a double quote. *)
Lemma skip_comment_eq (p : t) :
  Checked.skip_comment p
  = if Unread (skip_while in_comment (Unread (Skip 1 p)) (Skip 1 p)) =? 0
    then Undefined
    else Done (skip_comment p).
Proof.
  unfold Checked.skip_comment, skip_comment.
  rewrite Peek_unguarded_eq.
  destruct (Unread (skip_while in_comment (Unread (Skip 1 p)) (Skip 1 p)) =? 0);
    reflexivity.
Qed.

(** The quoted branch is undefined exactly when the opening quote is the
    last character of the buffer. *)
Lemma scan_quoted_eq (p : t) :
  Checked.scan_quoted p
  = if Unread (Skip 1 p) =? 0 then Undefined
    else Checked.lift (scan_quoted p).
Proof.
  unfold Checked.scan_quoted, scan_quoted.
  rewrite Cursor_facts.Get_eq. rewrite Peek_unguarded_eq.
  destruct (Unread (Skip 1 p) =? 0); [reflexivity|].
  cbn [Checked.bind].
  destruct (negb (Peek (Skip 1 p) 0 =? Peek p 0)%char); [|reflexivity].
  destruct (quoted_loop (Peek p 0) (Unread (Skip 1 p)) EmptyString (Skip 1 p))
    as [val q].
  destruct (0 <? Unread q).
  - rewrite Cursor_facts.Get_eq.
    destruct (Unread (Skip 1 q) =? 0); reflexivity.
  - destruct (Unread q =? 0); reflexivity.
Qed.

(** Wherever the checked functions are defined they are the plain ones. *)
Lemma SkipToNextToken_loop_agrees : forall turns p,
  Checked.SkipToNextToken_loop turns p = Undefined
  \/ Checked.SkipToNextToken_loop turns p = Done (SkipToNextToken_loop turns p).
Proof.
  induction turns as [|turns IH]; intros p;
    cbn [Checked.SkipToNextToken_loop SkipToNextToken_loop]; [now right|].
  destruct (0 <? Unread p); [|now right].
  destruct (is_blank (Peek p 0)); [apply IH|].
  destruct (Peek p 0 =? HASH)%char; [|now right].
  rewrite skip_comment_eq.
  destruct (Unread (skip_while in_comment (Unread (Skip 1 p)) (Skip 1 p)) =? 0);
    [now left|].
  cbn [Checked.bind]. apply IH.
Qed.

Lemma SkipToNextToken_agrees (p : t) :
  Checked.SkipToNextToken p = Undefined
  \/ Checked.SkipToNextToken p = Done (SkipToNextToken p).
Proof. apply SkipToNextToken_loop_agrees. Qed.

Lemma scan_scalar_agrees (p : t) :
  Checked.scan_scalar p = Undefined
  \/ Checked.scan_scalar p = Checked.lift (scan_scalar p).
Proof.
  unfold Checked.scan_scalar, scan_scalar.
  destruct ((Peek p 0 =? QUOTE)%char || (Peek p 0 =? DQUOTE)%char);
    [|now right].
  rewrite scan_quoted_eq.
  destruct (Unread (Skip 1 p) =? 0); [now left|]. right.
  destruct (scan_quoted p) as [r|e]; reflexivity.
Qed.

Lemma Tokenize_loop_agrees : forall turns p,
  Checked.Tokenize_loop turns p = Undefined
  \/ Checked.Tokenize_loop turns p = Checked.lift (Tokenize_loop turns p).
Proof.
  induction turns as [|turns IH]; intros p;
    cbn [Checked.Tokenize_loop Tokenize_loop]; [now right|].
  destruct (0 <? Unread p); [|now right].
  destruct (SkipToNextToken_agrees p) as [-> | ->]; [now left|].
  cbn [Checked.bind].
  destruct (Unread (SkipToNextToken p) =? 0); [now right|].
  destruct (Peek (SkipToNextToken p) 0 =? "[")%char; [apply IH|].
  destruct (Peek (SkipToNextToken p) 0 =? "]")%char; [apply IH|].
  destruct (Peek (SkipToNextToken p) 0 =? "{")%char; [apply IH|].
  destruct (Peek (SkipToNextToken p) 0 =? "}")%char; [apply IH|].
  destruct (scan_scalar_agrees (SkipToNextToken p)) as [-> | ->]; [now left|].
  destruct (scan_scalar (SkipToNextToken p)) as [q|e]; cbn [Checked.lift Checked.bind bind];
    [apply IH | now right].
Qed.

Lemma Tokenize_agrees (p : t) :
  Checked.Tokenize p = Undefined
  \/ Checked.Tokenize p = Checked.lift (Tokenize p).
Proof.
  unfold Checked.Tokenize, Tokenize.
  match goal with
  | |- context [Checked.Tokenize_loop ?n ?p0] =>
    destruct (Tokenize_loop_agrees n p0) as [-> | ->]; [now left|];
    destruct (Tokenize_loop n p0) as [q|e]; now right
  end.
Qed.

Lemma Parse_at_agrees : forall depth,
  (forall tok, Checked.Parse_at depth tok = Undefined
               \/ Checked.Parse_at depth tok = Parse_at depth tok)
  /\ (forall tok list, Checked.array_loop depth tok list = Undefined
                       \/ Checked.array_loop depth tok list
                          = array_loop depth tok list)
  /\ (forall tok dict, Checked.dict_loop depth tok dict = Undefined
                       \/ Checked.dict_loop depth tok dict
                          = dict_loop depth tok dict).
Proof.
  induction depth as [|depth (IHp & IHa & IHd)];
    [repeat split; intros; now right|].
  split; [|split].
  - intros [|t next]; cbn [Checked.Parse_at Parse_at]; [now left|].
    destruct (Token.type t); try (now right).
    + destruct (IHa next []) as [-> | ->]; [now left|].
      destruct (array_loop depth next []) as [[list [|t' tok]]| | |];
        cbn [Checked.increment tl]; auto.
    + destruct (IHd next []) as [-> | ->]; [now left|].
      destruct (dict_loop depth next []) as [[dict [|t' tok]]| | |];
        cbn [Checked.increment tl]; auto.
  - intros [|t next] list; cbn [Checked.array_loop array_loop]; [now right|].
    destruct (Token.Type_eqb (Token.type t) Token.ARRAY_END); [now right|].
    destruct (IHp (t :: next)) as [-> | ->]; [now left|].
    destruct (Parse_at depth (t :: next)) as [[node tok]| | |]; auto.
  - intros [|t next] dict; cbn [Checked.dict_loop dict_loop]; [now right|].
    destruct (Token.Type_eqb (Token.type t) Token.DICT_END); [now right|].
    destruct (negb (Token.Type_eqb (Token.type t) Token.KEY)); [now right|].
    destruct (IHp next) as [-> | ->]; [now left|].
    destruct (Parse_at depth next) as [[node tok]| | |]; auto.
Qed.

Lemma Parse_agrees (p : t) :
  Checked.Parse p = Undefined \/ Checked.Parse p = Parse p.
Proof.
  unfold Checked.Parse, Parse.
  destruct (Tokenize_agrees (FixEncoding p)) as [-> | ->]; [now left|].
  destruct (Tokenize (FixEncoding p)) as [q|e]; cbn [Checked.lift Checked.bind];
    [|now right].
  destruct (proj1 (Parse_at_agrees (enough (length (tokens q)))) (tokens q))
    as [-> | ->]; [now left|].
  destruct (Parse_at (enough (length (tokens q))) (tokens q)) as [[node tok]| | |];
    now right.
Qed.

(** What the checked parser returns or throws, the plain one does too. *)
Lemma Parse_Done (p : t) node :
  Checked.Parse p = Done node -> Parse p = Done node.
Proof. destruct (Parse_agrees p) as [H | H]; rewrite H; [discriminate|auto]. Qed.

Lemma Parse_Raised (p : t) e :
  Checked.Parse p = Raised e -> Parse p = Raised e.
Proof. destruct (Parse_agrees p) as [H | H]; rewrite H; [discriminate|auto]. Qed.

Lemma checked_Parse_not_Exhausted (p : t) : Checked.Parse p <> Exhausted.
Proof.
  destruct (Parse_agrees p) as [H | H]; rewrite H; [discriminate|].
  apply Parse_facts.Parse_not_Exhausted.
Qed.

End Checked_facts.

(** ** Lines and columns *)

Module Position_facts.
Import Parser.

#[local] Arguments Get : simpl never.
#[local] Arguments Skip : simpl never.
#[local] Arguments Peek : simpl never.
#[local] Arguments Unread : simpl never.
#[local] Arguments push_token : simpl never.

Lemma firstn_S_nth (l : list ascii) (n : nat) :
  n < length l -> firstn (S n) l = firstn n l ++ [nth n l NUL].
Proof.
  revert n. induction l as [|c l IH]; intros n H; [simpl in H; lia|].
  destruct n as [|n]; [reflexivity|].
  cbn [firstn nth app]. rewrite <- IH by (simpl in H; lia). reflexivity.
Qed.

Lemma count_newlines_snoc (l : list ascii) c :
  count_newlines (l ++ [c])
  = if (c =? LF)%char then S (count_newlines l) else count_newlines l.
Proof.
  unfold count_newlines. rewrite filter_app, length_app. simpl.
  destruct (c =? LF)%char; simpl; lia.
Qed.

Lemma since_newline_snoc (l : list ascii) c :
  since_newline (l ++ [c])
  = if (c =? LF)%char then 0 else S (since_newline l).
Proof.
  unfold since_newline. rewrite rev_app_distr. reflexivity.
Qed.

Lemma tracked_Skip_1 (p : t) : tracked p -> 0 < Unread p -> tracked (Skip 1 p).
Proof.
  intros (Hpos & Hline & Hcol) HU. unfold Unread in HU.
  unfold tracked, located, Skip. cbn [Skip_loop buffer readPos line column].
  unfold Peek, advance. rewrite Nat.add_0_r.
  replace (readPos (if (nth (readPos p) (buffer p) NUL =? LF)%char
                    then mk (buffer p) (readPos p) (S (line p)) 0 (tokens p)
                    else mk (buffer p) (readPos p) (line p) (S (column p))
                            (tokens p)) + 1)
    with (S (readPos p))
    by (destruct (nth (readPos p) (buffer p) NUL =? LF)%char; simpl; lia).
  replace (buffer (if (nth (readPos p) (buffer p) NUL =? LF)%char
                   then mk (buffer p) (readPos p) (S (line p)) 0 (tokens p)
                   else mk (buffer p) (readPos p) (line p) (S (column p))
                           (tokens p)))
    with (buffer p)
    by (destruct (nth (readPos p) (buffer p) NUL =? LF)%char; reflexivity).
  rewrite firstn_S_nth by lia.
  rewrite count_newlines_snoc, since_newline_snoc.
  destruct (nth (readPos p) (buffer p) NUL =? LF)%char; simpl;
    repeat split; lia.
Qed.

Lemma tracked_push_token ty val (p : t) : tracked p -> tracked (push_token ty val p).
Proof. intros H. exact H. Qed.

Lemma tracked_skip_while cond : forall turns p,
  tracked p -> tracked (skip_while cond turns p).
Proof.
  induction turns as [|turns IH]; intros p Hp; cbn [skip_while]; [exact Hp|].
  destruct (Nat.ltb_spec 0 (Unread p)); cbn [andb]; [|exact Hp].
  destruct (cond (Peek p 0)); [|exact Hp].
  apply IH. now apply tracked_Skip_1.
Qed.

(** The comment branch, when its unguarded read is inside the buffer. *)
Lemma tracked_skip_comment (p q : t) :
  tracked p -> 0 < Unread p ->
  Checked.skip_comment p = Done q -> tracked q.
Proof.
  intros Hp HU. rewrite Checked_facts.skip_comment_eq. unfold skip_comment.
  set (p1 := Skip 1 p).
  set (p2 := skip_while in_comment (Unread p1) p1).
  set (p3 := if (Peek p2 0 =? DQUOTE)%char
             then skip_while in_comment_quote (Unread (Skip 1 p2)) (Skip 1 p2)
             else p2).
  destruct (Nat.eqb_spec (Unread p2) 0) as [|Hin]; [discriminate|].
  intros H. injection H as <-.
  assert (H1 : tracked p1) by now apply tracked_Skip_1.
  assert (H2 : tracked p2) by now apply tracked_skip_while.
  assert (H3 : tracked p3).
  { unfold p3. destruct (Peek p2 0 =? DQUOTE)%char; [|exact H2].
    apply tracked_skip_while. apply tracked_Skip_1; [exact H2 | lia]. }
  destruct (Nat.ltb_spec 0 (Unread p3)); [|exact H3].
  now apply tracked_Skip_1.
Qed.

Lemma tracked_SkipToNextToken_loop : forall turns p q,
  tracked p ->
  Checked.SkipToNextToken_loop turns p = Done q -> tracked q.
Proof.
  induction turns as [|turns IH]; intros p q Hp;
    cbn [Checked.SkipToNextToken_loop].
  - intros E. now injection E as <-.
  - destruct (Nat.ltb_spec 0 (Unread p)); [|intros E; now injection E as <-].
    destruct (is_blank (Peek p 0)).
    + apply IH. now apply tracked_Skip_1.
    + destruct (Peek p 0 =? HASH)%char; [|intros E; now injection E as <-].
      destruct (Checked.skip_comment p) as [p'| | |] eqn:E; try discriminate.
      cbn [Checked.bind]. apply IH. now apply (tracked_skip_comment p).
Qed.

Lemma tracked_quoted_loop start : forall turns val p,
  tracked p -> tracked (snd (quoted_loop start turns val p)).
Proof.
  induction turns as [|turns IH]; intros val p Hp; cbn [quoted_loop];
    [exact Hp|].
  destruct (Nat.ltb_spec 1 (Unread p)) as [HU|]; cbn [andb]; [|exact Hp].
  destruct ((Peek p 0 =? BACKSLASH)%char || negb (Peek p 1 =? start)%char);
    [|exact Hp].
  rewrite Cursor_facts.Get_eq.
  assert (H1 : tracked (Skip 1 p)) by (apply tracked_Skip_1; [exact Hp | lia]).
  assert (HU1 : 0 < Unread (Skip 1 p))
    by (rewrite Parser_facts.Unread_Skip; lia).
  destruct ((Peek p 0 =? LF)%char || (Peek p 0 =? CR)%char).
  - apply IH.
    destruct ((Peek p 0 =? CR)%char && (Peek (Skip 1 p) 0 =? LF)%char);
      [|exact H1].
    now apply tracked_Skip_1.
  - now apply IH.
Qed.

Lemma tracked_unquoted_loop : forall turns val p,
  tracked p -> tracked (snd (unquoted_loop turns val p)).
Proof.
  induction turns as [|turns IH]; intros val p Hp; cbn [unquoted_loop];
    [exact Hp|].
  destruct (Nat.ltb_spec 0 (Unread p)) as [HU|]; cbn [andb]; [|exact Hp].
  destruct (negb (ends_unquoted (Peek p 0))); [|exact Hp].
  rewrite Cursor_facts.Get_eq. apply IH. now apply tracked_Skip_1.
Qed.

(** A tracked cursor with nothing left to read is at the end. *)
Lemma at_end (p : t) :
  tracked p -> Unread p = 0 ->
  error_at_end (buffer p)
    (AltError (mkError "Unexpected end of file" (readPos p) (line p) (column p))).
Proof.
  intros (Hpos & Hline & Hcol) HU. unfold Unread in HU.
  assert (E : readPos p = length (buffer p)) by lia.
  rewrite E, firstn_all in Hline, Hcol.
  unfold error_at_end. cbn [pos lin col]. rewrite E. auto.
Qed.

(** The quoted branch, when the character after the opening quote is
    inside the buffer. *)
Lemma tracked_scan_quoted (p : t) :
  tracked p -> 0 < Unread p ->
  match Checked.scan_quoted p with
  | Done (val, q) => tracked q
  | Raised e => error_at_end (buffer p) e
  | _ => True
  end.
Proof.
  intros Hp HU. rewrite Checked_facts.scan_quoted_eq.
  destruct (Nat.eqb_spec (Unread (Skip 1 p)) 0) as [|Hin]; [exact I|].
  unfold scan_quoted. rewrite Cursor_facts.Get_eq.
  assert (H1 : tracked (Skip 1 p)) by now apply tracked_Skip_1.
  assert (Hb1 : buffer (Skip 1 p) = buffer p)
    by apply (Tokenize_facts.same_Skip 1 p).
  destruct (negb (Peek (Skip 1 p) 0 =? Peek p 0)%char).
  - pose proof (tracked_quoted_loop (Peek p 0) (Unread (Skip 1 p)) EmptyString
                  (Skip 1 p) H1) as H2.
    pose proof (Tokenize_facts.same_quoted_loop (Peek p 0) (Unread (Skip 1 p))
                  EmptyString (Skip 1 p)) as [Hb2 _].
    destruct (quoted_loop (Peek p 0) (Unread (Skip 1 p)) EmptyString (Skip 1 p))
      as [v p2]. cbn [snd] in H2, Hb2.
    destruct (Nat.ltb_spec 0 (Unread p2)).
    + rewrite Cursor_facts.Get_eq.
      assert (H3 : tracked (Skip 1 p2)) by now apply tracked_Skip_1.
      assert (Hb3 : buffer (Skip 1 p2) = buffer p2)
        by apply (Tokenize_facts.same_Skip 1 p2).
      destruct (Nat.eqb_spec (Unread (Skip 1 p2)) 0);
        cbn [bind Checked.lift fst snd].
      * apply (at_end (Skip 1 p2)) in H3; [|assumption].
        now rewrite Hb3, Hb2, Hb1 in H3.
      * apply tracked_Skip_1; [exact H3 | lia].
    + destruct (Nat.eqb_spec (Unread p2) 0); cbn [bind Checked.lift fst snd].
      * apply (at_end p2) in H2; [|assumption].
        now rewrite Hb2, Hb1 in H2.
      * lia.
  - cbn [bind Checked.lift fst snd]. apply tracked_Skip_1; [exact H1 | lia].
Qed.

Lemma tracked_store_scalar val (p : t) :
  tracked p ->
  tracked (store_scalar val p)
  /\ exists tok, tokens (store_scalar val p) = tokens p ++ [tok]
                 /\ token_located (buffer p) tok.
Proof.
  intros Hp.
  destruct (Store_facts.store_scalar_spec val p) as [Htok _].
  split.
  - unfold store_scalar.
    destruct ((0 <? Unread p) && (Peek p 0 =? COLON)%char).
    + destruct (Nat.ltb_spec 0 (Unread (push_token Token.KEY (detail.Unescape val) p)));
        cbn [andb]; [|exact Hp].
      destruct ((Peek (push_token Token.KEY (detail.Unescape val) p) 0 =? COLON)%char
                || (Peek (push_token Token.KEY (detail.Unescape val) p) 0
                    =? COMMA)%char); [|exact Hp].
      now apply tracked_Skip_1.
    + destruct (Nat.ltb_spec 0 (Unread (push_token Token.SCALAR (detail.Unescape val) p)));
        cbn [andb]; [|exact Hp].
      destruct ((Peek (push_token Token.SCALAR (detail.Unescape val) p) 0 =? COLON)%char
                || (Peek (push_token Token.SCALAR (detail.Unescape val) p) 0
                    =? COMMA)%char); [|exact Hp].
      now apply tracked_Skip_1.
  - eexists. split; [exact Htok | exact Hp].
Qed.

Lemma tracked_scan_scalar (p : t) :
  tracked p -> 0 < Unread p ->
  match Checked.scan_scalar p with
  | Done q =>
    tracked q /\ buffer q = buffer p
    /\ exists tok, tokens q = tokens p ++ [tok] /\ token_located (buffer p) tok
  | Raised e => error_at_end (buffer p) e
  | _ => True
  end.
Proof.
  intros Hp HU. unfold Checked.scan_scalar.
  destruct ((Peek p 0 =? QUOTE)%char || (Peek p 0 =? DQUOTE)%char) eqn:Hq.
  - pose proof (tracked_scan_quoted p Hp HU) as H.
    pose proof (Tokenize_facts.scan_quoted_outcome p) as Hsame.
    rewrite Checked_facts.scan_quoted_eq in *.
    destruct (Unread (Skip 1 p) =? 0); [exact I|].
    destruct (scan_quoted p) as [[val q]|e]; cbn [Checked.lift Checked.bind fst snd] in *;
      [|exact H].
    destruct Hsame as [Hb Ht].
    destruct (tracked_store_scalar val q H) as (H1 & tok & Htok & Hloc).
    destruct (Tokenize_facts.store_scalar_tokens val q) as (Hb' & _).
    split; [exact H1|]. split; [congruence|].
    exists tok. rewrite Htok, Ht, <- Hb. auto.
  - cbn [Checked.bind].
    pose proof (tracked_unquoted_loop (Unread p) EmptyString p Hp) as H.
    pose proof (Tokenize_facts.same_unquoted_loop (Unread p) EmptyString p)
      as [Hb Ht].
    destruct (tracked_store_scalar
                (fst (unquoted_loop (Unread p) EmptyString p))
                (snd (unquoted_loop (Unread p) EmptyString p)) H)
      as (H1 & tok & Htok & Hloc).
    destruct (Tokenize_facts.store_scalar_tokens
                (fst (unquoted_loop (Unread p) EmptyString p))
                (snd (unquoted_loop (Unread p) EmptyString p))) as (Hb' & _).
    split; [exact H1|]. split; [congruence|].
    exists tok. rewrite Htok, Ht, <- Hb. auto.
Qed.

(** The loop of [Tokenize] keeps the cursor tracked, reads the whole
    buffer, and stores tokens at the places their positions say. *)
Lemma tracked_Tokenize_loop : forall turns p,
  tracked p -> Unread p <= turns ->
  match Checked.Tokenize_loop turns p with
  | Done q =>
    tracked q /\ buffer q = buffer p /\ Unread q = 0
    /\ exists new, tokens q = tokens p ++ new
                   /\ Forall (token_located (buffer p)) new
  | Raised e => error_at_end (buffer p) e
  | _ => True
  end.
Proof.
  induction turns as [|turns IH]; intros p Hp Hturns;
    cbn [Checked.Tokenize_loop].
  - split; [exact Hp|]. split; [reflexivity|]. split; [lia|].
    exists []. split; [now rewrite app_nil_r | constructor].
  - destruct (Nat.ltb_spec 0 (Unread p)) as [Hpos|].
    2:{ split; [exact Hp|]. split; [reflexivity|]. split; [lia|].
        exists []. split; [now rewrite app_nil_r | constructor]. }
    destruct (Checked_facts.SkipToNextToken_agrees p) as [E | E]; rewrite E;
      [exact I|].
    pose proof (tracked_SkipToNextToken_loop (Unread p) p _ Hp E) as Hq.
    cbn [Checked.bind].
    pose proof (Parser_facts.SkipToNextToken_loop_Unread (Unread p) p) as Hle.
    pose proof (Parser_facts.SkipToNextToken_loop_stops (Unread p) p
                  (Nat.le_refl _)) as Hstop.
    pose proof (Tokenize_facts.same_SkipToNextToken_loop (Unread p) p) as [Hb Ht].
    fold (SkipToNextToken p) in Hq, Hb, Ht, Hle, Hstop.
    set (q := SkipToNextToken p) in *.
    destruct (Nat.eqb_spec (Unread q) 0) as [Hz|Hnz].
    { split; [exact Hq|]. split; [exact Hb|]. split; [exact Hz|].
      exists []. split; [now rewrite Ht, app_nil_r | constructor]. }
    destruct (Hstop ltac:(lia)) as [Hblank Hhash].
    assert (Hstep : forall ty,
              match Checked.Tokenize_loop turns
                      (push_token ty EmptyString (Skip 1 q)) with
              | Done q' =>
                tracked q' /\ buffer q' = buffer p /\ Unread q' = 0
                /\ exists new, tokens q' = tokens p ++ new
                               /\ Forall (token_located (buffer p)) new
              | Raised e => error_at_end (buffer p) e
              | _ => True
              end).
    { intros ty.
      assert (H1 : tracked (Skip 1 q)) by (apply tracked_Skip_1; [exact Hq | lia]).
      destruct (Tokenize_facts.same_Skip 1 q) as [Hbs Hts].
      specialize (IH (push_token ty EmptyString (Skip 1 q))
                     (tracked_push_token ty EmptyString _ H1)).
      rewrite Parser_facts.Unread_push_token, Parser_facts.Unread_Skip in IH.
      specialize (IH ltac:(lia)).
      assert (Hbp : buffer (push_token ty EmptyString (Skip 1 q)) = buffer p)
        by (change (buffer (Skip 1 q) = buffer p); congruence).
      rewrite Hbp in IH.
      destruct (Checked.Tokenize_loop turns (push_token ty EmptyString (Skip 1 q)))
        as [q'|e| |]; try exact IH.
      destruct IH as (Ht' & Hb' & Hu' & new & Hnew & Hloc).
      split; [exact Ht'|]. split; [exact Hb'|]. split; [exact Hu'|].
      exists (Token.mk ty EmptyString (readPos (Skip 1 q)) (line (Skip 1 q))
                       (column (Skip 1 q)) :: new).
      split.
      - rewrite Hnew.
        change (tokens (push_token ty EmptyString (Skip 1 q)))
          with (tokens (Skip 1 q)
                ++ [Token.mk ty EmptyString (readPos (Skip 1 q))
                             (line (Skip 1 q)) (column (Skip 1 q))]).
        rewrite Hts, Ht, <- app_assoc. reflexivity.
      - constructor; [|exact Hloc].
        unfold token_located. cbn [Token.pos Token.line Token.col].
        unfold tracked in H1. now rewrite Hbs, Hb in H1. }
    destruct (Peek q 0 =? "[")%char; [apply Hstep|].
    destruct (Peek q 0 =? "]")%char eqn:Hl; [apply Hstep|].
    destruct (Peek q 0 =? "{")%char; [apply Hstep|].
    destruct (Peek q 0 =? "}")%char eqn:Hr; [apply Hstep|].
    pose proof (tracked_scan_scalar q Hq ltac:(lia)) as Hs. rewrite Hb in Hs.
    destruct (Checked_facts.scan_scalar_agrees q) as [Es | Es]; rewrite Es in *;
      [exact I|].
    destruct (scan_scalar q) as [q1|e] eqn:E1; cbn [Checked.lift Checked.bind] in *;
      [|exact Hs].
    destruct Hs as (Ht1 & Hb1 & tok & Htok & Hloc1).
    pose proof (Parser_facts.scan_scalar_Unread q q1 ltac:(lia)
                  Hblank Hhash Hl Hr E1) as Hlt.
    specialize (IH q1 Ht1 ltac:(lia)). rewrite Hb1 in IH.
    destruct (Checked.Tokenize_loop turns q1) as [q'|e'| |]; try exact IH.
    destruct IH as (Ht' & Hb' & Hu' & new & Hnew & Hloc).
    split; [exact Ht'|]. split; [exact Hb'|]. split; [exact Hu'|].
    exists (tok :: new). split.
    + rewrite Hnew, Htok, Ht, <- app_assoc. reflexivity.
    + now constructor.
Qed.

(** An error of the recursive descent carries the position of one of the
    tokens. *)
Lemma Parse_error_token (P : Token.t -> Prop) : forall depth,
  (forall tok, Forall P tok ->
     match Checked.Parse_at depth tok with
     | Done (_, rest) => Forall P rest
     | Raised e => raised_at P e
     | _ => True
     end)
  /\ (forall tok list, Forall P tok ->
       match Checked.array_loop depth tok list with
       | Done (_, rest) => Forall P rest
       | Raised e => raised_at P e
       | _ => True
       end)
  /\ (forall tok dict, Forall P tok ->
       match Checked.dict_loop depth tok dict with
       | Done (_, rest) => Forall P rest
       | Raised e => raised_at P e
       | _ => True
       end).
Proof.
  induction depth as [|depth (IHp & IHa & IHd)]; [repeat split; intros; exact I|].
  split; [|split].
  - intros [|t next] H; cbn [Checked.Parse_at]; [exact I|].
    inversion H as [|? ? Ht Hnext]; subst.
    specialize (IHa next [] Hnext). specialize (IHd next [] Hnext).
    destruct (Token.type t);
      try (exists "Unexpected character", t; split; [exact Ht | reflexivity]);
      try exact Hnext.
    + destruct (Checked.array_loop depth next []) as [[list [|t' tok]]| | |];
        cbn [Checked.increment]; auto.
      now inversion IHa.
    + destruct (Checked.dict_loop depth next []) as [[dict [|t' tok]]| | |];
        cbn [Checked.increment]; auto.
      now inversion IHd.
  - intros [|t next] list H; cbn [Checked.array_loop]; [exact H|].
    destruct (Token.Type_eqb (Token.type t) Token.ARRAY_END); [exact H|].
    specialize (IHp (t :: next) H).
    destruct (Checked.Parse_at depth (t :: next)) as [[node tok]| | |];
      [apply IHa; exact IHp | exact IHp | exact I | exact I].
  - intros [|t next] dict H; cbn [Checked.dict_loop]; [exact H|].
    destruct (Token.Type_eqb (Token.type t) Token.DICT_END); [exact H|].
    inversion H as [|? ? Ht Hnext]; subst.
    destruct (negb (Token.Type_eqb (Token.type t) Token.KEY)).
    { exists "key expected", t. split; [exact Ht | reflexivity]. }
    specialize (IHp next Hnext).
    destruct (Checked.Parse_at depth next) as [[node tok]| | |];
      [apply IHd; exact IHp | exact IHp | exact I | exact I].
Qed.

(** The tokens of a buffer: after the synthesized [DICT_START], every
    token is where its position says; the last one is the closing
    [DICT_END], stored at the end of the buffer. *)
Lemma Tokenize_located (b : list ascii) :
  match Checked.Tokenize (make b) with
  | Done q =>
    buffer q = b /\ readPos q = length b
    /\ exists toks,
         tokens q
         = Token.mk Token.DICT_START EmptyString 0 0 0
             :: toks
             ++ [Token.mk Token.DICT_END EmptyString (length b)
                          (1 + count_newlines b) (since_newline b)]
         /\ Forall (token_located b) toks
  | Raised e => error_at_end b e
  | _ => True
  end.
Proof.
  unfold Checked.Tokenize, make. cbn [buffer readPos line column tokens app].
  set (p0 := mk _ _ _ _ _).
  assert (Hp0 : tracked p0) by (repeat split; simpl; lia).
  pose proof (tracked_Tokenize_loop (Unread p0) p0 Hp0 (Nat.le_refl _)) as H.
  destruct (Checked.Tokenize_loop (Unread p0) p0) as [q|e| |];
    cbn [Checked.bind]; try exact H.
  destruct H as (Hq & Hb & Hu & new & Hnew & Hloc).
  change (buffer p0) with b in *.
  pose proof (at_end q Hq Hu) as Hend. rewrite Hb in Hend.
  destruct Hend as (Hpos & Hline & Hcol). cbn [pos lin col] in *.
  split; [exact Hb|]. split; [exact Hpos|].
  exists new. split; [|exact Hloc].
  unfold push_token. cbn [tokens]. rewrite Hnew, Hpos, Hline, Hcol.
  unfold p0. cbn [tokens app]. reflexivity.
Qed.

End Position_facts.

(** X24.  Positions are kept.  Whenever tokenizing a fresh buffer stays
    inside the buffer, it reads the buffer to its end and gives every
    token after the synthesized [DICT_START] a byte offset within the
    buffer, the line that is one more than the number of newlines before
    that offset, and the column that counts the characters since the last
    of them; the last token is the closing [DICT_END], stored at the end
    of the buffer; and the error of an unterminated scalar carries, in the
    same way, the position of the end of the buffer. *)
Theorem Tokenize_positions (buffer : list ascii) :
  match Checked.Tokenize (Parser.make buffer) with
  | Parser.Done q =>
    Parser.buffer q = buffer /\ Parser.readPos q = length buffer
    /\ exists toks,
         Parser.tokens q
         = Token.mk Token.DICT_START EmptyString 0 0 0
             :: toks
             ++ [Token.mk Token.DICT_END EmptyString (length buffer)
                          (1 + count_newlines buffer) (since_newline buffer)]
         /\ Forall (token_located buffer) toks
  | Parser.Raised e => error_at_end buffer e
  | Parser.Undefined => True
  | Parser.Exhausted => False
  end.
Proof.
  pose proof (Position_facts.Tokenize_located buffer) as H.
  destruct (Checked.Tokenize (Parser.make buffer)) as [q|e| |] eqn:E;
    try exact H.
  destruct (Checked_facts.Tokenize_agrees (Parser.make buffer)) as [H' | H'];
    rewrite E in H'; [discriminate|].
  destruct (Parser.Tokenize (Parser.make buffer)); discriminate.
Qed.

(** X25.  Every error [Parse] raises points into the text that was read:
    its byte offset lies within the buffer (without the byte order mark
    [FixEncoding] erases), its line is one more than the number of
    newlines before that offset, and its column is the number of
    characters since the last of them. *)
Theorem Parse_error_position (buffer : list ascii) (e : exn)
  (Hraised : Checked.Parse (Parser.make buffer) = Parser.Raised e) :
  error_located (Parser.buffer (Parser.FixEncoding (Parser.make buffer))) e.
Proof.
  unfold Checked.Parse in Hraised.
  assert (Hfix : Parser.FixEncoding (Parser.make buffer)
                 = Parser.make (Parser.buffer
                                  (Parser.FixEncoding (Parser.make buffer)))).
  { unfold Parser.FixEncoding, Parser.make. cbn [Parser.buffer Parser.readPos
      Parser.line Parser.column Parser.tokens].
    destruct buffer as [|b0 [|b1 [|b2 rest]]]; try reflexivity.
    destruct ((b0 =? "239")%char && (b1 =? "187")%char && (b2 =? "191")%char);
      reflexivity. }
  set (text := Parser.buffer (Parser.FixEncoding (Parser.make buffer))) in *.
  rewrite Hfix in Hraised.
  pose proof (Position_facts.Tokenize_located text) as Htok.
  destruct (Checked.Tokenize (Parser.make text)) as [q|e'| |];
    cbn [Checked.bind] in Hraised; try discriminate.
  - destruct Htok as (_ & _ & toks & Htoks & Hloc).
    rewrite Htoks in Hraised.
    set (depth := Parser.enough _) in Hraised.
    destruct depth as [|depth]; [discriminate|].
    cbn [Checked.Parse_at Token.type] in Hraised.
    set (last := Token.mk Token.DICT_END _ _ _ _) in *.
    assert (Hall : Forall (token_located text) (toks ++ [last])).
    { apply Forall_app. split; [exact Hloc|]. constructor; [|constructor].
      unfold token_located, located, last.
      cbn [Token.pos Token.line Token.col]. rewrite firstn_all. auto. }
    destruct (Position_facts.Parse_error_token (token_located text) depth)
      as (_ & _ & Hd).
    specialize (Hd (toks ++ [last]) [] Hall).
    destruct (Checked.dict_loop depth (toks ++ [last]) [])
      as [[dict [|t tok]]|e0| |]; cbn [Checked.increment Checked.bind] in Hraised;
      try discriminate.
    injection Hraised as <-.
    destruct Hd as (msg & t & Ht & ->). exact Ht.
  - injection Hraised as <-.
    destruct e' as [e'| |]; try contradiction.
    destruct Htok as (Hpos & Hline & Hcol).
    unfold error_located, located. rewrite Hpos, firstn_all. auto.
Qed.

Lemma Parse_error_position_witness :
  error_located (list_ascii_of_string "a: 1
b: ]")
    (AltError (mkError "Unexpected character" 9 2 4)).
Proof.
  apply (Parse_error_position (list_ascii_of_string "a: 1
b: ]") (AltError (mkError "Unexpected character" 9 2 4))).
  vm_compute. reflexivity.
Defined.

(** ** Where the checked parser is defined *)

Module Defined_facts.
Import Parser.

#[local] Arguments Get : simpl never.
#[local] Arguments Skip : simpl never.
#[local] Arguments Peek : simpl never.
#[local] Arguments Unread : simpl never.
#[local] Arguments push_token : simpl never.

Lemma skip_comment_Done (p q : t) :
  Checked.skip_comment p = Done q -> q = skip_comment p.
Proof.
  rewrite Checked_facts.skip_comment_eq.
  destruct (_ =? 0); [discriminate|]. now intros [= <-].
Qed.

(** The counters of the checked loops do not decide their results. *)
Lemma checked_SkipToNextToken_loop_turns : forall t1 t2 p,
  Unread p <= t1 -> Unread p <= t2 ->
  Checked.SkipToNextToken_loop t1 p = Checked.SkipToNextToken_loop t2 p.
Proof.
  induction t1 as [|t1 IH]; intros t2 p H1 H2.
  - destruct t2; cbn [Checked.SkipToNextToken_loop]; [reflexivity|].
    destruct (Nat.ltb_spec 0 (Unread p)); [lia | reflexivity].
  - destruct t2 as [|t2]; cbn [Checked.SkipToNextToken_loop].
    + destruct (Nat.ltb_spec 0 (Unread p)); [lia | reflexivity].
    + destruct (Nat.ltb_spec 0 (Unread p)); [|reflexivity].
      destruct (is_blank (Peek p 0)).
      * apply IH; rewrite Parser_facts.Unread_Skip; lia.
      * destruct (Peek p 0 =? HASH)%char; [|reflexivity].
        destruct (Checked.skip_comment p) as [q| | |] eqn:E; try reflexivity.
        cbn [Checked.bind]. apply skip_comment_Done in E. subst q.
        pose proof (Parser_facts.skip_comment_Unread p). apply IH; lia.
Qed.

Lemma checked_Tokenize_loop_turns : forall t1 t2 p,
  Unread p <= t1 -> Unread p <= t2 ->
  Checked.Tokenize_loop t1 p = Checked.Tokenize_loop t2 p.
Proof.
  induction t1 as [|t1 IH]; intros t2 p H1 H2.
  - destruct t2; cbn [Checked.Tokenize_loop]; [reflexivity|].
    destruct (Nat.ltb_spec 0 (Unread p)); [lia | reflexivity].
  - destruct t2 as [|t2]; cbn [Checked.Tokenize_loop].
    + destruct (Nat.ltb_spec 0 (Unread p)); [lia | reflexivity].
    + destruct (Nat.ltb_spec 0 (Unread p)) as [Hpos|]; [|reflexivity].
      destruct (Checked_facts.SkipToNextToken_agrees p) as [-> | ->];
        [reflexivity|].
      cbn [Checked.bind].
      pose proof (Parser_facts.SkipToNextToken_loop_Unread (Unread p) p) as Hle.
      pose proof (Parser_facts.SkipToNextToken_loop_stops (Unread p) p
                    (Nat.le_refl _)) as Hstop.
      fold (SkipToNextToken p) in Hle, Hstop.
      set (q := SkipToNextToken p) in *.
      destruct (Nat.eqb_spec (Unread q) 0) as [|Hq]; [reflexivity|].
      destruct (Hstop ltac:(lia)) as [Hb Hh].
      destruct (Peek q 0 =? "[")%char.
      { apply IH; rewrite Parser_facts.Unread_push_token,
                    Parser_facts.Unread_Skip; lia. }
      destruct (Peek q 0 =? "]")%char eqn:Hl.
      { apply IH; rewrite Parser_facts.Unread_push_token,
                    Parser_facts.Unread_Skip; lia. }
      destruct (Peek q 0 =? "{")%char.
      { apply IH; rewrite Parser_facts.Unread_push_token,
                    Parser_facts.Unread_Skip; lia. }
      destruct (Peek q 0 =? "}")%char eqn:Hr.
      { apply IH; rewrite Parser_facts.Unread_push_token,
                    Parser_facts.Unread_Skip; lia. }
      destruct (Checked_facts.scan_scalar_agrees q) as [-> | ->];
        [reflexivity|].
      destruct (scan_scalar q) as [q'|e] eqn:E;
        cbn [Checked.lift Checked.bind]; [|reflexivity].
      pose proof (Parser_facts.scan_scalar_Unread q q' ltac:(lia) Hb Hh Hl Hr E).
      apply IH; lia.
Qed.

(** *** Buffers that end in a newline *)

(** The last character of the buffer is a newline. *)
Lemma last_unread (p : t) (text : list ascii) :
  buffer p = text ++ [LF] -> Unread p = 1 -> Peek p 0 = LF.
Proof.
  unfold Unread, Peek. intros Hb HU. rewrite Hb in *.
  rewrite length_app in HU. cbn [length] in HU.
  rewrite Nat.add_0_r.
  replace (readPos p) with (length text) by lia.
  rewrite nth_middle. reflexivity.
Qed.

(** A character other than the newline is not the last one. *)
Lemma not_last (p : t) (text : list ascii) :
  buffer p = text ++ [LF] -> 0 < Unread p -> Peek p 0 <> LF ->
  0 < Unread (Skip 1 p).
Proof.
  intros Hb HU HP. rewrite Parser_facts.Unread_Skip.
  destruct (Nat.eq_dec (Unread p) 1) as [E|]; [|lia].
  now rewrite (last_unread p text Hb E) in HP.
Qed.

Lemma skip_while_in_comment_stays (text : list ascii) : forall turns p,
  buffer p = text ++ [LF] -> 0 < Unread p ->
  0 < Unread (skip_while in_comment turns p).
Proof.
  induction turns as [|turns IH]; intros p Hb HU; cbn [skip_while]; [exact HU|].
  destruct (Nat.ltb_spec 0 (Unread p)); [|lia]. cbn [andb].
  destruct (in_comment (Peek p 0)) eqn:Hc; [|exact HU].
  apply IH.
  - destruct (Tokenize_facts.same_Skip 1 p) as [-> _]. exact Hb.
  - apply (not_last p text Hb HU). now apply Parser_facts.in_comment_line.
Qed.

Lemma skip_comment_defined (text : list ascii) (p : t) :
  buffer p = text ++ [LF] -> 0 < Unread p -> (Peek p 0 =? HASH)%char = true ->
  Checked.skip_comment p = Done (skip_comment p).
Proof.
  intros Hb HU HP. rewrite Checked_facts.skip_comment_eq.
  apply Ascii.eqb_eq in HP.
  assert (H1 : 0 < Unread (Skip 1 p)).
  { apply (not_last p text Hb HU). rewrite HP. discriminate. }
  assert (Hb1 : buffer (Skip 1 p) = text ++ [LF])
    by (destruct (Tokenize_facts.same_Skip 1 p) as [-> _]; exact Hb).
  pose proof (skip_while_in_comment_stays text (Unread (Skip 1 p)) (Skip 1 p)
                Hb1 H1) as H2.
  destruct (Nat.eqb_spec (Unread (skip_while in_comment (Unread (Skip 1 p))
                                             (Skip 1 p))) 0); [lia|reflexivity].
Qed.

Lemma SkipToNextToken_loop_defined (text : list ascii) : forall turns p,
  buffer p = text ++ [LF] ->
  Checked.SkipToNextToken_loop turns p = Done (SkipToNextToken_loop turns p).
Proof.
  induction turns as [|turns IH]; intros p Hb;
    cbn [Checked.SkipToNextToken_loop SkipToNextToken_loop]; [reflexivity|].
  destruct (Nat.ltb_spec 0 (Unread p)) as [HU|]; [|reflexivity].
  destruct (is_blank (Peek p 0)).
  - apply IH. destruct (Tokenize_facts.same_Skip 1 p) as [-> _]. exact Hb.
  - destruct (Peek p 0 =? HASH)%char eqn:HP; [|reflexivity].
    rewrite (skip_comment_defined text p Hb HU HP). cbn [Checked.bind].
    apply IH. destruct (Tokenize_facts.same_skip_comment p) as [-> _]. exact Hb.
Qed.

Lemma scan_scalar_defined (text : list ascii) (p : t) :
  buffer p = text ++ [LF] -> 0 < Unread p ->
  Checked.scan_scalar p = Checked.lift (scan_scalar p).
Proof.
  intros Hb HU. unfold Checked.scan_scalar, scan_scalar.
  destruct ((Peek p 0 =? QUOTE)%char || (Peek p 0 =? DQUOTE)%char) eqn:Hq;
    [|reflexivity].
  rewrite Checked_facts.scan_quoted_eq.
  assert (H1 : 0 < Unread (Skip 1 p)).
  { apply (not_last p text Hb HU). intros E. rewrite E in Hq. discriminate. }
  destruct (Nat.eqb_spec (Unread (Skip 1 p)) 0); [lia|].
  destruct (scan_quoted p) as [r|e]; reflexivity.
Qed.

Lemma Tokenize_loop_defined (text : list ascii) : forall turns p,
  buffer p = text ++ [LF] ->
  Checked.Tokenize_loop turns p = Checked.lift (Tokenize_loop turns p).
Proof.
  induction turns as [|turns IH]; intros p Hb;
    cbn [Checked.Tokenize_loop Tokenize_loop]; [reflexivity|].
  destruct (Nat.ltb_spec 0 (Unread p)); [|reflexivity].
  unfold Checked.SkipToNextToken.
  rewrite (SkipToNextToken_loop_defined text (Unread p) p Hb).
  fold (SkipToNextToken p). cbn [Checked.bind].
  destruct (Tokenize_facts.same_SkipToNextToken_loop (Unread p) p) as [Hbq _].
  fold (SkipToNextToken p) in Hbq. rewrite Hb in Hbq.
  set (q := SkipToNextToken p) in *.
  destruct (Nat.eqb_spec (Unread q) 0) as [|Hnz]; [reflexivity|].
  assert (Hstep : forall ty,
            buffer (push_token ty EmptyString (Skip 1 q)) = text ++ [LF]).
  { intros ty. change (buffer (Skip 1 q) = text ++ [LF]).
    destruct (Tokenize_facts.same_Skip 1 q) as [-> _]. exact Hbq. }
  destruct (Peek q 0 =? "[")%char; [apply IH, Hstep|].
  destruct (Peek q 0 =? "]")%char; [apply IH, Hstep|].
  destruct (Peek q 0 =? "{")%char; [apply IH, Hstep|].
  destruct (Peek q 0 =? "}")%char; [apply IH, Hstep|].
  rewrite (scan_scalar_defined text q Hbq) by lia.
  pose proof (Tokenize_facts.scan_scalar_outcome q) as Hs.
  destruct (scan_scalar q) as [q1|e]; cbn [Checked.lift Checked.bind bind];
    [|reflexivity].
  apply IH. destruct Hs as [-> _]. exact Hbq.
Qed.

Lemma Tokenize_defined (text : list ascii) (p : t) :
  buffer p = text ++ [LF] ->
  Checked.Tokenize p = Checked.lift (Tokenize p).
Proof.
  intros Hb. unfold Checked.Tokenize, Tokenize.
  match goal with
  | |- context [Checked.Tokenize_loop ?n ?p0] =>
    rewrite (Tokenize_loop_defined text n p0 Hb);
    destruct (Tokenize_loop n p0); reflexivity
  end.
Qed.

(** *** A comment that runs to the end of the buffer *)

Lemma skip_comment_undefined (p : t) (body : list ascii) :
  unread_text p = HASH :: body ->
  forallb in_comment body = true ->
  Checked.skip_comment p = Undefined.
Proof.
  intros Htext Hbody. rewrite Checked_facts.skip_comment_eq.
  assert (H1 : unread_text (Skip 1 p) = body ++ []).
  { rewrite Cursor_facts.unread_Skip, Htext, app_nil_r. reflexivity. }
  assert (HU1 : Unread (Skip 1 p) = length body).
  { rewrite Parser_facts.Unread_unread, H1, app_nil_r. reflexivity. }
  rewrite (Parser_facts.skip_while_run in_comment Parser_facts.in_comment_line
             body (Skip 1 p) (Unread (Skip 1 p)) [] H1 Hbody I)
    by (rewrite HU1; lia).
  rewrite Parser_facts.Unread_unread, Parser_facts.unread_moved, H1, app_nil_r.
  rewrite skipn_all. reflexivity.
Qed.

End Defined_facts.

(** ** Outcomes of the checked parser *)

(** X3.  Whenever [Parse] on a fresh parser stays inside its data (no
    read past the buffer, no increment of the end iterator), it returns a
    mapping or throws an [Error] whose message is one of
    [Unexpected end of file], [key expected] and [Unexpected character],
    and it does what the plain model does; the counter of the recursive
    descent never runs out. *)
Theorem Parse_outcome (buffer : list ascii) :
  match Checked.Parse (Parser.make buffer) with
  | Parser.Done node =>
    (exists dict, node = NodeDict dict)
    /\ Parser.Parse (Parser.make buffer) = Parser.Done node
  | Parser.Raised e =>
    (Parser.is_end_of_file e \/ Parser.is_parse_error e)
    /\ Parser.Parse (Parser.make buffer) = Parser.Raised e
  | Parser.Undefined => True
  | Parser.Exhausted => False
  end.
Proof.
  pose proof (plain_Parse_outcome buffer) as H.
  pose proof (Checked_facts.checked_Parse_not_Exhausted (Parser.make buffer)) as Hex.
  destruct (Checked_facts.Parse_agrees (Parser.make buffer)) as [E | E];
    rewrite E in *; [exact I|].
  destruct (Parser.Parse (Parser.make buffer)) as [node|e| |];
    [split; [exact H | reflexivity] | split; [exact H | reflexivity]
    | exact I | now apply Hex].
Qed.

(** X20.  A quoted scalar in which every later occurrence of the opening
    quote comes right after a backslash is never closed.  When something
    follows the opening quote, scanning it throws
    [Unexpected end of file], and so does parsing a buffer that starts
    with it.  When the opening quote is the last character of the buffer,
    the header reads the character past the end to compare it with the
    quote: scanning and parsing are undefined. *)
Theorem unterminated_scalar (start : ascii) (W : list ascii)
  (Hstart : start = QUOTE \/ start = DQUOTE)
  (Hopen : each_preceded start NUL W = true) :
  match W with
  | _ :: _ =>
    (forall p, Parser.unread_text p = start :: W ->
       exists e, Checked.scan_scalar p = Parser.Raised e
                 /\ Parser.is_end_of_file e)
    /\ exists e, Checked.Parse (Parser.make (start :: W)) = Parser.Raised e
                 /\ Parser.is_end_of_file e
  | [] =>
    (forall p, Parser.unread_text p = [start] ->
       Checked.scan_scalar p = Parser.Undefined)
    /\ Checked.Parse (Parser.make [start]) = Parser.Undefined
  end.
Proof.
  assert (Hq : (start =? QUOTE)%char || (start =? DQUOTE)%char = true)
    by (destruct Hstart as [-> | ->]; reflexivity).
  assert (Hscan : forall p, Parser.unread_text p = start :: W ->
            Checked.scan_scalar p
            = if length W =? 0 then Parser.Undefined
              else Checked.lift (Parser.scan_scalar p)).
  { intros p Htext. unfold Checked.scan_scalar, Parser.scan_scalar.
    rewrite Parser_facts.Peek_unread, Htext. cbn [nth]. rewrite Hq.
    rewrite Checked_facts.scan_quoted_eq.
    rewrite Parser_facts.Unread_unread, Cursor_facts.unread_Skip, Htext.
    cbn [skipn]. destruct (length W =? 0); [reflexivity|].
    destruct (Parser.scan_quoted p) as [r|e]; reflexivity. }
  set (p0 := Parser.mk (start :: W) 0 1 0
                [Token.mk Token.DICT_START EmptyString 0 0 0]).
  assert (Htext : Parser.unread_text p0 = start :: W) by reflexivity.
  assert (Hparse : (forall q, Checked.scan_scalar p0 <> Parser.Done q) ->
            Checked.Parse (Parser.make (start :: W))
            = Checked.bind (Checked.scan_scalar p0)
                           (fun _ => Parser.Undefined)).
  { intros Hnot.
    assert (Hfix : Parser.FixEncoding (Parser.make (start :: W))
                   = Parser.make (start :: W)).
    { unfold Parser.FixEncoding, Parser.make. cbn [Parser.buffer].
      destruct W as [|b1 [|b2 W']]; try reflexivity.
      assert (H239 : (start =? "239")%char = false)
        by (destruct Hstart as [-> | ->]; reflexivity).
      now rewrite H239. }
    unfold Checked.Parse. rewrite Hfix. unfold Checked.Tokenize, Parser.make.
    cbn [Parser.buffer Parser.readPos Parser.line Parser.column Parser.tokens app].
    fold p0.
    assert (HU : Parser.Unread p0 = S (length W)).
    { rewrite Parser_facts.Unread_unread, Htext. reflexivity. }
    assert (HP : Parser.Peek p0 0 = start).
    { rewrite Parser_facts.Peek_unread, Htext. reflexivity. }
    assert (Hnext : Checked.SkipToNextToken p0 = Parser.Done p0).
    { unfold Checked.SkipToNextToken. rewrite HU.
      cbn [Checked.SkipToNextToken_loop].
      rewrite HU, HP. cbn [Nat.ltb Nat.leb].
      destruct Hstart as [-> | ->]; reflexivity. }
    rewrite HU. cbn [Checked.Tokenize_loop].
    rewrite HU. cbn [Nat.ltb Nat.leb]. rewrite Hnext. cbn [Checked.bind].
    rewrite HU, HP. cbn [Nat.eqb].
    assert (Hb : (start =? "[")%char = false /\ (start =? "]")%char = false
                 /\ (start =? "{")%char = false /\ (start =? "}")%char = false)
      by (destruct Hstart as [-> | ->]; repeat split).
    destruct Hb as (-> & -> & -> & ->).
    destruct (Checked.scan_scalar p0) as [q|e| |]; try reflexivity.
    now destruct (Hnot q). }
  destruct W as [|c W'].
  - assert (Hund : forall p, Parser.unread_text p = [start] ->
              Checked.scan_scalar p = Parser.Undefined)
      by (intros p Hp; now rewrite (Hscan p Hp)).
    split; [exact Hund|].
    rewrite Hparse; rewrite (Hund p0 Htext); [reflexivity | discriminate].
  - destruct (never_closed start (c :: W') Hstart Hopen) as [Hplain _].
    assert (Hraise : forall p, Parser.unread_text p = start :: c :: W' ->
              exists e, Checked.scan_scalar p = Parser.Raised e
                        /\ Parser.is_end_of_file e).
    { intros p Hp. destruct (Hplain p Hp) as (e & He & Heof).
      exists e. split; [|exact Heof].
      rewrite (Hscan p Hp), He. reflexivity. }
    split; [exact Hraise|].
    destruct (Hraise p0 Htext) as (e & He & Heof).
    exists e. split; [|exact Heof].
    rewrite Hparse; rewrite He; [reflexivity | discriminate].
Qed.

Lemma unterminated_scalar_witness :
  exists e, Checked.Parse (Parser.make (list_ascii_of_string "'never closed\'"))
            = Parser.Raised e
            /\ Parser.is_end_of_file e.
Proof.
  refine (proj2 (unterminated_scalar QUOTE
                   (list_ascii_of_string "never closed\'") _ _)).
  - now left.
  - reflexivity.
Defined.

(** ** Where the header steps outside its data *)

(** X26.  A buffer that ends in a newline is tokenized without a read
    past its end: neither a comment nor an opening quote can be its last
    character, so both unguarded reads find a character of the buffer.
    Tokenizing it returns or throws [Unexpected end of file], as the
    plain model does. *)
Theorem Tokenize_newline_terminated (text : list ascii) :
  Checked.Tokenize (Parser.make (text ++ [LF]))
  = Checked.lift (Parser.Tokenize (Parser.make (text ++ [LF])))
  /\ match Checked.Tokenize (Parser.make (text ++ [LF])) with
     | Parser.Done q => Parser.Unread q = 0
     | Parser.Raised e => Parser.is_end_of_file e
     | Parser.Undefined => False
     | Parser.Exhausted => False
     end.
Proof.
  assert (H : Checked.Tokenize (Parser.make (text ++ [LF]))
              = Checked.lift (Parser.Tokenize (Parser.make (text ++ [LF]))))
    by now apply (Defined_facts.Tokenize_defined text).
  split; [exact H|]. rewrite H.
  unfold Parser.Tokenize.
  match goal with
  | |- context [Parser.Tokenize_loop ?n ?p0] =>
    pose proof (Tokenize_facts.Tokenize_loop_outcome n p0 (Nat.le_refl _)) as Hout;
    destruct (Parser.Tokenize_loop n p0) as [q|e]; cbn [bind Checked.lift]
  end.
  - destruct Hout as (_ & Hu & _). exact Hu.
  - exact Hout.
Qed.

(** X27.  A comment that runs to the end of the buffer, with no newline,
    second hash or double quote in it, makes the scanner read the
    character past the end of the buffer: after the loop that skips the
    comment, [Peek()] is compared with a double quote without a test of
    [Unread()].  [SkipToNextToken] on such a comment is undefined, and so
    is parsing a buffer that consists of it. *)
Theorem comment_at_end_of_buffer (p : Parser.t) (body : list ascii)
  (Htext : Parser.unread_text p = HASH :: body)
  (Hbody : forallb Parser.in_comment body = true) :
  Checked.skip_comment p = Parser.Undefined
  /\ Checked.SkipToNextToken p = Parser.Undefined
  /\ Checked.Parse (Parser.make (HASH :: body)) = Parser.Undefined.
Proof.
  assert (Hnext : forall q, Parser.unread_text q = HASH :: body ->
            Checked.SkipToNextToken q = Parser.Undefined).
  { intros q Hq. unfold Checked.SkipToNextToken.
    rewrite Parser_facts.Unread_unread, Hq. cbn [length].
    cbn [Checked.SkipToNextToken_loop].
    rewrite Parser_facts.Unread_unread, Parser_facts.Peek_unread, Hq.
    cbn [length nth Nat.ltb Nat.leb].
    change (Parser.is_blank HASH) with false.
    change (HASH =? HASH)%char with true. cbv iota.
    now rewrite (Defined_facts.skip_comment_undefined q body Hq Hbody). }
  split; [now apply (Defined_facts.skip_comment_undefined p body)|].
  split; [now apply Hnext|].
  unfold Checked.Parse.
  assert (Hfix : Parser.FixEncoding (Parser.make (HASH :: body))
                 = Parser.make (HASH :: body)).
  { unfold Parser.FixEncoding, Parser.make. cbn [Parser.buffer].
    destruct body as [|b1 [|b2 body']]; reflexivity. }
  rewrite Hfix. unfold Checked.Tokenize, Parser.make.
  cbn [Parser.buffer Parser.readPos Parser.line Parser.column Parser.tokens app].
  set (p0 := Parser.mk _ _ _ _ _).
  assert (H0 : Parser.unread_text p0 = HASH :: body) by reflexivity.
  rewrite Parser_facts.Unread_unread, H0. cbn [length].
  cbn [Checked.Tokenize_loop].
  rewrite Parser_facts.Unread_unread, H0. cbn [length Nat.ltb Nat.leb].
  now rewrite (Hnext p0 H0).
Qed.

Lemma comment_at_end_of_buffer_witness :
  Checked.Parse (Parser.make (HASH :: list_ascii_of_string " the end"))
  = Parser.Undefined.
Proof.
  refine (proj2 (proj2 (comment_at_end_of_buffer
                          (Parser.make (HASH :: list_ascii_of_string " the end"))
                          (list_ascii_of_string " the end") _ _)));
    reflexivity.
Defined.

(** ** Values the recursive descent returns *)

Module Complete_facts.
Import Parser.



End Complete_facts.


